(** * KnowHowPages: the static site generator [generate.py]

    A shallow embedding of the tree builder, the navigation renderer, the
    copy-button post-processing, the title extraction and the site writer of
    [generate.py], with the properties of its specification stated on the
    embedded functions.

    Conventions of the embedding.
    - A Python [str] is a [string] whose characters are the code points
      below 256 (ASCII and Latin-1), compared by code point as Python does;
      [str.lower] and the classes [\s] and [\w] of [re] are those of Python
      on these code points.  Texts with other code points are outside the
      embedding.
    - A [pathlib.Path] is the list of its parts.
    - A raised exception is the [Raise] case of [result]; no exception is
      caught in the source, so it ends the run.
    - The texts of the external collaborators (the Markdown converter, the
      Pygments style sheet) are parameters. *)

From Stdlib Require Import String Ascii List Bool Arith Lia.
From Stdlib Require Import Sorted Permutation DecimalString.
Import ListNotations.

#[global] Set Warnings "-register-all".

Open Scope list_scope.
Open Scope string_scope.

(* ------------------------------------------------------------------ *)
(** ** Exceptions *)

Inductive exn : Type :=
| ValueError
| OSError.

Inductive result (A : Type) : Type :=
| Ok (a : A)
| Raise (e : exn).

Arguments Ok {A} a.
Arguments Raise {A} e.

Definition bind {A B : Type} (r : result A) (k : A -> result B) : result B :=
  match r with
  | Ok a => k a
  | Raise e => Raise e
  end.

Notation "x <- r ;; k" := (bind r (fun x => k))
  (at level 61, r at next level, right associativity).

Fixpoint mapM {A B : Type} (f : A -> result B) (l : list A) : result (list B) :=
  match l with
  | [] => Ok []
  | a :: l' => b <- f a ;; bs <- mapM f l' ;; Ok (b :: bs)
  end.

(** A loop that carries a state. *)
Fixpoint foldM {A S : Type} (f : S -> A -> result S) (s : S) (l : list A)
  : result S :=
  match l with
  | [] => Ok s
  | a :: l' => s' <- f s a ;; foldM f s' l'
  end.

(* ------------------------------------------------------------------ *)
(** ** Strings *)

Module Str.

(** The double quote character, as a one-character string. *)
Definition q : string := String (ascii_of_nat 34) EmptyString.

(** The line feed character. *)
Definition LF : ascii := ascii_of_nat 10.
Definition nl : string := String LF EmptyString.

(** [s * n] for a string [s]. *)
Fixpoint repeat (s : string) (n : nat) : string :=
  match n with
  | O => ""
  | S n' => s ++ repeat s n'
  end.

(** [str(n)] for a non-negative integer. *)
Definition of_nat (n : nat) : string :=
  NilEmpty.string_of_uint (Nat.to_uint n).

(** The lower case of a character: the letters A to Z and the Latin-1
    capitals (192 to 222, the multiplication sign 215 apart) move up by 32. *)
Definition lower_ascii (c : ascii) : ascii :=
  let n := nat_of_ascii c in
  if ((65 <=? n) && (n <=? 90)
      || (192 <=? n) && (n <=? 222) && negb (n =? 215))%nat
  then ascii_of_nat (n + 32) else c.

(** [s.lower()] *)
Fixpoint lower (s : string) : string :=
  match s with
  | EmptyString => EmptyString
  | String c s' => String (lower_ascii c) (lower s')
  end.

(** [s.rfind(".")]; [None] stands for Python's [-1]. *)
Fixpoint rfind_dot (s : string) : option nat :=
  match s with
  | EmptyString => None
  | String c s' =>
      match rfind_dot s' with
      | Some i => Some (S i)
      | None => if Ascii.eqb c "." then Some 0 else None
      end
  end.

(** [s.endswith(t)]. *)
Definition endswith (s t : string) : bool :=
  (String.length t <=? String.length s)%nat &&
  String.eqb (substring (String.length s - String.length t) (String.length t) s) t.

(** The lines of a text, joined by line feeds. *)
Definition lines (l : list string) : string := String.concat nl l.

(** [s[n:]] *)
Fixpoint drop (n : nat) (s : string) : string :=
  match n, s with
  | O, _ => s
  | S n', String _ s' => drop n' s'
  | S _, EmptyString => EmptyString
  end.

End Str.

(* ------------------------------------------------------------------ *)
(** ** Paths ([pathlib.PurePath]) *)

Definition Path : Type := list string.

Module PurePath.

(** [p / name] *)
Definition joinpath (p : Path) (name : string) : Path := (p ++ [name])%list.

(** [p.name]: the final component, empty for the empty path. *)
Definition name (p : Path) : string := last p "".

(** [p.parent] *)
Definition parent (p : Path) : Path := removelast p.

(** The index that [suffix] and [stem] split the name at:
    [i = name.rfind(".")] when [0 < i < len(name) - 1]. *)
Definition split_at (nm : string) : option nat :=
  match Str.rfind_dot nm with
  | Some i => if ((0 <? i) && (i <? String.length nm - 1))%nat then Some i else None
  | None => None
  end.

Definition suffix_of (nm : string) : string :=
  match split_at nm with
  | Some i => substring i (String.length nm - i) nm
  | None => ""
  end.

Definition stem_of (nm : string) : string :=
  match split_at nm with
  | Some i => substring 0 i nm
  | None => nm
  end.

(** [p.suffix] and [p.stem] *)
Definition suffix (p : Path) : string := suffix_of (name p).
Definition stem (p : Path) : string := stem_of (name p).

(** [p.with_suffix(sfx)], for a valid [sfx]; a path with an empty name
    raises [ValueError]. *)
Definition with_suffix (p : Path) (sfx : string) : result Path :=
  if String.eqb (name p) "" then Raise ValueError
  else Ok (joinpath (parent p) (stem p ++ sfx)).

(** [other] is a leading part of [p]. *)
Fixpoint is_relative_to (p other : Path) {struct other} : bool :=
  match other, p with
  | [], _ => true
  | o :: other', x :: p' => String.eqb x o && is_relative_to p' other'
  | _ :: _, [] => false
  end.

(** [p.relative_to(other)] raises [ValueError] when [p] is not under
    [other]. *)
Definition relative_to (p other : Path) : result Path :=
  if is_relative_to p other then Ok (skipn (List.length other) p)
  else Raise ValueError.

(** [p.as_posix()]; the empty path prints as a dot. *)
Definition as_posix (p : Path) : string :=
  match p with
  | [] => "."
  | _ => String.concat "/" p
  end.

(** [p.parts] has this many elements. *)
Definition len_parts (p : Path) : nat := List.length p.

Definition eqb (p1 p2 : Path) : bool :=
  if list_eq_dec string_dec p1 p2 then true else false.

End PurePath.

(* ------------------------------------------------------------------ *)
(** ** Nodes of the navigation tree *)

#[local] Unset Elimination Schemes.
Inductive Node : Type :=
| mkNode (name : string) (path : Path) (is_dir : bool) (children : list Node).

#[local] Set Elimination Schemes.

Definition node_name (n : Node) : string := let 'mkNode nm _ _ _ := n in nm.
Definition node_path (n : Node) : Path := let 'mkNode _ p _ _ := n in p.
Definition node_is_dir (n : Node) : bool := let 'mkNode _ _ d _ := n in d.
Definition node_children (n : Node) : list Node := let 'mkNode _ _ _ cs := n in cs.

(* ------------------------------------------------------------------ *)
(** ** The navigation renderer *)

Definition indent_px (depth : nat) : nat := depth * 16.

Definition style_attr (depth : nat) : string :=
  match depth with
  | O => ""
  | _ => " style=" ++ Str.q ++ "margin-left:" ++ Str.of_nat (indent_px depth) ++ "px" ++ Str.q
  end.

(** [" open" if current_md and current_md.is_relative_to(node.path) else ""];
    a path object is always true as a condition, so [current_md] is false only
    when it is [None]. *)
Definition is_open (node_p : Path) (current_md : option Path) : bool :=
  match current_md with
  | Some cur => PurePath.is_relative_to cur node_p
  | None => false
  end.

Definition open_attr (node_p : Path) (current_md : option Path) : string :=
  if is_open node_p current_md then " open" else "".

(** [current_md and rel_md_path == current_md.relative_to(root)] *)
Definition is_active (rel_md_path : Path) (current_md : option Path) (root : Path)
  : result bool :=
  match current_md with
  | Some cur => cur_rel <- PurePath.relative_to cur root ;;
                Ok (PurePath.eqb rel_md_path cur_rel)
  | None => Ok false
  end.

Definition class_attr (active : bool) : string :=
  if active then " class=" ++ Str.q ++ "active" ++ Str.q else "".

Fixpoint render_nav (node : Node) (current_md : option Path) (root : Path)
  (depth : nat) {struct node} : result string :=
  match node with
  | mkNode name path true children =>
      let head := "<details" ++ open_attr path current_md ++ style_attr depth
                  ++ "><summary title=" ++ Str.q ++ name ++ Str.q ++ ">"
                  ++ name ++ "</summary>" in
      let fix render_children (cs : list Node) : result (list string) :=
        match cs with
        | [] => Ok []
        | child :: cs' =>
            s <- render_nav child current_md root (S depth) ;;
            ss <- render_children cs' ;;
            Ok (s :: ss)
        end in
      parts <- render_children children ;;
      Ok (String.concat Str.nl ([head] ++ parts ++ ["</details>"])%list)
  | mkNode name path false _ =>
      rel_md_path <- PurePath.relative_to path root ;;
      html_href <- PurePath.with_suffix rel_md_path ".html" ;;
      active <- is_active rel_md_path current_md root ;;
      Ok ("<a href=" ++ Str.q ++ PurePath.as_posix html_href ++ Str.q
          ++ class_attr active ++ style_attr depth
          ++ " title=" ++ Str.q ++ name ++ Str.q ++ ">" ++ name ++ "</a>")
  end.

(** ["\n".join(render_nav(child, md_path, input_dir, depth=0) for child in
    tree.children)]: the content root itself is not shown. *)
Definition nav_html (tree : Node) (md_path : Path) (input_dir : Path) : result string :=
  parts <- mapM (fun child => render_nav child (Some md_path) input_dir 0)
                (node_children tree) ;;
  Ok (String.concat Str.nl parts).

(* ------------------------------------------------------------------ *)
(** ** The source directory

    An entry of a directory is one of these.
    - [File]: a regular file (or a symbolic link to one) that holds the
      UTF-8 encoding of a text.
    - [Dir]: a directory, with its entries in the order [iterdir] lists
      them.
    - [Special]: an entry that is neither ([is_file()] and [is_dir()] are
      both false) and cannot be opened: a dangling symbolic link, a socket.
    - [LinkDir]: a symbolic link to a directory, with the entries of that
      directory; [is_dir()] is true and [iterdir] lists the entries, but
      [rglob] does not descend into it.
    - [Binary]: a regular file whose bytes are not the UTF-8 encoding of a
      text: [read_text] raises [UnicodeDecodeError], a [ValueError].
    - [Device]: an entry that is neither file nor directory but can be
      read, with the text read from it: a character device.
    Every directory can be listed and every regular file can be opened; an
    entry whose reading does not end (a FIFO without a writer) is outside
    the embedding. *)

#[local] Unset Elimination Schemes.
Inductive entry : Type :=
| File (name : string) (text : string)
| Dir (name : string) (entries : list entry)
| Special (name : string)
| LinkDir (name : string) (entries : list entry)
| Binary (name : string)
| Device (name : string) (text : string).
#[local] Set Elimination Schemes.

Definition entry_name (e : entry) : string :=
  match e with
  | File nm _ | Dir nm _ | Special nm | LinkDir nm _ | Binary nm | Device nm _ => nm
  end.

Definition is_file (e : entry) : bool :=
  match e with File _ _ | Binary _ => true | _ => false end.

Definition is_dir (e : entry) : bool :=
  match e with Dir _ _ | LinkDir _ _ => true | _ => false end.

(** [p.iterdir()], for a directory. *)
Definition dir_entries (e : entry) : list entry :=
  match e with Dir _ sub | LinkDir _ sub => sub | _ => [] end.

(** [p.read_text(encoding="utf8")] *)
Definition read_text (e : entry) : result string :=
  match e with
  | File _ text | Device _ text => Ok text
  | Binary _ => Raise ValueError
  | Dir _ _ | LinkDir _ _ | Special _ => Raise OSError
  end.

(* ------------------------------------------------------------------ *)
(** ** [sorted(..., key=...)]: a stable sort by the order of the keys *)

Section Sorted.
Context {A K : Type} (key : A -> K) (lt : K -> K -> bool).

Fixpoint insert (x : A) (l : list A) : list A :=
  match l with
  | [] => [x]
  | y :: l' => if lt (key y) (key x) then y :: insert x l' else x :: l
  end.

Definition sorted (l : list A) : list A := fold_right insert [] l.

(** The order of the keys as a relation on the elements: [x] may stand
    before [y] when the key of [y] is not below the key of [x]. *)
Definition key_le (x y : A) : Prop := lt (key y) (key x) = false.

(** No two elements have equivalent keys. *)
Definition keys_apart (l : list A) : Prop :=
  forall x y, In x l -> In y l -> key_le x y -> key_le y x -> x = y.
End Sorted.

(** The key [(p.is_file(), p.name.lower())] and the order of Python tuples. *)
Definition sort_key (e : entry) : bool * string :=
  (is_file e, Str.lower (entry_name e)).

Definition bool_lt (a b : bool) : bool := negb a && b.

Definition key_lt (k1 k2 : bool * string) : bool :=
  bool_lt (fst k1) (fst k2)
  || (Bool.eqb (fst k1) (fst k2) && String.ltb (snd k1) (snd k2)).

(* ------------------------------------------------------------------ *)
(** ** The tree builder *)

(** [child.suffix.lower() == ".md"] *)
Definition is_md (nm : string) : bool :=
  String.eqb (Str.lower (PurePath.suffix_of nm)) ".md".

(** One iteration of the loop of [build_tree]: the nodes that the entry
    [child] of the directory [root] adds to the node of [root].  A
    subdirectory, also one behind a symbolic link, adds the tree of
    [build_tree] for it (see [add_child_Dir]); its subtrees are built while
    its entries are visited and put in the order of the sorted entries
    afterwards. *)
Fixpoint add_child (root : Path) (child : entry) {struct child} : list Node :=
  match child with
  | Dir nm sub | LinkDir nm sub =>
      let dir := PurePath.joinpath root nm in
      [mkNode (PurePath.name dir) dir true
         (flat_map snd
            (sorted fst key_lt (map (fun c => (sort_key c, add_child dir c)) sub)))]
  | File nm _ | Special nm | Binary nm | Device nm _ =>
      if is_md nm
      then [mkNode (PurePath.stem_of nm) (PurePath.joinpath root nm) false []]
      else []
  end.

Definition build_tree (root : Path) (entries : list entry) : Node :=
  mkNode (PurePath.name root) root true
    (flat_map snd
       (sorted fst key_lt (map (fun c => (sort_key c, add_child root c)) entries))).

(* ------------------------------------------------------------------ *)
(** ** [Path.rglob]

    The names are matched case-sensitively on POSIX and case-insensitively
    on Windows.  The scan lists the matching entries of a directory in the
    order of its listing and then descends into its subdirectories, but not
    into those behind a symbolic link; the properties below that speak of
    the first match of a scan hold for the head of this list. *)

Definition fnmatch_md (case_sensitive : bool) (nm : string) : bool :=
  Str.endswith (if case_sensitive then nm else Str.lower nm) ".md".

Definition fnmatch_any (nm : string) : bool := true.

Definition select (pat : string -> bool) (dir : Path) (entries : list entry)
  : list (Path * entry) :=
  map (fun e => (PurePath.joinpath dir (entry_name e), e))
      (filter (fun e => pat (entry_name e)) entries).

(** The matches below the entry [e] of the directory [dir]. *)
Fixpoint rglob_below (pat : string -> bool) (dir : Path) (e : entry)
  {struct e} : list (Path * entry) :=
  match e with
  | Dir nm sub =>
      let d := PurePath.joinpath dir nm in
      (select pat d sub ++ flat_map (rglob_below pat d) sub)%list
  | _ => []
  end.

Definition rglob (pat : string -> bool) (dir : Path) (entries : list entry)
  : list (Path * entry) :=
  (select pat dir entries ++ flat_map (rglob_below pat dir) entries)%list.

(* ------------------------------------------------------------------ *)
(** ** The structure of the rendered navigation

    The renderer returns text.  [markup] is the element structure that this
    text writes down and [to_html] its serialisation; [nav_view] builds the
    structure for a node, and [render_nav_view] shows that [render_nav]
    returns exactly its serialisation.  The properties of the links, the
    active marker and the disclosure state are stated on this structure. *)

#[local] Unset Elimination Schemes.
Inductive markup : Type :=
| Details (open : bool) (depth : nat) (name : string) (children : list markup)
| Link (href : string) (active : bool) (depth : nat) (name : string).
#[local] Set Elimination Schemes.

Fixpoint to_html (m : markup) : string :=
  match m with
  | Details open depth name children =>
      let head := "<details" ++ (if open then " open" else "") ++ style_attr depth
                  ++ "><summary title=" ++ Str.q ++ name ++ Str.q ++ ">"
                  ++ name ++ "</summary>" in
      String.concat Str.nl ([head] ++ map to_html children ++ ["</details>"])%list
  | Link href active depth name =>
      "<a href=" ++ Str.q ++ href ++ Str.q
      ++ (if active then " class=" ++ Str.q ++ "active" ++ Str.q else "")
      ++ style_attr depth
      ++ " title=" ++ Str.q ++ name ++ Str.q ++ ">" ++ name ++ "</a>"
  end.

Fixpoint nav_view (node : Node) (current_md : option Path) (root : Path)
  (depth : nat) {struct node} : result markup :=
  match node with
  | mkNode name path true children =>
      ms <- (fix go (cs : list Node) : result (list markup) :=
               match cs with
               | [] => Ok []
               | child :: cs' =>
                   m <- nav_view child current_md root (S depth) ;;
                   ms <- go cs' ;;
                   Ok (m :: ms)
               end) children ;;
      Ok (Details (is_open path current_md) depth name ms)
  | mkNode name path false _ =>
      rel_md_path <- PurePath.relative_to path root ;;
      html_href <- PurePath.with_suffix rel_md_path ".html" ;;
      active <- is_active rel_md_path current_md root ;;
      Ok (Link (PurePath.as_posix html_href) active depth name)
  end.

(** The observations of a rendering, in document order. *)

(** The disclosure state of every collapsible container. *)
Fixpoint m_opens (m : markup) : list bool :=
  match m with
  | Details open _ _ children => open :: flat_map m_opens children
  | Link _ _ _ _ => []
  end.

(** The target and the active marker of every link. *)
Fixpoint m_links (m : markup) : list (string * bool) :=
  match m with
  | Details _ _ _ children => flat_map m_links children
  | Link href active _ _ => [(href, active)]
  end.

(** The depth that the indentation of every element is computed from. *)
Fixpoint m_depths (m : markup) : list nat :=
  match m with
  | Details _ depth _ children => depth :: flat_map m_depths children
  | Link _ _ depth _ => [depth]
  end.

(** The label of every element. *)
Fixpoint m_names (m : markup) : list string :=
  match m with
  | Details _ _ name children => name :: flat_map m_names children
  | Link _ _ _ name => [name]
  end.

(** The markup with its indentation erased. *)
Fixpoint erase_depth (m : markup) : markup :=
  match m with
  | Details open _ name children => Details open 0 name (map erase_depth children)
  | Link href active _ name => Link href active 0 name
  end.

(** The nodes of a tree, in the order of the rendering. *)

Fixpoint dir_paths (node : Node) : list Path :=
  match node with
  | mkNode _ path true children => path :: flat_map dir_paths children
  | mkNode _ _ false _ => []
  end.

Fixpoint doc_paths (node : Node) : list Path :=
  match node with
  | mkNode _ _ true children => flat_map doc_paths children
  | mkNode _ path false _ => [path]
  end.

Fixpoint node_names (node : Node) : list string :=
  match node with
  | mkNode name _ true children => name :: flat_map node_names children
  | mkNode name _ false _ => [name]
  end.

(* ------------------------------------------------------------------ *)
(** ** Markdown to HTML with copy buttons

    [re.sub] with the pattern [<pre><code[\s\S]*?</code></pre>] rewrites the
    leftmost matches that do not overlap; a match starts with the opening
    text and, the middle being lazy, ends with the first closing text after
    it. *)

Definition COPY_BTN : string :=
  "<button class=" ++ Str.q ++ "copy-btn" ++ Str.q ++ " onclick=" ++ Str.q
  ++ "copyCode(this)" ++ Str.q ++ ">Copy</button>".

Definition PRE_OPEN : string := "<pre><code".
Definition PRE_CLOSE : string := "</code></pre>".

(** The length of the shortest prefix of [s] that ends with the closing
    text. *)
Fixpoint find_close (s : string) : option nat :=
  match s with
  | EmptyString => None
  | String _ s' =>
      if prefix PRE_CLOSE s then Some (String.length PRE_CLOSE)
      else option_map S (find_close s')
  end.

(** The length of the match of the pattern at the start of [s]. *)
Definition match_len (s : string) : option nat :=
  if prefix PRE_OPEN s
  then option_map (fun n => String.length PRE_OPEN + n)
                  (find_close (Str.drop (String.length PRE_OPEN) s))
  else None.

(** [re.sub(pattern, _inject, s)]: [skip] counts the characters of the
    current match that are still to be copied. *)
Fixpoint inject_from (skip : nat) (s : string) : string :=
  match s with
  | EmptyString => EmptyString
  | String c s' =>
      match skip with
      | S k => String c (inject_from k s')
      | O =>
          match match_len s with
          | Some n => COPY_BTN ++ String c (inject_from (n - 1) s')
          | None => String c (inject_from 0 s')
          end
      end
  end.

Definition inject_copy_buttons (html : string) : string := inject_from 0 html.

(* ------------------------------------------------------------------ *)
(** ** The title of a page

    [re.search] with the pattern [<h[1-3][^>]*>(.*?)</h[1-3]>]: the leftmost
    position where the pattern matches; a dot matches any character but a
    line feed. *)

Definition is_h_level (c : ascii) : bool :=
  Ascii.eqb c "1" || Ascii.eqb c "2" || Ascii.eqb c "3".

(** [[^>]*>]: the text after the first [>]. *)
Fixpoint after_gt (s : string) : option string :=
  match s with
  | EmptyString => None
  | String c s' => if Ascii.eqb c ">" then Some s' else after_gt s'
  end.

(** [</h[1-3]>] at the start of [s]. *)
Definition closing_tag (s : string) : bool :=
  match s with
  | String c1 (String c2 (String c3 (String d (String c5 _)))) =>
      Ascii.eqb c1 "<" && Ascii.eqb c2 "/" && Ascii.eqb c3 "h"
      && is_h_level d && Ascii.eqb c5 ">"
  | _ => false
  end.

(** [(.*?)</h[1-3]>]: the group is the text before the first closing tag,
    and there is no match when a line feed comes first. *)
Fixpoint lazy_group (s : string) : option string :=
  match s with
  | EmptyString => None
  | String c s' =>
      if closing_tag s then Some EmptyString
      else if Ascii.eqb c Str.LF then None
      else option_map (String c) (lazy_group s')
  end.

(** The group of the match of the whole pattern at the start of [s]. *)
Definition match_heading (s : string) : option string :=
  match s with
  | String c1 (String c2 (String d s')) =>
      if Ascii.eqb c1 "<" && Ascii.eqb c2 "h" && is_h_level d
      then match after_gt s' with
           | Some r => lazy_group r
           | None => None
           end
      else None
  | _ => None
  end.

Fixpoint extract_title (html : string) : option string :=
  match match_heading html with
  | Some g => Some g
  | None =>
      match html with
      | EmptyString => None
      | String _ s' => extract_title s'
      end
  end.

(** [extract_title(body_html) or md_path.stem]: an empty string counts as
    false. *)
Definition page_title (body_html : string) (stem : string) : string :=
  match extract_title body_html with
  | Some t => if String.eqb t EmptyString then stem else t
  | None => stem
  end.

(* ------------------------------------------------------------------ *)
(** ** The page template and [str.format]

    The sign on the menu button of the template is a code point above 255;
    it stands here as the three bytes of its UTF-8 encoding, the form in
    which [write_text] writes it.  No property depends on it. *)

Inductive piece : Type :=
| Lit (text : string)
| Field (name : string).

Definition TEMPLATE : list piece :=
  [
    Lit (Str.lines [
       "<!doctype html>";
       "<html lang=" ++ Str.q ++ "en" ++ Str.q ++ ">";
       "<head>";
       "  <meta charset=" ++ Str.q ++ "utf-8" ++ Str.q ++ "/>";
       "  <meta name=" ++ Str.q ++ "viewport" ++ Str.q ++ " content=" ++ Str.q ++ "width=device-width,initial-scale=1" ++ Str.q ++ "/>";
       "  <base href=" ++ Str.q]);
    Field "base_href";
    Lit (Str.lines [
       Str.q ++ "/>";
       "  <title>"]);
    Field "title";
    Lit (Str.lines [
       "</title>";
       "  <link rel=" ++ Str.q ++ "icon" ++ Str.q ++ " href=" ++ Str.q ++ "favicon.ico" ++ Str.q ++ " type=" ++ Str.q ++ "image/x-icon" ++ Str.q ++ ">";
       "  <link rel=" ++ Str.q ++ "manifest" ++ Str.q ++ " href=" ++ Str.q ++ "manifest.json" ++ Str.q ++ " />";
       "  <link rel=" ++ Str.q ++ "stylesheet" ++ Str.q ++ " href=" ++ Str.q ++ "static/style.css" ++ Str.q ++ "/>";
       "</head>";
       "<body>";
       "  <button class=" ++ Str.q ++ "menu-btn" ++ Str.q ++ " onclick=" ++ Str.q ++ "toggleNav()" ++ Str.q ++ ">☰</button>";
       "  <div class=" ++ Str.q ++ "layout" ++ Str.q ++ ">";
       "    <nav class=" ++ Str.q ++ "sidebar" ++ Str.q ++ ">";
       "      "]);
    Field "nav";
    Lit (Str.lines [
       EmptyString;
       "    </nav>";
       "    <main>";
       "      "]);
    Field "body";
    Lit (Str.lines [
       EmptyString;
       "    </main>";
       "  </div>";
       "  <script>";
       "    function copyCode(btn) {";
       "      const code = btn.nextElementSibling.innerText;";
       "      navigator.clipboard.writeText(code).then(() => {";
       "        btn.textContent = 'Copied!';";
       "        setTimeout(() => btn.textContent = 'Copy', 2000);";
       "        ";
       "      });";
       "    }";
       EmptyString;
       "    function toggleNav() {";
       "      const sidebar = document.querySelector('.sidebar');";
       "      sidebar.classList.toggle('open');";
       "    }";
       EmptyString;
       "    document.addEventListener('DOMContentLoaded', () => {";
       "      const sidebar = document.querySelector('.sidebar');";
       "      sidebar.addEventListener('click', (e) => {";
       "        if (e.target.tagName === 'A') {";
       "          sidebar.classList.remove('open');";
       "        }";
       "      });";
       "    });";
       "  </script>";
       "</body>";
       "</html>"])
  ].

(** [TEMPLATE.format(...)]: the value of a field is pasted as it is. *)
Definition format (t : list piece) (fields : string -> string) : string :=
  String.concat EmptyString
    (map (fun p => match p with Lit text => text | Field f => fields f end) t).

Definition page_fields (title nav body base_href : string) (f : string) : string :=
  if String.eqb f "title" then title
  else if String.eqb f "nav" then nav
  else if String.eqb f "body" then body
  else if String.eqb f "base_href" then base_href
  else EmptyString.

(* ------------------------------------------------------------------ *)
(** ** Site generation

    Every run makes the output directory anew.  The run is modelled by the
    sequence of the files it has written below the output directory: the
    [write_text] and [shutil.copy2] calls, in the order of the source, with
    paths relative to the output directory.  The directories of the output
    are those that the run has made, the leading parts of the paths written
    so far.  The messages printed are left out.  The source directory, the
    global assets and the output directory are taken to be apart, and the
    output directory to be writable. *)

Inductive op : Type :=
| WriteText (dest : Path) (data : string)
| Copy2 (src : Path) (dest : Path).

Definition op_dest (o : op) : Path :=
  match o with
  | WriteText dest _ | Copy2 _ dest => dest
  end.

Definition ASSETS_DIR : Path := ["assets"].

(** [".." + "/"] repeated, or the same-directory reference. *)
Definition base_href_of (depth : nat) : string :=
  if (0 <? depth)%nat then Str.repeat "../" depth else "./".

Definition redirect_page (url : string) : string :=
  "<meta http-equiv=" ++ Str.q ++ "refresh" ++ Str.q ++ " content=" ++ Str.q
  ++ "0; url=" ++ url ++ Str.q ++ ">".

Section Output.

(** Whether the file system of the output directory takes names that
    differ only in the case of letters for one name. *)
Variable fold_case : bool.

Definition fold_name (nm : string) : string :=
  if fold_case then Str.lower nm else nm.

Definition fs_key (p : Path) : Path := map fold_name p.

(** The two paths are one place of the output. *)
Definition same_file (p q : Path) : bool := PurePath.eqb (fs_key p) (fs_key q).

(** The place [d] is a proper leading part of the place [p]. *)
Definition above (d p : Path) : bool :=
  PurePath.is_relative_to (fs_key p) (fs_key d) && negb (same_file p d).

(** [p.is_dir()] for a place of the output: a file was written below it. *)
Definition out_is_dir (log : list op) (p : Path) : bool :=
  existsb (fun o => above p (op_dest o)) log.

(** A file of the output lies on the way to the place [p]: at a leading
    part of it or at the place itself. *)
Definition file_on_path (log : list op) (p : Path) : bool :=
  existsb (fun o => PurePath.is_relative_to (fs_key p) (fs_key (op_dest o))) log.

(** [d.mkdir(parents=True, exist_ok=True)]: [os.mkdir] raises
    [FileExistsError] when a file is at the place and [NotADirectoryError]
    when one is above it, and [exist_ok] passes over directories only. *)
Definition mkdir_parents (log : list op) (d : Path) : result unit :=
  if file_on_path log d then Raise OSError else Ok tt.

(** [dest.write_text(data)]: opening a directory raises
    [IsADirectoryError]; a file at the place is written over. *)
Definition write_text (log : list op) (dest : Path) (data : string)
  : result (list op) :=
  if out_is_dir log dest then Raise OSError
  else Ok (log ++ [WriteText dest data])%list.

(** [shutil.copy2(src, dest)]: when [dest] is a directory the copy goes
    into it, under the name of the source. *)
Definition copy2 (log : list op) (src dest : Path) : result (list op) :=
  let dst := if out_is_dir log dest
             then PurePath.joinpath dest (PurePath.name src) else dest in
  if out_is_dir log dst then Raise OSError
  else Ok (log ++ [Copy2 src dst])%list.

Definition run_op (log : list op) (o : op) : result (list op) :=
  match o with
  | WriteText dest data => write_text log dest data
  | Copy2 src dest => copy2 log src dest
  end.

End Output.

Section Site.

(** The collaborators that are not part of the repository: the text that
    [Markdown.convert] returns for a document (after the rewriting of the
    Jekyll highlight blocks, which only feeds the converter) and the style
    sheet of the Pygments formatter.  [BASE_CSS] is the fixed style sheet
    of the source; no property below depends on its text. *)
Variable convert : string -> string.
Variable pygments_css : string.
Variable BASE_CSS : string.

(** Whether the platform matches file names case-sensitively (POSIX) or
    not (Windows). *)
Variable case_sensitive : bool.

(** Whether the file system of the output directory folds the case of
    names. *)
Variable fold_case : bool.

Definition md_to_html (text : string) : string :=
  inject_copy_buttons (convert text).

(** The page of a document: lines 402 to 417 of the loop over the
    documents, the making of the directory apart. *)
Definition write_page (input_dir : Path) (tree : Node) (md : Path * entry)
  : result op :=
  let md_path := fst md in
  rel_md <- PurePath.relative_to md_path input_dir ;;
  html_out <- PurePath.with_suffix rel_md ".html" ;;
  let depth := PurePath.len_parts rel_md - 1 in
  let base_href := base_href_of depth in
  text <- read_text (snd md) ;;
  let body_html := md_to_html text in
  let title := page_title body_html (PurePath.stem md_path) in
  nav <- nav_html tree md_path input_dir ;;
  Ok (WriteText html_out
        (format TEMPLATE (page_fields title nav body_html base_href))).

(** One turn of the loop over the documents, on the output written so
    far: the directory of the page is made before the document is read, and
    the page is written last. *)
Definition page_step (input_dir : Path) (tree : Node) (log : list op)
  (md : Path * entry) : result (list op) :=
  rel_md <- PurePath.relative_to (fst md) input_dir ;;
  html_out <- PurePath.with_suffix rel_md ".html" ;;
  _ <- mkdir_parents fold_case log (PurePath.parent html_out) ;;
  page <- write_page input_dir tree md ;;
  run_op fold_case log page.

(** One turn of the loop over the other files of the source directory. *)
Definition copy_asset (input_dir : Path) (log : list op) (asset : Path * entry)
  : result (list op) :=
  if is_file (snd asset)
     && negb (String.eqb (Str.lower (PurePath.suffix (fst asset))) ".md")
  then dest <- PurePath.relative_to (fst asset) input_dir ;;
       _ <- mkdir_parents fold_case log (PurePath.parent dest) ;;
       copy2 fold_case log (fst asset) dest
  else Ok log.

(** One turn of the loop over the global assets. *)
Definition copy_global (log : list op) (asset : Path * entry)
  : result (list op) :=
  if is_file (snd asset)
  then dest <- PurePath.relative_to (fst asset) ASSETS_DIR ;;
       _ <- mkdir_parents fold_case log (PurePath.parent dest) ;;
       copy2 fold_case log (fst asset) dest
  else Ok log.

(** The redirect page for the first document of the scan, if any. *)
Definition write_index (input_dir : Path) (entries : list entry)
  (log : list op) : result (list op) :=
  match rglob (fnmatch_md case_sensitive) input_dir entries with
  | first_page :: _ =>
      rel <- PurePath.relative_to (fst first_page) input_dir ;;
      first_html <- PurePath.with_suffix rel ".html" ;;
      write_text fold_case log ["index.html"]
        (redirect_page (PurePath.as_posix first_html))
  | [] => Ok log
  end.

(** [generate_site(input_dir, output_dir)], on the entries of the source
    directory and, when the global assets directory exists, its entries:
    the files written, in the order of the run. *)
Definition generate_site (input_dir : Path) (entries : list entry)
  (assets : option (list entry)) : result (list op) :=
  let css := WriteText ["static"; "style.css"] (BASE_CSS ++ Str.nl ++ pygments_css) in
  let tree := build_tree input_dir entries in
  log <- foldM (page_step input_dir tree) [css]
               (rglob (fnmatch_md case_sensitive) input_dir entries) ;;
  log <- foldM (copy_asset input_dir) log (rglob fnmatch_any input_dir entries) ;;
  log <- match assets with
         | Some a => foldM copy_global log (rglob fnmatch_any ASSETS_DIR a)
         | None => Ok log
         end ;;
  write_index input_dir entries log.

End Site.


(* ------------------------------------------------------------------ *)
(** ** Induction principles and the notions the properties are stated with *)

Open Scope list_scope.

(* ------------------------------------------------------------------ *)
(** ** Induction on trees *)

Section NodeInd.
Variable P : Node -> Prop.
Hypothesis H : forall name path is_dir children,
    Forall P children -> P (mkNode name path is_dir children).

Fixpoint Node_ind (n : Node) : P n :=
  match n with
  | mkNode name path is_dir children =>
      H name path is_dir children
        ((fix all (cs : list Node) : Forall P cs :=
            match cs with
            | [] => Forall_nil P
            | c :: cs' => Forall_cons c (Node_ind c) (all cs')
            end) children)
  end.
End NodeInd.

Section EntryInd.
Variable P : entry -> Prop.
Hypothesis HFile : forall name text, P (File name text).
Hypothesis HSpecial : forall name, P (Special name).
Hypothesis HDir : forall name entries, Forall P entries -> P (Dir name entries).
Hypothesis HBinary : forall name, P (Binary name).
Hypothesis HDevice : forall name text, P (Device name text).
Hypothesis HLinkDir :
  forall name entries, Forall P entries -> P (LinkDir name entries).

Fixpoint entry_ind (e : entry) : P e :=
  match e with
  | File name text => HFile name text
  | Special name => HSpecial name
  | Binary name => HBinary name
  | Device name text => HDevice name text
  | Dir name entries =>
      HDir name entries
        ((fix all (es : list entry) : Forall P es :=
            match es with
            | [] => Forall_nil P
            | c :: es' => Forall_cons c (entry_ind c) (all es')
            end) entries)
  | LinkDir name entries =>
      HLinkDir name entries
        ((fix all (es : list entry) : Forall P es :=
            match es with
            | [] => Forall_nil P
            | c :: es' => Forall_cons c (entry_ind c) (all es')
            end) entries)
  end.
End EntryInd.

(** Induction on the structure of a rendering. *)

Section MarkupInd.
Variable P : markup -> Prop.
Hypothesis HDetails : forall open depth name children,
    Forall P children -> P (Details open depth name children).
Hypothesis HLink : forall href active depth name, P (Link href active depth name).

Fixpoint markup_ind (m : markup) : P m :=
  match m with
  | Details open depth name children =>
      HDetails open depth name children
        ((fix all (ms : list markup) : Forall P ms :=
            match ms with
            | [] => Forall_nil P
            | c :: ms' => Forall_cons c (markup_ind c) (all ms')
            end) children)
  | Link href active depth name => HLink href active depth name
  end.
End MarkupInd.

(* ------------------------------------------------------------------ *)
(** ** What a rendering shows of a tree *)

(** The nesting level of every node, in the order of the rendering. *)
Fixpoint levels (node : Node) : list nat :=
  match node with
  | mkNode _ _ true children => 0 :: map S (flat_map levels children)
  | mkNode _ _ false _ => [0]
  end.

(** The path of a document below the root. *)
Definition rel_of (root p : Path) : Path := skipn (List.length root) p.

(** A document node that [render_nav] accepts: its path lies under the
    root and has a name of its own. *)
Definition doc_ok (root p : Path) : bool :=
  PurePath.is_relative_to p root
  && negb (String.eqb (PurePath.name (rel_of root p)) EmptyString).

Definition docs_under (root : Path) (node : Node) : bool :=
  forallb (doc_ok root) (doc_paths node).

Definition cur_under (root : Path) (current_md : option Path) : bool :=
  match current_md with
  | Some cur => PurePath.is_relative_to cur root
  | None => true
  end.

(** The target of the link of the document at [p]. *)
Definition href_of (root p : Path) : string :=
  let rel := rel_of root p in
  PurePath.as_posix
    (PurePath.joinpath (PurePath.parent rel) (PurePath.stem rel ++ ".html")%string).

(** Whether the link of the document at [p] is the active one. *)
Definition active_of (root : Path) (current_md : option Path) (p : Path) : bool :=
  match current_md with
  | Some cur => PurePath.eqb (rel_of root p) (rel_of root cur)
  | None => false
  end.

Definition link_of (root : Path) (current_md : option Path) (p : Path)
  : string * bool :=
  (href_of root p, active_of root current_md p).


(** The structure of the rendering of a tree whose documents lie under the
    root: its observations are those of the nodes of the tree. *)
Record shows (root : Path) (current_md : option Path) (depth : nat)
  (node : Node) (m : markup) : Prop := {
  shows_opens : m_opens m = map (fun p => is_open p current_md) (dir_paths node);
  shows_links : m_links m = map (link_of root current_md) (doc_paths node);
  shows_depths : m_depths m = map (Nat.add depth) (levels node);
  shows_names : m_names m = node_names node
}.

(* ------------------------------------------------------------------ *)
(** ** Directories without repeated names, and the trees that mirror them *)

Fixpoint distinct (l : list string) : bool :=
  match l with
  | [] => true
  | x :: l' => negb (existsb (String.eqb x) l') && distinct l'
  end.

Fixpoint entry_unique (e : entry) : bool :=
  match e with
  | Dir _ sub | LinkDir _ sub =>
      distinct (map entry_name sub) && forallb entry_unique sub
  | _ => true
  end.

Definition unique_names (entries : list entry) : bool :=
  distinct (map entry_name entries) && forallb entry_unique entries.

Inductive well_formed : Node -> Prop :=
| wf_doc name path cs : well_formed (mkNode name path false cs)
| wf_dir name path cs :
    Forall well_formed cs ->
    Forall (fun c => exists nm, node_path c = path ++ [nm]) cs ->
    NoDup (map node_path cs) ->
    well_formed (mkNode name path true cs).


(* ------------------------------------------------------------------ *)
(** ** The open branch and the active link of a rendering *)

(** The element holds the active link. *)
Fixpoint has_active (m : markup) : bool :=
  match m with
  | Details _ _ _ children => existsb has_active children
  | Link _ active _ _ => active
  end.

(** Every container of the element is open exactly when it holds the
    active link. *)
Fixpoint branch_ok (m : markup) : bool :=
  match m with
  | Details open _ _ children =>
      Bool.eqb open (existsb has_active children) && forallb branch_ok children
  | Link _ _ _ _ => true
  end.


(** The markup with every depth raised by [d]. *)
Fixpoint shift (d : nat) (m : markup) : markup :=
  match m with
  | Details open depth name children =>
      Details open (d + depth) name (map (shift d) children)
  | Link href active depth name => Link href active (d + depth) name
  end.

(* ------------------------------------------------------------------ *)
(** ** A sample directory *)

Definition demo_entries : list entry :=
  [ File "intro.md" "# Intro";
    Dir "a" [ Dir "b" [ Dir "c" [ File "doc.md" "text" ]; File "notes.md" "" ];
              Dir "x" [] ];
    Dir "side" [ File "other.md" "" ] ].

Definition demo_root : Path := ["content"].
Definition demo_cur : Path := ["content"; "a"; "b"; "c"; "doc.md"].


Open Scope string_scope.

(** The pieces of the page around the title. *)
Definition page_before_title (base_href : string) : string :=
  Str.lines [
    "<!doctype html>";
    "<html lang=" ++ Str.q ++ "en" ++ Str.q ++ ">";
    "<head>";
    "  <meta charset=" ++ Str.q ++ "utf-8" ++ Str.q ++ "/>";
    "  <meta name=" ++ Str.q ++ "viewport" ++ Str.q ++ " content=" ++ Str.q
      ++ "width=device-width,initial-scale=1" ++ Str.q ++ "/>";
    "  <base href=" ++ Str.q ++ base_href ++ Str.q ++ "/>";
    "  "].

(* ------------------------------------------------------------------ *)
(** ** Links *)

(** The name of the page of a document: its stem and the new suffix, as
    [with_suffix] builds it. *)
Definition html_name (nm : string) : string := PurePath.stem_of nm ++ ".html".

(* ------------------------------------------------------------------ *)
(** ** The order of the children of a node *)

(** The nodes are in the case-insensitive order of the text [f] gives. *)
Definition sorted_by (f : Node -> string) (l : list Node) : Prop :=
  StronglySorted
    (fun a b => String.leb (Str.lower (f a)) (Str.lower (f b)) = true) l.

(** The file name of the entry of a node. *)
Definition node_file_name (n : Node) : string := PurePath.name (node_path n).

(** Directories first, then documents, each group in the order of [f]. *)
Definition dirs_then_docs (f : Node -> string) (cs : list Node) : Prop :=
  exists dirs docs,
    cs = (dirs ++ docs)%list
    /\ Forall (fun n => node_is_dir n = true) dirs
    /\ Forall (fun n => node_is_dir n = false) docs
    /\ sorted_by node_name dirs
    /\ sorted_by f docs.

(** Every entry with the document extension is a regular file or a
    directory. *)
Definition md_regular (entries : list entry) : bool :=
  forallb (fun e => is_dir e || is_file e || negb (is_md (entry_name e))) entries.

Definition mixed_entries : list entry :=
  [ File "b.md" "";
    Dir "Zeta" [ File "n.md" "" ];
    File "a-b.md" "";
    File "a.md" "";
    File "logo.png" "";
    Dir "alpha" [] ].

(** A listing with names beyond ASCII: a capital E with an acute accent
    (code point 201), [z], and a small e with a grave accent (232). *)
Definition latin1_entries : list entry :=
  [ File (String (ascii_of_nat 201) ".md") "";
    File "z.md" "";
    File (String (ascii_of_nat 232) ".md") "" ].

(* ------------------------------------------------------------------ *)
(** ** Bodies with code blocks *)

(** [pat in s] *)
Fixpoint contains (pat s : string) : bool :=
  match s with
  | EmptyString => prefix pat EmptyString
  | String _ s' => prefix pat s || contains pat s'
  end.

(** The pattern of the copy buttons matches somewhere in [s]. *)
Fixpoint has_block (s : string) : bool :=
  match s with
  | EmptyString => false
  | String _ s' =>
      match match_len s with
      | Some _ => true
      | None => has_block s'
      end
  end.

(** A code block element with the text [inner] after its opening text. *)
Definition code_block (inner : string) : string :=
  PRE_OPEN ++ inner ++ PRE_CLOSE.

(** A body: code blocks, each after some text, and the text after the last
    one. *)
Fixpoint body_of (blocks : list (string * string)) (rest : string) : string :=
  match blocks with
  | [] => rest
  | (text, inner) :: blocks' => text ++ code_block inner ++ body_of blocks' rest
  end.

(** The body with a copy button right before every code block. *)
Fixpoint with_buttons (blocks : list (string * string)) (rest : string) : string :=
  match blocks with
  | [] => rest
  | (text, inner) :: blocks' =>
      text ++ COPY_BTN ++ code_block inner ++ with_buttons blocks' rest
  end.

(** The parts are those of the body: no text before a block holds the
    opening text of a block, no block holds the closing text inside, and the
    text after the last block holds no block. *)
Definition body_parts (blocks : list (string * string)) (rest : string) : bool :=
  forallb (fun b => negb (contains PRE_OPEN (fst b)) && negb (contains PRE_CLOSE (snd b)))
          blocks
  && negb (has_block rest).

(* ------------------------------------------------------------------ *)
(** ** Bodies with a heading *)

(** A heading element: an opening tag of a level with attributes, a text,
    a closing tag of a level. *)
Definition heading (d : ascii) (attrs inner : string) (d' : ascii) : string :=
  "<h" ++ String d attrs ++ ">" ++ inner ++ "</h" ++ String d' ">".

(** No [>] in the text. *)
Fixpoint no_gt (s : string) : bool :=
  match s with
  | EmptyString => true
  | String c s' => negb (Ascii.eqb c ">") && no_gt s'
  end.

(** No line feed in the text. *)
Fixpoint one_line (s : string) : bool :=
  match s with
  | EmptyString => true
  | String c s' => negb (Ascii.eqb c Str.LF) && one_line s'
  end.

(** A closing tag of a heading starts in the text. *)
Fixpoint has_closing (s : string) : bool :=
  match s with
  | EmptyString => false
  | String _ s' => closing_tag s || has_closing s'
  end.

(** The pattern of the title matches at no position of [pre] in the text
    [pre ++ rest]. *)
Fixpoint no_earlier (pre rest : string) : bool :=
  match pre with
  | EmptyString => true
  | String _ pre' =>
      match match_heading (pre ++ rest) with
      | Some _ => false
      | None => no_earlier pre' rest
      end
  end.

(** The opening of a heading tag, [<h1], [<h2] or [<h3], at the start of
    the text, and somewhere in the text. *)
Definition heading_opening (s : string) : bool :=
  match s with
  | String c1 (String c2 (String d _)) =>
      Ascii.eqb c1 "<" && Ascii.eqb c2 "h" && is_h_level d
  | _ => false
  end.

Fixpoint has_opening (s : string) : bool :=
  match s with
  | EmptyString => false
  | String _ s' => heading_opening s || has_opening s'
  end.

(** C6 as it is stated: the title is the text of the first heading when
    there is one, and the stem of the file name otherwise. *)
Definition title_of_first_heading : Prop :=
  forall body stem,
    match extract_title body with
    | Some t => page_title body stem = t
    | None => page_title body stem = stem
    end.

(* ------------------------------------------------------------------ *)
(** ** The files of a run *)





(* ------------------------------------------------------------------ *)
(** ** Tactics *)

(** One step of a comparison with a pattern that starts with a known
    character. *)
Ltac step_prefix :=
  match goal with
  | H : context [ascii_dec ?a ?b] |- _ =>
      destruct (ascii_dec a b); [subst|try discriminate; try reflexivity]
  | |- context [ascii_dec ?a ?b] =>
      destruct (ascii_dec a b); [subst|try discriminate; try reflexivity]
  end.

(** The cases of the tests on the characters of a text. *)
Ltac case_chars :=
  repeat match goal with
    | |- context [Ascii.eqb ?c _] => is_var c; destruct (Ascii.eqb c _)
    | |- context [is_h_level ?c] => is_var c; destruct (is_h_level c)
    end.

(* ------------------------------------------------------------------ *)
(** ** The entries of a directory tree

    [entry_at entries rel e]: following the names of [rel] from the listing
    [entries] through subdirectories, also those behind symbolic links, ends
    at the entry [e].  [scan_at entries rel e]: the same through the
    directories that [rglob] descends into. *)

Inductive entry_at : list entry -> Path -> entry -> Prop :=
| at_here (entries : list entry) (e : entry) :
    In e entries -> entry_at entries [entry_name e] e
| at_below (entries : list entry) (d : entry) (rel : Path) (e : entry) :
    In d entries -> is_dir d = true -> entry_at (dir_entries d) rel e ->
    entry_at entries (entry_name d :: rel) e.

Inductive scan_at : list entry -> Path -> entry -> Prop :=
| scan_here (entries : list entry) (e : entry) :
    In e entries -> scan_at entries [entry_name e] e
| scan_below (entries : list entry) (nm : string) (sub : list entry)
    (rel : Path) (e : entry) :
    In (Dir nm sub) entries -> scan_at sub rel e ->
    scan_at entries (nm :: rel) e.

(** An entry that the tree builder makes a document node of. *)
Definition is_document (e : entry) : bool :=
  negb (is_dir e) && is_md (entry_name e).

(** A directory tree for the examples: an empty directory, and assets and
    documents at three levels. *)
Definition site_entries : list entry :=
  [ File "intro.md" "# Intro";
    File "logo.png" "png";
    Dir "empty" [];
    Dir "guide" [ File "setup.md" "no heading"; File "shot.png" "png";
                  Dir "deep" [ File "more.md" "## More" ] ] ].

(** An entry that adds no node to the tree: a file (or special entry)
    without the document extension. *)
Definition is_asset_entry (e : entry) : bool :=
  negb (is_dir e) && negb (is_md (entry_name e)).

(* ------------------------------------------------------------------ *)
(** ** The files of a run, in closed form *)

(** The place of the page of the document at [md_path]: the path below the
    source directory with the suffix replaced. *)
Definition page_dest (input_dir md_path : Path) : Path :=
  let rel := rel_of input_dir md_path in
  PurePath.joinpath (PurePath.parent rel) (PurePath.stem rel ++ ".html").












(* ------------------------------------------------------------------ *)
(** ** The Jekyll highlight blocks

    [md_to_html] first rewrites the text that it hands to the converter:
    [re.sub(r'{%\s*highlight\s+(\w+)\s*%}(.*?){%\s*endhighlight\s*%}',
    r'```\1\2```', text, flags=re.DOTALL)].  The greedy repetitions of the pattern
    are followed by a character outside their class, so a match takes all
    the characters of the class; the lazy group ends at the first closing
    tag, and with [DOTALL] it runs over line feeds. *)

Open Scope string_scope.

(** [\s]: the characters 9 to 13, 28 to 31, the space, the next-line
    character 133 and the no-break space 160. *)
Definition is_space (c : ascii) : bool :=
  let n := nat_of_ascii c in
  ((9 <=? n) && (n <=? 13) || (28 <=? n) && (n <=? 32)
   || (n =? 133) || (n =? 160))%nat.

(** [\w]: the underscore and the characters that [str.isalnum] accepts:
    digits and letters of ASCII, and of Latin-1 the ordinal indicators 170
    and 186, the superscripts 178, 179 and 185, the micro sign 181, the
    fractions 188 to 190 and the letters 192 to 255 but for the signs 215
    and 247. *)
Definition is_word (c : ascii) : bool :=
  let n := nat_of_ascii c in
  ((48 <=? n) && (n <=? 57) || (65 <=? n) && (n <=? 90)
   || (97 <=? n) && (n <=? 122) || (n =? 95)
   || (n =? 170) || (n =? 186) || (n =? 178) || (n =? 179) || (n =? 185)
   || (n =? 181) || (188 <=? n) && (n <=? 190)
   || (192 <=? n) && negb (n =? 215) && negb (n =? 247))%nat.

Fixpoint all_chars (f : ascii -> bool) (s : string) : bool :=
  match s with
  | EmptyString => true
  | String c s' => f c && all_chars f s'
  end.

(** The text after the literal [p] at the start of [s]. *)
Fixpoint strip_prefix (p s : string) : option string :=
  match p with
  | EmptyString => Some s
  | String a p' =>
      match s with
      | String b s' => if Ascii.eqb a b then strip_prefix p' s' else None
      | EmptyString => None
      end
  end.

(** [\s*]: the text after the leading white space. *)
Fixpoint skip_spaces (s : string) : string :=
  match s with
  | String c s' => if is_space c then skip_spaces s' else s
  | EmptyString => EmptyString
  end.

(** The group of [\w]: the leading word characters and the text after
    them. *)
Fixpoint take_word (s : string) : string * string :=
  match s with
  | String c s' =>
      if is_word c
      then let (w, r) := take_word s' in (String c w, r)
      else (EmptyString, s)
  | EmptyString => (EmptyString, EmptyString)
  end.

(** [{%\s*highlight\s+(\w+)\s*%}] at the start of [s]: the language and the
    text after the tag. *)
Definition match_open (s : string) : option (string * string) :=
  match strip_prefix "{%" s with
  | Some r1 =>
      match strip_prefix "highlight" (skip_spaces r1) with
      | Some (String c r2) =>
          if is_space c
          then let (lang, r3) := take_word (skip_spaces r2) in
               match lang with
               | EmptyString => None
               | _ =>
                   match strip_prefix "%}" (skip_spaces r3) with
                   | Some r4 => Some (lang, r4)
                   | None => None
                   end
               end
          else None
      | _ => None
      end
  | None => None
  end.

(** [{%\s*endhighlight\s*%}] at the start of [s]: the text after the tag. *)
Definition match_close (s : string) : option string :=
  match strip_prefix "{%" s with
  | Some r1 =>
      match strip_prefix "endhighlight" (skip_spaces r1) with
      | Some r2 => strip_prefix "%}" (skip_spaces r2)
      | None => None
      end
  | None => None
  end.

(** [(.*?){%\s*endhighlight\s*%}]: the text before the first closing tag
    and the text after that tag. *)
Fixpoint find_end (s : string) : option (string * string) :=
  match match_close s with
  | Some r => Some (EmptyString, r)
  | None =>
      match s with
      | EmptyString => None
      | String c s' =>
          match find_end s' with
          | Some (code, r) => Some (String c code, r)
          | None => None
          end
      end
  end.

Definition FENCE : string := "```".

(** The whole pattern at the start of [s]: the replacement of the match and
    the text after the match. *)
Definition match_block (s : string) : option (string * string) :=
  match match_open s with
  | Some (lang, r) =>
      match find_end r with
      | Some (code, r') => Some (FENCE ++ lang ++ code ++ FENCE, r')
      | None => None
      end
  | None => None
  end.

(** [re.sub]: [skip] counts the characters of the current match that are
    still to be passed over. *)
Fixpoint sub_from (skip : nat) (s : string) : string :=
  match s with
  | EmptyString => EmptyString
  | String c s' =>
      match skip with
      | S k => sub_from k s'
      | O =>
          match match_block s with
          | Some (repl, rest) =>
              repl ++ sub_from (String.length s' - String.length rest) s'
          | None => String c (sub_from 0 s')
          end
      end
  end.

Definition highlight_to_fence (text : string) : string := sub_from 0 text.

(** A highlight block: the opening tag with its white space and language,
    the code, the closing tag with its white space. *)
Definition highlight_block (sp1 sp2 lang sp3 code sp4 sp5 : string) : string :=
  "{%" ++ sp1 ++ "highlight" ++ sp2 ++ lang ++ sp3 ++ "%}" ++ code
  ++ "{%" ++ sp4 ++ "endhighlight" ++ sp5 ++ "%}".




(* ------------------------------------------------------------------ *)
(** ** Counting in a text *)

(** The number of places of [s] at which the text [pat] starts. *)
Fixpoint occurrences (pat s : string) : nat :=
  match s with
  | EmptyString => 0
  | String _ s' => (if prefix pat s then 1 else 0) + occurrences pat s'
  end.


(* ------------------------------------------------------------------ *)
(** ** Resolving a relative reference

    How the reader of a page resolves the text of a reference against the
    address of the page (RFC 3986, sections 3, 4.2 and 5.2).  The fragment
    starts at the first number sign and the query at the first question
    mark; a colon in the first segment makes the text before it a scheme,
    and a leading slash makes the path absolute; the segments of a relative
    path are entered from the directory of the base, a dot keeping the
    directory and two dots leaving it for its parent.  This is the reader of
    the links, not a part of the generator.  An address is the list of the
    segments of its path below the host, a directory ending with the empty
    segment. *)

(** The character [c] occurs in [s]. *)
Definition has_char (c : ascii) (s : string) : bool :=
  negb (all_chars (fun a => negb (Ascii.eqb a c)) s).

(** The text before the first [c] and, when [c] occurs, the text after
    it. *)
Fixpoint cut_at (c : ascii) (s : string) : string * option string :=
  match s with
  | EmptyString => (EmptyString, None)
  | String a s' =>
      if Ascii.eqb a c then (EmptyString, Some s')
      else let (h, t) := cut_at c s' in (String a h, t)
  end.

(** The texts between the occurrences of [c]. *)
Fixpoint split_on (c : ascii) (s : string) : list string :=
  match s with
  | EmptyString => [EmptyString]
  | String a s' =>
      if Ascii.eqb a c then EmptyString :: split_on c s'
      else match split_on c s' with
           | h :: t => String a h :: t
           | [] => [String a EmptyString]
           end
  end.

Record reference : Type := mkReference {
  ref_segments : list string;
  ref_query : option string;
  ref_fragment : option string }.

(** The address of a file of the site: no query and no fragment. *)
Definition location (segments : list string) : reference :=
  mkReference segments None None.

(** The parts of a relative-path reference; [None] for a text with a scheme
    or an absolute path. *)
Definition parse_reference (s : string) : option reference :=
  let (s1, fragment) := cut_at "#" s in
  let (path, query) := cut_at "?" s1 in
  let segments := if String.eqb path "" then [] else split_on "/" path in
  let first := hd EmptyString segments in
  if has_char ":" first || (String.eqb first "" && (1 <? List.length segments)%nat)
  then None
  else Some (mkReference segments query fragment).

(** The segments [segs] entered from the directory [out]. *)
Fixpoint remove_dots (out segs : list string) : list string :=
  match segs with
  | [] => out
  | seg :: rest =>
      if String.eqb seg "." then
        match rest with
        | [] => (out ++ [EmptyString])%list
        | _ => remove_dots out rest
        end
      else if String.eqb seg ".." then
        match rest with
        | [] => (removelast out ++ [EmptyString])%list
        | _ => remove_dots (removelast out) rest
        end
      else remove_dots (out ++ [seg])%list rest
  end.

(** The address that the reference [s] names on a page whose base address
    has the path [base]. *)
Definition resolve_reference (base : list string) (s : string) : option reference :=
  match parse_reference s with
  | Some r =>
      Some (mkReference
              (match ref_segments r with
               | [] => base
               | segs => remove_dots (removelast base) segs
               end)
              (ref_query r) (ref_fragment r))
  | None => None
  end.

(** The digits and letters of ASCII. *)
Definition is_alnum (c : ascii) : bool :=
  let n := nat_of_ascii c in
  ((48 <=? n) && (n <=? 57) || (65 <=? n) && (n <=? 90)
   || (97 <=? n) && (n <=? 122))%nat.

(** The characters that stand for themselves in a segment of a path: the
    unreserved characters, the sub-delimiters, the colon and the at sign. *)
Definition pchar (c : ascii) : bool :=
  is_alnum c || has_char c "-._~" || has_char c "!$&'()*+,;=" || has_char c ":@".

Definition hex_digit (n : nat) : ascii :=
  ascii_of_nat (if (n <? 10)%nat then 48 + n else 55 + n).

Definition pct_byte (n : nat) : string :=
  String "%" (String (hex_digit (n / 16)) (String (hex_digit (n mod 16)) EmptyString)).

(** The escape of a character in a segment: the bytes of its UTF-8
    encoding, each as a percent sign and two hexadecimal digits. *)
Definition pct_encode_char (c : ascii) : string :=
  let n := nat_of_ascii c in
  if pchar c then String c EmptyString
  else if (n <? 128)%nat then pct_byte n
  else pct_byte (192 + n / 64) ++ pct_byte (128 + n mod 64).

(** The segment that names the file or directory [nm]. *)
Fixpoint pct_encode (nm : string) : string :=
  match nm with
  | EmptyString => EmptyString
  | String c nm' => pct_encode_char c ++ pct_encode nm'
  end.

(** The address of the file at [p] below the directory of the site at
    [site]. *)
Definition file_location (site : list string) (p : Path) : reference :=
  location (site ++ map pct_encode p)%list.

(** A name that can be written into a reference as it is: it is made of
    characters that stand for themselves, without the colon, which would end
    a scheme, and the ampersand, which starts a character reference in the
    markup, and it is not empty, a dot or two dots. *)
Definition plain_char (c : ascii) : bool :=
  pchar c && negb (has_char c ":&").

Definition plain_name (nm : string) : bool :=
  all_chars plain_char nm
  && negb (String.eqb nm "") && negb (String.eqb nm ".") && negb (String.eqb nm "..").

(** C2 as it is stated: on every page, the link of every document under
    the root names the address of the page of that document. *)
Definition links_resolve : Prop :=
  forall (input_dir : Path) (site : list string) (p : Path),
    doc_ok input_dir p = true ->
    resolve_reference (site ++ [EmptyString])%list (href_of input_dir p)
    = Some (file_location site (page_dest input_dir p)).


(* ================================================================== *)
(** * Properties *)


(* ------------------------------------------------------------------ *)
(** ** The result monad *)

Lemma bind_Ok {A B : Type} (r : result A) (k : A -> result B) (b : B) :
  bind r k = Ok b -> exists a, r = Ok a /\ k a = Ok b.
Proof.
  destruct r as [a|e]; simpl; intros E; [exists a; auto | discriminate].
Qed.

Lemma mapM_ext {A B : Type} (f g : A -> result B) (l : list A) :
  Forall (fun a => f a = g a) l -> mapM f l = mapM g l.
Proof.
  induction 1 as [|a l Ha _ IH]; simpl; [reflexivity|].
  now rewrite Ha, IH.
Qed.

Lemma mapM_bind_map {A B C : Type} (f : A -> result B) (g : B -> C) (l : list A) :
  mapM (fun a => b <- f a ;; Ok (g b)) l = (bs <- mapM f l ;; Ok (map g bs)).
Proof.
  induction l as [|a l IH]; simpl; [reflexivity|].
  rewrite IH. destruct (f a); simpl; [|reflexivity].
  destruct (mapM f l); reflexivity.
Qed.

Lemma mapM_Forall2 {A B : Type} (f : A -> result B) (l : list A) (bs : list B) :
  mapM f l = Ok bs -> Forall2 (fun a b => f a = Ok b) l bs.
Proof.
  revert bs; induction l as [|a l IH]; simpl; intros bs E.
  - inversion E; constructor.
  - destruct (f a) eqn:Ea; simpl in E; [|discriminate].
    destruct (mapM f l) as [bs'|]; simpl in E; [|discriminate].
    inversion E; subst. constructor; auto.
Qed.

(* ------------------------------------------------------------------ *)
(** ** The renderer returns the serialisation of the structure *)

Lemma render_nav_dir name path children current_md root depth :
  render_nav (mkNode name path true children) current_md root depth =
  (parts <- mapM (fun c => render_nav c current_md root (S depth)) children ;;
   Ok (String.concat Str.nl
         (("<details" ++ open_attr path current_md ++ style_attr depth
           ++ "><summary title=" ++ Str.q ++ name ++ Str.q ++ ">"
           ++ name ++ "</summary>") :: (parts ++ ["</details>"])%list))).
Proof.
  cbn [render_nav]. f_equal.
  induction children as [|c cs IH]; [reflexivity|].
  cbn [mapM]. now rewrite IH.
Qed.

Lemma nav_view_dir name path children current_md root depth :
  nav_view (mkNode name path true children) current_md root depth =
  (ms <- mapM (fun c => nav_view c current_md root (S depth)) children ;;
   Ok (Details (is_open path current_md) depth name ms)).
Proof.
  cbn [nav_view]. f_equal.
  induction children as [|c cs IH]; [reflexivity|].
  cbn [mapM]. now rewrite IH.
Qed.

Lemma render_nav_view node current_md root :
  forall depth,
    render_nav node current_md root depth =
    (m <- nav_view node current_md root depth ;; Ok (to_html m)).
Proof.
  induction node as [name path is_dir children IH] using Node_ind; intros depth.
  destruct is_dir.
  - rewrite render_nav_dir, nav_view_dir.
    rewrite (mapM_ext _ (fun c => m <- nav_view c current_md root (S depth) ;; Ok (to_html m))).
    2:{ eapply Forall_impl; [|exact IH]. intros c Hc; apply Hc. }
    rewrite mapM_bind_map.
    destruct (mapM _ children) as [ms|e]; reflexivity.
  - cbn [render_nav nav_view].
    destruct (PurePath.relative_to path root) as [rel|]; [|reflexivity]; cbn [bind].
    destruct (PurePath.with_suffix rel ".html") as [h|]; [|reflexivity]; cbn [bind].
    destruct (is_active rel current_md root) as [a|]; reflexivity.
Qed.

(* ------------------------------------------------------------------ *)
(** ** Paths *)

Open Scope list_scope.

Lemma is_relative_to_app (p r : Path) : PurePath.is_relative_to (p ++ r) p = true.
Proof.
  induction p as [|x p IH]; simpl; [reflexivity|].
  now rewrite String.eqb_refl, IH.
Qed.

Lemma is_relative_to_inv (p other : Path) :
  PurePath.is_relative_to p other = true -> exists r, p = other ++ r.
Proof.
  revert p; induction other as [|o other IH]; intros p H.
  - now exists p.
  - destruct p as [|x p]; simpl in H; [discriminate|].
    apply andb_true_iff in H as [Hx Hp].
    apply String.eqb_eq in Hx; subst x.
    destruct (IH _ Hp) as [r ->]. now exists r.
Qed.

Lemma is_relative_to_iff (p other : Path) :
  PurePath.is_relative_to p other = true <-> exists r, p = other ++ r.
Proof.
  split; [apply is_relative_to_inv|]. intros [r ->]. apply is_relative_to_app.
Qed.

Lemma is_relative_to_refl (p : Path) : PurePath.is_relative_to p p = true.
Proof. rewrite <- (app_nil_r p) at 1. apply is_relative_to_app. Qed.

Lemma is_relative_to_trans (p q r : Path) :
  PurePath.is_relative_to p q = true -> PurePath.is_relative_to q r = true ->
  PurePath.is_relative_to p r = true.
Proof.
  intros [a ->]%is_relative_to_inv [b ->]%is_relative_to_inv.
  rewrite <- app_assoc. apply is_relative_to_app.
Qed.

Lemma relative_to_app (root r : Path) :
  PurePath.relative_to (root ++ r) root = Ok r.
Proof.
  unfold PurePath.relative_to. rewrite is_relative_to_app.
  now rewrite skipn_app, skipn_all, Nat.sub_diag.
Qed.

Lemma relative_to_Ok (p root r : Path) :
  PurePath.relative_to p root = Ok r <-> p = root ++ r.
Proof.
  split.
  - unfold PurePath.relative_to.
    destruct (PurePath.is_relative_to p root) eqn:E; [|discriminate].
    apply is_relative_to_inv in E as [r' ->].
    rewrite skipn_app, skipn_all, Nat.sub_diag. simpl. now intros [= ->].
  - intros ->. apply relative_to_app.
Qed.

Lemma eqb_path_refl (p : Path) : PurePath.eqb p p = true.
Proof. unfold PurePath.eqb. now destruct (list_eq_dec string_dec p p). Qed.

Lemma eqb_path_eq (p1 p2 : Path) : PurePath.eqb p1 p2 = true <-> p1 = p2.
Proof.
  unfold PurePath.eqb. destruct (list_eq_dec string_dec p1 p2); split; congruence.
Qed.

Lemma name_joinpath (p : Path) (nm : string) :
  PurePath.name (PurePath.joinpath p nm) = nm.
Proof. unfold PurePath.name, PurePath.joinpath. apply last_last. Qed.

Lemma parent_joinpath (p : Path) (nm : string) :
  PurePath.parent (PurePath.joinpath p nm) = p.
Proof. unfold PurePath.parent, PurePath.joinpath. apply removelast_last. Qed.

Lemma with_suffix_joinpath (p : Path) (nm sfx : string) :
  nm <> EmptyString ->
  PurePath.with_suffix (PurePath.joinpath p nm) sfx
  = Ok (PurePath.joinpath p (PurePath.stem_of nm ++ sfx)%string).
Proof.
  intros Hnm. unfold PurePath.with_suffix, PurePath.stem.
  rewrite name_joinpath, parent_joinpath.
  destruct (String.eqb_spec nm EmptyString); [contradiction|reflexivity].
Qed.

(** A name with the document extension is not empty. *)
Lemma is_md_nonempty (nm : string) : is_md nm = true -> nm <> EmptyString.
Proof. intros H ->. discriminate H. Qed.

(** The stem and the suffix of a name make up the name. *)
Lemma substring_split (i : nat) (s : string) :
  i <= String.length s ->
  (substring 0 i s ++ substring i (String.length s - i) s)%string = s.
Proof.
  revert i; induction s as [|c s IH]; intros i Hi.
  - destruct i; [reflexivity|simpl in Hi; lia].
  - destruct i as [|i]; simpl.
    + f_equal. clear. induction s as [|c' s IH]; simpl; [reflexivity|]. now f_equal.
    + f_equal. apply IH. simpl in Hi; lia.
Qed.

Lemma stem_suffix (nm : string) :
  (PurePath.stem_of nm ++ PurePath.suffix_of nm)%string = nm.
Proof.
  unfold PurePath.stem_of, PurePath.suffix_of, PurePath.split_at.
  destruct (Str.rfind_dot nm) as [i|].
  - destruct ((0 <? i) && (i <? String.length nm - 1))%nat eqn:E.
    + apply substring_split.
      apply andb_true_iff in E as [_ E]. apply Nat.ltb_lt in E. lia.
    + clear. induction nm; simpl; [reflexivity|]. now f_equal.
  - clear. induction nm; simpl; [reflexivity|]. now f_equal.
Qed.

Open Scope string_scope.

(* ------------------------------------------------------------------ *)
(** ** What a rendering shows of a tree *)

Open Scope list_scope.

Lemma flat_map_Forall2 {A B C : Type} (f : A -> list C) (g : B -> list C)
  (l : list A) (l' : list B) :
  Forall2 (fun a b => f a = g b) l l' -> flat_map f l = flat_map g l'.
Proof.
  induction 1 as [|a b l l' Hab _ IH]; simpl; [reflexivity|]. now rewrite Hab, IH.
Qed.

Lemma map_flat_map {A B C : Type} (g : B -> C) (f : A -> list B) (l : list A) :
  map g (flat_map f l) = flat_map (fun a => map g (f a)) l.
Proof.
  induction l as [|a l IH]; simpl; [reflexivity|]. now rewrite map_app, IH.
Qed.

Lemma mapM_Forall2_total {A B : Type} (f : A -> result B) (P : A -> B -> Prop)
  (l : list A) :
  Forall (fun a => exists b, f a = Ok b /\ P a b) l ->
  exists bs, mapM f l = Ok bs /\ Forall2 P l bs.
Proof.
  induction 1 as [|a l [b [Hb Pb]] _ [bs [IH1 IH2]]]; simpl.
  - exists []; split; [reflexivity|constructor].
  - rewrite Hb, IH1; simpl. exists (b :: bs); split; [reflexivity|now constructor].
Qed.

Lemma forallb_flat_map {A B : Type} (p : B -> bool) (f : A -> list B) (l : list A) :
  forallb p (flat_map f l) = true -> Forall (fun a => forallb p (f a) = true) l.
Proof.
  induction l as [|a l IH]; simpl; intros H; [constructor|].
  rewrite forallb_app in H. apply andb_true_iff in H as [H1 H2].
  constructor; auto.
Qed.

Lemma is_active_under (root : Path) (current_md : option Path) (p : Path) :
  cur_under root current_md = true ->
  is_active (rel_of root p) current_md root = Ok (active_of root current_md p).
Proof.
  destruct current_md as [cur|]; simpl; [|reflexivity].
  intros H. unfold PurePath.relative_to. now rewrite H.
Qed.


Lemma nav_view_shows (root : Path) (current_md : option Path) (node : Node) :
  cur_under root current_md = true ->
  docs_under root node = true ->
  forall depth, exists m,
    nav_view node current_md root depth = Ok m /\ shows root current_md depth node m.
Proof.
  intros Hcur.
  induction node as [name path is_dir children IH] using Node_ind; intros Hdocs depth.
  destruct is_dir.
  - rewrite nav_view_dir.
    unfold docs_under in Hdocs; cbn [doc_paths] in Hdocs.
    apply forallb_flat_map in Hdocs.
    destruct (mapM_Forall2_total
                (fun c => nav_view c current_md root (S depth))
                (shows root current_md (S depth)) children) as [ms [Hms HF]].
    { rewrite Forall_forall in *. intros c Hc. apply (IH c Hc). apply (Hdocs c Hc). }
    rewrite Hms; cbn [bind]. eexists; split; [reflexivity|].
    constructor; cbn [m_opens m_links m_depths m_names dir_paths doc_paths levels node_names].
    + rewrite map_cons, map_flat_map. f_equal.
      apply flat_map_Forall2, Forall2_flip.
      eapply Forall2_impl; [|exact HF]. intros c m Hs. apply Hs.
    + rewrite map_flat_map.
      apply flat_map_Forall2, Forall2_flip.
      eapply Forall2_impl; [|exact HF]. intros c m Hs. apply Hs.
    + rewrite map_cons, Nat.add_0_r. f_equal.
      rewrite map_map, map_flat_map.
      apply flat_map_Forall2, Forall2_flip.
      eapply Forall2_impl; [|exact HF]. intros c m Hs.
      rewrite (shows_depths _ _ _ _ _ Hs). apply map_ext. intros k; lia.
    + f_equal. apply flat_map_Forall2, Forall2_flip.
      eapply Forall2_impl; [|exact HF]. intros c m Hs. apply Hs.
  - cbn [nav_view].
    unfold docs_under in Hdocs; cbn [doc_paths forallb] in Hdocs.
    rewrite andb_true_r in Hdocs. apply andb_true_iff in Hdocs as [Hrel Hname].
    unfold PurePath.relative_to at 1. rewrite Hrel; cbn [bind].
    fold (rel_of root path).
    unfold PurePath.with_suffix.
    apply negb_true_iff in Hname. rewrite Hname; cbn [bind].
    rewrite is_active_under by assumption; cbn [bind].
    eexists; split; [reflexivity|].
    constructor; cbn [m_opens m_links m_depths m_names dir_paths doc_paths levels node_names map];
      try reflexivity.
    now rewrite Nat.add_0_r.
Qed.

Open Scope string_scope.

(* ------------------------------------------------------------------ *)
(** ** The stable sort *)

Open Scope list_scope.

Section SortedFacts.
Context {A K : Type} (key : A -> K) (lt : K -> K -> bool).

#[local] Abbreviation key_le := (key_le key lt).
#[local] Abbreviation keys_apart := (keys_apart key lt).

Lemma insert_perm (x : A) (l : list A) : Permutation (x :: l) (insert key lt x l).
Proof.
  induction l as [|y l IH]; simpl; [reflexivity|].
  destruct (lt (key y) (key x)); [|reflexivity].
  rewrite perm_swap. now constructor.
Qed.

Lemma sorted_perm (l : list A) : Permutation l (sorted key lt l).
Proof.
  induction l as [|x l IH]; simpl; [constructor|].
  rewrite <- insert_perm. now constructor.
Qed.

(** Sorting decorated entries is decorating the sorted entries. *)
Lemma insert_map {B : Type} (f : B -> A) (x : B) (l : list B) :
  insert key lt (f x) (map f l) = map f (insert (fun b => key (f b)) lt x l).
Proof.
  induction l as [|y l IH]; simpl; [reflexivity|].
  destruct (lt (key (f y)) (key (f x))); simpl; [now rewrite IH|reflexivity].
Qed.

Lemma sorted_map {B : Type} (f : B -> A) (l : list B) :
  sorted key lt (map f l) = map f (sorted (fun b => key (f b)) lt l).
Proof.
  unfold sorted.
  induction l as [|x l IH]; simpl; [reflexivity|].
  rewrite IH. apply insert_map.
Qed.


Hypothesis lt_asym : forall a b, lt a b = true -> lt b a = false.
(** The order is total on its classes: being not below is transitive. *)
Hypothesis nlt_trans : forall a b c, lt b a = false -> lt c b = false -> lt c a = false.

Lemma insert_sorted (x : A) (l : list A) :
  StronglySorted key_le l -> StronglySorted key_le (insert key lt x l).
Proof.
  induction 1 as [|y l Hl IH Hy]; simpl.
  - repeat constructor.
  - destruct (lt (key y) (key x)) eqn:E.
    + constructor; [exact IH|].
      rewrite <- insert_perm. constructor; [|exact Hy].
      unfold key_le. now apply lt_asym.
    + constructor; [now constructor|].
      constructor; [exact E|].
      eapply Forall_impl; [|exact Hy]. intros z Hz. unfold key_le in *.
      eapply nlt_trans; eassumption.
Qed.

Lemma sorted_sorted (l : list A) : StronglySorted key_le (sorted key lt l).
Proof.
  induction l as [|x l IH]; simpl; [constructor|]. now apply insert_sorted.
Qed.

(** Stability: elements with equivalent keys keep their order.  The sort
    of a list is the list itself when it is in order already. *)
Lemma insert_head (x : A) (l : list A) :
  Forall (key_le x) l -> insert key lt x l = x :: l.
Proof.
  destruct l as [|y l]; simpl; [reflexivity|].
  intros H. inversion H; subst. unfold key_le in *. now rewrite H2.
Qed.

Lemma sorted_id (l : list A) : StronglySorted key_le l -> sorted key lt l = l.
Proof.
  unfold sorted.
  induction 1 as [|x l Hl IH Hx]; simpl; [reflexivity|].
  rewrite IH. now apply insert_head.
Qed.


Lemma sorted_unique (l1 l2 : list A) :
  StronglySorted key_le l1 -> StronglySorted key_le l2 ->
  Permutation l1 l2 -> keys_apart l1 -> NoDup l1 -> l1 = l2.
Proof.
  intros H1; revert l2. induction H1 as [|x l1 Hl1 IH Hx]; intros l2 H2 HP Hap Hnd.
  - now apply Permutation_nil in HP.
  - destruct l2 as [|y l2]; [now apply Permutation_sym, Permutation_nil in HP|].
    assert (x = y) as <-.
    { inversion H2 as [|? ? _ Hy]; subst.
      assert (Hxin : In x (y :: l2)) by (rewrite <- HP; now left).
      assert (Hyin : In y (x :: l1)) by (rewrite HP; now left).
      destruct Hxin as [->|Hxin]; [reflexivity|].
      destruct Hyin as [->|Hyin]; [reflexivity|].
      apply Hap; [now left|now right| |].
      - rewrite Forall_forall in Hx. now apply Hx.
      - rewrite Forall_forall in Hy. now apply Hy. }
    f_equal. apply IH.
    + now inversion H2.
    + now apply Permutation_cons_inv in HP.
    + intros a b Ha Hb. apply Hap; now right.
    + now inversion Hnd.
Qed.

Theorem sorted_perm_invariant (l1 l2 : list A) :
  Permutation l1 l2 -> keys_apart l1 -> NoDup l1 ->
  sorted key lt l1 = sorted key lt l2.
Proof.
  intros HP Hap Hnd. apply sorted_unique.
  - apply sorted_sorted.
  - apply sorted_sorted.
  - now rewrite <- !sorted_perm.
  - intros x y Hx Hy. rewrite <- sorted_perm in Hx, Hy. now apply Hap.
  - eapply Permutation_NoDup; [apply sorted_perm|exact Hnd].
Qed.
End SortedFacts.

Open Scope string_scope.

(* ------------------------------------------------------------------ *)
(** ** The order of the sort keys *)

Lemma ascii_compare_refl (a : ascii) : Ascii.compare a a = Eq.
Proof. unfold Ascii.compare. apply BinNat.N.compare_refl. Qed.

Lemma ascii_compare_lt_trans (a b c : ascii) :
  Ascii.compare a b = Lt -> Ascii.compare b c = Lt -> Ascii.compare a c = Lt.
Proof.
  unfold Ascii.compare. rewrite !BinNat.N.compare_lt_iff. apply BinNat.N.lt_trans.
Qed.

Lemma string_compare_refl (s : string) : String.compare s s = Eq.
Proof.
  induction s as [|c s IH]; simpl; [reflexivity|]. now rewrite ascii_compare_refl.
Qed.

Lemma string_compare_lt_trans (s1 s2 s3 : string) :
  String.compare s1 s2 = Lt -> String.compare s2 s3 = Lt -> String.compare s1 s3 = Lt.
Proof.
  revert s2 s3; induction s1 as [|a s1 IH]; intros [|b s2] [|c s3]; simpl;
    try discriminate; try reflexivity.
  destruct (Ascii.compare a b) eqn:Eab; try discriminate;
    destruct (Ascii.compare b c) eqn:Ebc; try discriminate; intros H1 H2.
  - apply Ascii.compare_eq_iff in Eab, Ebc; subst.
    rewrite ascii_compare_refl. eapply IH; eassumption.
  - apply Ascii.compare_eq_iff in Eab; subst. now rewrite Ebc.
  - apply Ascii.compare_eq_iff in Ebc; subst. now rewrite Eab.
  - now rewrite (ascii_compare_lt_trans _ _ _ Eab Ebc).
Qed.

Lemma string_ltb_asym (s1 s2 : string) :
  String.ltb s1 s2 = true -> String.ltb s2 s1 = false.
Proof.
  unfold String.ltb. rewrite (String.compare_antisym s1 s2).
  now destruct (String.compare s2 s1).
Qed.

(** Not below is at least: the character order is total. *)
Lemma string_nlt_leb (s1 s2 : string) :
  String.ltb s2 s1 = false <-> String.leb s1 s2 = true.
Proof.
  unfold String.ltb, String.leb. rewrite (String.compare_antisym s1 s2).
  destruct (String.compare s2 s1); simpl; split; congruence.
Qed.

Lemma string_leb_trans (s1 s2 s3 : string) :
  String.leb s1 s2 = true -> String.leb s2 s3 = true -> String.leb s1 s3 = true.
Proof.
  unfold String.leb.
  destruct (String.compare s1 s2) eqn:E1; try discriminate;
    destruct (String.compare s2 s3) eqn:E2; try discriminate; intros _ _.
  - apply String.compare_eq_iff in E1; subst. now rewrite E2.
  - apply String.compare_eq_iff in E1; subst. now rewrite E2.
  - apply String.compare_eq_iff in E2; subst. now rewrite E1.
  - now rewrite (string_compare_lt_trans _ _ _ E1 E2).
Qed.

Lemma key_lt_asym (a b : bool * string) : key_lt a b = true -> key_lt b a = false.
Proof.
  destruct a as [[] sa], b as [[] sb]; unfold key_lt; simpl;
    try discriminate; try reflexivity; apply string_ltb_asym.
Qed.

Lemma key_nlt_trans (a b c : bool * string) :
  key_lt b a = false -> key_lt c b = false -> key_lt c a = false.
Proof.
  destruct a as [[] sa], b as [[] sb], c as [[] sc]; unfold key_lt; simpl;
    try discriminate; try reflexivity;
    rewrite !string_nlt_leb; apply string_leb_trans.
Qed.

(** Keys of which neither is below the other are equal. *)
Lemma key_lt_apart (a b : bool * string) :
  key_lt a b = false -> key_lt b a = false -> a = b.
Proof.
  destruct a as [[] sa], b as [[] sb]; unfold key_lt; simpl;
    try discriminate; rewrite !string_nlt_leb; intros H1 H2;
    f_equal; now apply String.leb_antisym.
Qed.

(* ------------------------------------------------------------------ *)
(** ** The loop of the tree builder *)

Open Scope list_scope.

Lemma flat_map_snd_decorate {A B K : Type} (key : A -> K) (f : A -> list B) (l : list A) :
  flat_map snd (map (fun c => (key c, f c)) l) = flat_map f l.
Proof.
  induction l as [|a l IH]; simpl; [reflexivity|]. now rewrite IH.
Qed.

(** [build_tree] visits the entries in the order of the sorted listing and
    adds the nodes of each. *)
Lemma build_tree_unfold (root : Path) (entries : list entry) :
  build_tree root entries =
  mkNode (PurePath.name root) root true
         (flat_map (add_child root) (sorted sort_key key_lt entries)).
Proof.
  unfold build_tree. f_equal.
  rewrite (sorted_map fst key_lt (fun c => (sort_key c, add_child root c))).
  apply flat_map_snd_decorate.
Qed.

(** A subdirectory adds the tree that [build_tree] returns for it. *)
Lemma add_child_Dir (root : Path) (nm : string) (sub : list entry) :
  add_child root (Dir nm sub) = [build_tree (PurePath.joinpath root nm) sub].
Proof. reflexivity. Qed.

Lemma add_child_file (root : Path) (e : entry) :
  is_dir e = false ->
  add_child root e =
  if is_md (entry_name e)
  then [mkNode (PurePath.stem_of (entry_name e))
               (PurePath.joinpath root (entry_name e)) false []]
  else [].
Proof. destruct e; simpl; intros H; (reflexivity || discriminate). Qed.

(** A directory, also one behind a symbolic link, adds the tree that
    [build_tree] returns for its entries. *)
Lemma add_child_dir (root : Path) (e : entry) :
  is_dir e = true ->
  add_child root e
  = [build_tree (PurePath.joinpath root (entry_name e)) (dir_entries e)].
Proof. destruct e; simpl; intros H; (reflexivity || discriminate). Qed.

Open Scope string_scope.

(* ------------------------------------------------------------------ *)
(** ** Trees that mirror a directory

    A directory holds no two entries of one name.  The trees that
    [build_tree] returns for such directories are [well_formed]: the path of
    a child extends the path of its parent by one name, and no two children
    of a node have the same path. *)

Open Scope list_scope.

Lemma distinct_NoDup (l : list string) : distinct l = true -> NoDup l.
Proof.
  induction l as [|x l IH]; simpl; intros H; [constructor|].
  apply andb_true_iff in H as [Hx Hl]. constructor; [|auto].
  intros Hin. apply negb_true_iff in Hx.
  assert (existsb (String.eqb x) l = true); [|congruence].
  apply existsb_exists. exists x; split; [assumption|apply String.eqb_refl].
Qed.

Lemma in_sorted {A K : Type} (key : A -> K) (lt : K -> K -> bool) (x : A) (l : list A) :
  In x (sorted key lt l) <-> In x l.
Proof.
  split; apply Permutation_in; [symmetry|]; apply sorted_perm.
Qed.

Lemma add_child_path (root : Path) (e : entry) (n : Node) :
  In n (add_child root e) -> node_path n = root ++ [entry_name e].
Proof.
  destruct e as [nm t|nm sub|nm|nm sub|nm|nm t]; simpl;
    try (destruct (is_md nm); simpl; [|tauto]); now intros [<-|[]].
Qed.

Lemma add_child_paths_NoDup (root : Path) (l : list entry) :
  NoDup (map entry_name l) ->
  NoDup (map node_path (flat_map (add_child root) l)).
Proof.
  induction l as [|e l IH]; simpl; intros H; [constructor|].
  inversion H as [|? ? Hnin Hnd]; subst.
  rewrite map_app. apply NoDup_app; [| now apply IH |].
  - destruct e as [nm t|nm sub|nm|nm sub|nm|nm t]; simpl;
      try (destruct (is_md nm); simpl); repeat constructor; simpl; tauto.
  - intros p Hp Hp'.
    apply in_map_iff in Hp as [n [<- Hn]].
    apply in_map_iff in Hp' as [n' [Heq Hn']].
    apply in_flat_map in Hn' as [e' [He' Hn']].
    apply add_child_path in Hn, Hn'. rewrite Hn, Hn' in Heq.
    apply app_inv_head in Heq. injection Heq as Heq.
    apply Hnin. rewrite <- Heq. now apply in_map.
Qed.

Lemma children_well_formed (nm : string) (root : Path) (l : list entry) :
  distinct (map entry_name l) = true ->
  (forall c, In c l -> Forall well_formed (add_child root c)) ->
  well_formed (mkNode nm root true (flat_map (add_child root) (sorted sort_key key_lt l))).
Proof.
  intros Hd Hwf. constructor.
  - apply Forall_forall. intros n Hn.
    apply in_flat_map in Hn as [c [Hc Hn]]. apply in_sorted in Hc.
    specialize (Hwf c Hc). rewrite Forall_forall in Hwf. now apply Hwf.
  - apply Forall_forall. intros n Hn.
    apply in_flat_map in Hn as [c [Hc Hn]]. exists (entry_name c).
    now apply add_child_path.
  - eapply Permutation_NoDup.
    + apply Permutation_map, Permutation_flat_map, sorted_perm.
    + apply add_child_paths_NoDup, distinct_NoDup, Hd.
Qed.

Lemma add_child_well_formed (e : entry) :
  entry_unique e = true -> forall root, Forall well_formed (add_child root e).
Proof.
  induction e as [nm t|nm|nm sub IH|nm|nm t|nm sub IH] using entry_ind;
    intros Hu root;
    try (simpl; destruct (is_md nm); repeat constructor; fail).
  all: rewrite add_child_dir by reflexivity; cbn [entry_name dir_entries].
  all: rewrite build_tree_unfold; constructor; [|constructor].
  all: simpl in Hu; apply andb_true_iff in Hu as [Hd Hsub].
  all: apply children_well_formed; [exact Hd|].
  all: intros c Hc; rewrite Forall_forall in IH; apply IH; [exact Hc|].
  all: rewrite forallb_forall in Hsub; now apply Hsub.
Qed.

Lemma build_tree_well_formed (root : Path) (entries : list entry) :
  unique_names entries = true -> well_formed (build_tree root entries).
Proof.
  intros Hu. apply andb_true_iff in Hu as [Hd Hall].
  rewrite build_tree_unfold. apply children_well_formed; [exact Hd|].
  intros c Hc. apply add_child_well_formed.
  rewrite forallb_forall in Hall. now apply Hall.
Qed.

(** The documents of a tree of [build_tree] lie under its root and have
    names, so the renderer accepts them. *)
Lemma name_cons (x : string) (rel : Path) :
  rel <> [] -> PurePath.name (x :: rel) = PurePath.name rel.
Proof. unfold PurePath.name. destruct rel; [congruence|reflexivity]. Qed.

Lemma add_child_docs (e : entry) :
  forall root p, In p (flat_map doc_paths (add_child root e)) ->
  exists rel, p = root ++ rel /\ PurePath.name rel <> EmptyString.
Proof.
  induction e as [nm t|nm|nm sub IH|nm|nm t|nm sub IH] using entry_ind;
    intros root p Hp.
  1,2,4,5: simpl in Hp; destruct (is_md nm) eqn:E; simpl in Hp; [|tauto];
    destruct Hp as [<-|[]]; exists [nm]; split; [reflexivity|];
    now apply is_md_nonempty.
  all: rewrite add_child_dir in Hp by reflexivity;
    cbn [entry_name dir_entries] in Hp.
  all: rewrite build_tree_unfold in Hp; simpl in Hp; rewrite app_nil_r in Hp.
  all: apply in_flat_map in Hp as [n [Hn Hp]].
  all: apply in_flat_map in Hn as [c [Hc Hn]]; apply in_sorted in Hc.
  all: rewrite Forall_forall in IH.
  all: destruct (IH c Hc (PurePath.joinpath root nm) p) as [rel [-> Hrel]];
    [apply in_flat_map; now exists n|].
  all: exists (nm :: rel); split;
    [unfold PurePath.joinpath; now rewrite <- app_assoc|].
  all: rewrite name_cons; [exact Hrel|]; intros ->; now apply Hrel.
Qed.

Lemma build_tree_docs (root : Path) (entries : list entry) (p : Path) :
  In p (doc_paths (build_tree root entries)) ->
  exists rel, p = root ++ rel /\ PurePath.name rel <> EmptyString.
Proof.
  rewrite build_tree_unfold. simpl. intros Hp.
  apply in_flat_map in Hp as [n [Hn Hp]].
  apply in_flat_map in Hn as [c [Hc Hn]].
  apply (add_child_docs c). apply in_flat_map. now exists n.
Qed.

Lemma rel_of_app (root rel : Path) : rel_of root (root ++ rel) = rel.
Proof. unfold rel_of. now rewrite skipn_app, skipn_all, Nat.sub_diag. Qed.

Lemma build_tree_docs_under (root : Path) (entries : list entry) :
  docs_under root (build_tree root entries) = true.
Proof.
  unfold docs_under. apply forallb_forall. intros p Hp.
  apply build_tree_docs in Hp as [rel [-> Hrel]].
  unfold doc_ok. rewrite is_relative_to_app, rel_of_app. simpl.
  apply negb_true_iff. now apply String.eqb_neq.
Qed.

(** The paths of a well-formed tree lie under the path of its root. *)
Lemma well_formed_under (n : Node) :
  well_formed n ->
  forall p, In p (doc_paths n) \/ In p (dir_paths n) ->
  PurePath.is_relative_to p (node_path n) = true.
Proof.
  induction n as [name path is_dir cs IH] using Node_ind; intros Hwf p Hp.
  inversion Hwf as [|? ? ? Hcs Hext Hnd]; subst; simpl in *.
  - destruct Hp as [[<-|[]]|[]]. apply is_relative_to_refl.
  - assert (Hc : p = path \/ exists c, In c cs /\ (In p (doc_paths c) \/ In p (dir_paths c))).
    { destruct Hp as [Hp|[Hp|Hp]]; [right|now left|right];
        apply in_flat_map in Hp as [c [Hc Hp]]; exists c; tauto. }
    destruct Hc as [->|[c [Hc Hp']]]; [apply is_relative_to_refl|].
    rewrite Forall_forall in IH, Hcs, Hext.
    specialize (IH c Hc (Hcs c Hc) p Hp').
    destruct (Hext c Hc) as [nm Hnm]. rewrite Hnm in IH.
    eapply is_relative_to_trans; [exact IH|apply is_relative_to_app].
Qed.

Open Scope string_scope.

(* ------------------------------------------------------------------ *)
(** ** The open branch and the active link *)

Open Scope list_scope.

Lemma NoDup_map_inj {A B : Type} (f : A -> B) (l : list A) (a b : A) :
  NoDup (map f l) -> In a l -> In b l -> f a = f b -> a = b.
Proof.
  induction l as [|x l IH]; simpl; intros Hnd Ha Hb Hab; [tauto|].
  inversion Hnd as [|? ? Hnin Hnd']; subst.
  destruct Ha as [->|Ha], Hb as [->|Hb]; auto.
  - exfalso. apply Hnin. rewrite Hab. now apply in_map.
  - exfalso. apply Hnin. rewrite <- Hab. now apply in_map.
Qed.

Lemma Forall2_impl_in {A B : Type} (P Q : A -> B -> Prop) (l : list A) (l' : list B) :
  (forall a b, In a l -> P a b -> Q a b) -> Forall2 P l l' -> Forall2 Q l l'.
Proof.
  intros H HF. induction HF as [|a b l l' Hab _ IH]; constructor.
  - apply H; [now left|exact Hab].
  - apply IH. intros a' b' Ha'. apply H. now right.
Qed.

Lemma rel_of_inj (root p1 p2 : Path) :
  PurePath.is_relative_to p1 root = true ->
  PurePath.is_relative_to p2 root = true ->
  rel_of root p1 = rel_of root p2 -> p1 = p2.
Proof.
  intros [r1 ->]%is_relative_to_inv [r2 ->]%is_relative_to_inv.
  rewrite !rel_of_app. now intros ->.
Qed.

(** Two names that extend one path to prefixes of one path are equal. *)
Lemma extension_unique (path cur : Path) (n1 n2 : string) :
  PurePath.is_relative_to cur (path ++ [n1]) = true ->
  PurePath.is_relative_to cur (path ++ [n2]) = true -> n1 = n2.
Proof.
  intros [r1 ->]%is_relative_to_inv [r2 H]%is_relative_to_inv.
  rewrite <- !app_assoc in H. apply app_inv_head in H. now injection H.
Qed.

Lemma nav_view_branch (root cur : Path) (n : Node) :
  PurePath.is_relative_to cur root = true ->
  well_formed n -> docs_under root n = true ->
  In cur (doc_paths n) \/ PurePath.is_relative_to cur (node_path n) = false ->
  forall depth m, nav_view n (Some cur) root depth = Ok m ->
  branch_ok m = true /\ (has_active m = true <-> In cur (doc_paths n)).
Proof.
  intros Hcur.
  induction n as [name path is_dir cs IH] using Node_ind;
    intros Hwf Hdocs Hchain depth m Hm.
  inversion Hwf as [|? ? ? Hcs Hext Hnd]; subst.
  - (* a document *)
    cbn [nav_view] in Hm.
    apply bind_Ok in Hm as [rel [Hrel Hm]].
    apply bind_Ok in Hm as [h [_ Hm]].
    apply bind_Ok in Hm as [a [Ha Hm]]. injection Hm as <-.
    apply relative_to_Ok in Hrel; subst path.
    simpl in Ha. unfold PurePath.relative_to in Ha. rewrite Hcur in Ha.
    injection Ha as <-. fold (rel_of root cur).
    split; [reflexivity|]. simpl. rewrite eqb_path_eq. split.
    + intros H. left. apply (rel_of_inj root); auto.
      * apply is_relative_to_app.
      * now rewrite rel_of_app.
    + intros [<-|[]]. now rewrite rel_of_app.
  - (* a directory *)
    rewrite nav_view_dir in Hm. apply bind_Ok in Hm as [ms [Hms Hm]].
    injection Hm as <-. apply mapM_Forall2 in Hms.
    unfold docs_under in Hdocs; cbn [doc_paths] in Hdocs.
    apply forallb_flat_map in Hdocs.
    assert (Hkids : Forall2 (fun c mc => branch_ok mc = true /\
                               (has_active mc = true <-> In cur (doc_paths c))) cs ms).
    { rewrite Forall_forall in IH, Hcs, Hext, Hdocs.
      assert (Hall : forall c, In c cs ->
                In cur (doc_paths c) \/ PurePath.is_relative_to cur (node_path c) = false).
      { intros c Hc.
        destruct (in_dec (list_eq_dec string_dec) cur (doc_paths c)) as [Hin|Hnin];
          [now left|right].
        destruct (PurePath.is_relative_to cur (node_path c)) eqn:Erel; [exfalso|reflexivity].
        destruct (Hext c Hc) as [nm Hnm]. rewrite Hnm in Erel.
        destruct Hchain as [Hin|Hout].
        - simpl in Hin. apply in_flat_map in Hin as [c0 [Hc0 Hin0]].
          destruct (Hext c0 Hc0) as [nm0 Hnm0].
          pose proof (well_formed_under c0 (Hcs c0 Hc0) cur (or_introl Hin0)) as H0.
          rewrite Hnm0 in H0.
          assert (nm = nm0) by (eapply extension_unique; eassumption). subst nm0.
          assert (c = c0).
          { eapply NoDup_map_inj; eauto. congruence. }
          subst c0. contradiction.
        - simpl in Hout.
          assert (PurePath.is_relative_to cur path = true); [|congruence].
          eapply is_relative_to_trans; [exact Erel|apply is_relative_to_app]. }
      eapply Forall2_impl_in; [|exact Hms].
      intros c mc Hc Hv. cbv beta in Hv.
      eapply IH; [exact Hc|now apply Hcs|now apply Hdocs|now apply Hall|exact Hv]. }
    assert (Hact : existsb has_active ms = true <-> In cur (flat_map doc_paths cs)).
    { clear -Hkids. induction Hkids as [|c mc cs ms [_ Hc] _ IHk]; simpl.
      - split; [discriminate|tauto].
      - rewrite orb_true_iff, in_app_iff. tauto. }
    cbn [branch_ok has_active doc_paths]. split; [|exact Hact].
    apply andb_true_iff. split.
    + apply eqb_true_iff. simpl.
      destruct Hchain as [Hin|Hout].
      * pose proof (well_formed_under _ Hwf cur (or_introl Hin)) as Hrel.
        simpl in Hrel. rewrite Hrel. symmetry. now apply Hact.
      * simpl in Hout. rewrite Hout. symmetry. apply not_true_iff_false.
        intros H. apply Hact in H.
        pose proof (well_formed_under _ Hwf cur (or_introl H)) as Hrel.
        simpl in Hrel. congruence.
    + clear -Hkids. induction Hkids as [|c mc cs ms [Hc _] _ IHk]; simpl; [reflexivity|].
      now rewrite Hc, IHk.
Qed.

Open Scope string_scope.

(* ------------------------------------------------------------------ *)
(** ** The depth of a rendering *)

Open Scope list_scope.


Lemma flat_map_ext_Forall {A B : Type} (f g : A -> list B) (l : list A) :
  Forall (fun a => f a = g a) l -> flat_map f l = flat_map g l.
Proof.
  induction 1 as [|a l Ha _ IH]; simpl; [reflexivity|]. now rewrite Ha, IH.
Qed.


Lemma shift_shift (a b : nat) (m : markup) : shift a (shift b m) = shift (a + b) m.
Proof.
  induction m as [open depth name children IH|href active depth name] using markup_ind;
    simpl.
  - f_equal; [lia|]. rewrite map_map. apply map_ext_Forall. exact IH.
  - f_equal; lia.
Qed.

Lemma erase_shift (d : nat) (m : markup) : erase_depth (shift d m) = erase_depth m.
Proof.
  induction m as [open depth name children IH|href active depth name] using markup_ind;
    simpl; [|reflexivity].
  f_equal. rewrite map_map. apply map_ext_Forall. exact IH.
Qed.

Lemma links_shift (d : nat) (m : markup) : m_links (shift d m) = m_links m.
Proof.
  induction m as [open depth name children IH|href active depth name] using markup_ind;
    simpl; [|reflexivity].
  rewrite flat_map_concat_map, map_map, <- flat_map_concat_map.
  apply flat_map_ext_Forall. exact IH.
Qed.

Lemma opens_shift (d : nat) (m : markup) : m_opens (shift d m) = m_opens m.
Proof.
  induction m as [open depth name children IH|href active depth name] using markup_ind;
    simpl; [|reflexivity].
  f_equal. rewrite flat_map_concat_map, map_map, <- flat_map_concat_map.
  apply flat_map_ext_Forall. exact IH.
Qed.

Lemma depths_shift (d : nat) (m : markup) :
  m_depths (shift d m) = map (Nat.add d) (m_depths m).
Proof.
  induction m as [open depth name children IH|href active depth name] using markup_ind;
    simpl; [|reflexivity].
  f_equal. rewrite map_flat_map.
  rewrite flat_map_concat_map, map_map, <- flat_map_concat_map.
  apply flat_map_ext_Forall. exact IH.
Qed.

(** Rendering at a depth is rendering at depth zero and raising the depths:
    the depth argument reaches nothing but the depth of the elements. *)
Lemma nav_view_shift (node : Node) (current_md : option Path) (root : Path) :
  forall depth,
    nav_view node current_md root depth =
    (m <- nav_view node current_md root 0 ;; Ok (shift depth m)).
Proof.
  induction node as [name path is_dir cs IH] using Node_ind; intros depth.
  destruct is_dir.
  - rewrite !nav_view_dir.
    rewrite (mapM_ext (fun c => nav_view c current_md root (S depth))
               (fun c => m <- nav_view c current_md root 0 ;; Ok (shift (S depth) m))).
    2:{ eapply Forall_impl; [|exact IH]. intros c Hc. apply Hc. }
    rewrite (mapM_ext (fun c => nav_view c current_md root 1)
               (fun c => m <- nav_view c current_md root 0 ;; Ok (shift 1 m))).
    2:{ eapply Forall_impl; [|exact IH]. intros c Hc. apply Hc. }
    rewrite !mapM_bind_map.
    destruct (mapM (fun c => nav_view c current_md root 0) cs) as [ms|e]; simpl;
      [|reflexivity].
    rewrite Nat.add_0_r, map_map. do 2 f_equal.
    apply map_ext. intros m. rewrite shift_shift. f_equal. lia.
  - cbn [nav_view].
    destruct (PurePath.relative_to path root) as [rel|]; [|reflexivity]; cbn [bind].
    destruct (PurePath.with_suffix rel ".html") as [h|]; [|reflexivity]; cbn [bind].
    destruct (is_active rel current_md root) as [a|]; [|reflexivity]; cbn [bind shift].
    now rewrite Nat.add_0_r.
Qed.

Lemma nav_view_levels (node : Node) (current_md : option Path) (root : Path) :
  forall m, nav_view node current_md root 0 = Ok m -> m_depths m = levels node.
Proof.
  induction node as [name path is_dir cs IH] using Node_ind; intros m Hm.
  destruct is_dir.
  - rewrite nav_view_dir in Hm. apply bind_Ok in Hm as [ms [Hms Hm]].
    injection Hm as <-. simpl. f_equal.
    rewrite (mapM_ext _ (fun c => m <- nav_view c current_md root 0 ;; Ok (shift 1 m)))
      in Hms by (apply Forall_forall; intros; apply nav_view_shift).
    rewrite mapM_bind_map in Hms. apply bind_Ok in Hms as [ms0 [Hms0 Hms]].
    injection Hms as <-. apply mapM_Forall2 in Hms0.
    rewrite map_flat_map.
    rewrite flat_map_concat_map, map_map, <- flat_map_concat_map.
    apply flat_map_Forall2, Forall2_flip.
    eapply Forall2_impl_in; [|exact Hms0].
    intros c mc Hc Hv. cbv beta in Hv. rewrite depths_shift.
    rewrite Forall_forall in IH. now rewrite (IH c Hc mc Hv).
  - cbn [nav_view] in Hm.
    apply bind_Ok in Hm as [rel [_ Hm]].
    apply bind_Ok in Hm as [h [_ Hm]].
    apply bind_Ok in Hm as [a [_ Hm]]. now injection Hm as <-.
Qed.

Open Scope string_scope.

(* ================================================================== *)
(** * The navigation renderer: the claims *)

Open Scope list_scope.

(** C8.  Two renderings of one node for one current document and one root
    that differ in the depth argument alone either both raise the same
    exception or return the serialisations of two structures that are equal
    once the depths are erased: the link targets, the active markers and the
    disclosure states are the same, and the depth reaches only the value the
    indentation of an element is computed from, which is the depth argument
    plus the nesting level of the element (times the unit of [indent_px] in
    [style_attr]). *)
Theorem depth_only_indents (node : Node) (current_md : option Path) (root : Path)
  (d1 d2 : nat) :
  (exists m1 m2,
      nav_view node current_md root d1 = Ok m1
      /\ nav_view node current_md root d2 = Ok m2
      /\ render_nav node current_md root d1 = Ok (to_html m1)
      /\ render_nav node current_md root d2 = Ok (to_html m2)
      /\ erase_depth m1 = erase_depth m2
      /\ m_links m1 = m_links m2
      /\ m_opens m1 = m_opens m2
      /\ m_depths m1 = map (Nat.add d1) (levels node)
      /\ m_depths m2 = map (Nat.add d2) (levels node))
  \/ (exists e,
         render_nav node current_md root d1 = Raise e
         /\ render_nav node current_md root d2 = Raise e).
Proof.
  rewrite !render_nav_view.
  rewrite (nav_view_shift node current_md root d1).
  rewrite (nav_view_shift node current_md root d2).
  destruct (nav_view node current_md root 0) as [m0|e] eqn:E0; cbn [bind].
  - left. exists (shift d1 m0), (shift d2 m0).
    repeat split; try reflexivity.
    + now rewrite !erase_shift.
    + now rewrite !links_shift.
    + now rewrite !opens_shift.
    + now rewrite depths_shift, (nav_view_levels _ _ _ _ E0).
    + now rewrite depths_shift, (nav_view_levels _ _ _ _ E0).
  - right. now exists e.
Qed.

(** C1.  For a node whose documents lie under the root and a current
    document under the root, the renderer returns the serialisation of a
    structure in which the container of every directory node of the tree is
    open exactly when the path of the current document lies under the path
    of that directory (the path itself included), that is, extends it.  When
    the tree mirrors a directory and the current document is one of its
    documents, a container is open exactly when it holds the active link, so
    all containers around the active link are open and no other is. *)
Theorem open_branch (root : Path) (node : Node) (cur : Path) (depth : nat) :
  docs_under root node = true ->
  PurePath.is_relative_to cur root = true ->
  exists m,
    nav_view node (Some cur) root depth = Ok m
    /\ render_nav node (Some cur) root depth = Ok (to_html m)
    /\ m_opens m = map (PurePath.is_relative_to cur) (dir_paths node)
    /\ (forall p, PurePath.is_relative_to cur p = true <-> exists r, cur = p ++ r)
    /\ (well_formed node -> In cur (doc_paths node) -> branch_ok m = true).
Proof.
  intros Hdocs Hcur.
  destruct (nav_view_shows root (Some cur) node Hcur Hdocs depth) as [m [Hm Hs]].
  exists m. rewrite render_nav_view, Hm. repeat split.
  - apply Hs.
  - apply is_relative_to_inv.
  - intros [r ->]. apply is_relative_to_app.
  - intros Hwf Hin.
    now apply (nav_view_branch root cur node Hcur Hwf Hdocs (or_introl Hin) depth m Hm).
Qed.


Lemma open_branch_witness :
  exists m,
    render_nav (build_tree demo_root demo_entries) (Some demo_cur) demo_root 0
    = Ok (to_html m)
    /\ m_opens m = [true; true; true; true; false; false]
    /\ branch_ok m = true.
Proof.
  destruct (open_branch demo_root (build_tree demo_root demo_entries) demo_cur 0)
    as [m [_ [H1 [H2 [_ H4]]]]]; [reflexivity|reflexivity|].
  exists m. split; [exact H1|]. split; [rewrite H2; reflexivity|].
  apply H4.
  - apply build_tree_well_formed. reflexivity.
  - vm_compute. tauto.
Defined.





(** The navigation of a page shows the children of the tree. *)
Lemma nav_html_shows (root : Path) (tree : Node) (cur : Path) :
  PurePath.is_relative_to cur root = true ->
  docs_under root tree = true ->
  node_is_dir tree = true ->
  exists ms,
    nav_html tree cur root = Ok (String.concat Str.nl (map to_html ms))
    /\ Forall2 (fun c m => nav_view c (Some cur) root 0 = Ok m
                           /\ shows root (Some cur) 0 c m) (node_children tree) ms.
Proof.
  intros Hcur Hdocs Hdir. destruct tree as [name path is_dir cs]. simpl in Hdir; subst.
  unfold docs_under in Hdocs. cbn [doc_paths] in Hdocs.
  apply forallb_flat_map in Hdocs.
  unfold nav_html. cbn [node_children].
  rewrite (mapM_ext _ (fun c => m <- nav_view c (Some cur) root 0 ;; Ok (to_html m)))
    by (apply Forall_forall; intros; apply render_nav_view).
  rewrite mapM_bind_map.
  destruct (mapM_Forall2_total (fun c => nav_view c (Some cur) root 0)
              (fun c m => nav_view c (Some cur) root 0 = Ok m
                          /\ shows root (Some cur) 0 c m) cs) as [ms [Hms HF]].
  { eapply Forall_impl; [|exact Hdocs]. intros c Hc.
    destruct (nav_view_shows root (Some cur) c Hcur Hc 0) as [m [Hm Hs]].
    exists m. auto. }
  exists ms. rewrite Hms. split; [reflexivity|exact HF].
Qed.


(** The text of the link of a document under the root: the marker of the
    active link, [ class="active"], stands between the target and the
    indentation in the link of the current document, and in no other. *)
Lemma render_nav_link (root cur : Path) (name : string) (p : Path) (depth : nat) :
  PurePath.is_relative_to cur root = true ->
  doc_ok root p = true ->
  render_nav (mkNode name p false []) (Some cur) root depth
  = Ok ("<a href=" ++ Str.q ++ href_of root p ++ Str.q
        ++ (if PurePath.eqb p cur
            then " class=" ++ Str.q ++ "active" ++ Str.q else "")
        ++ style_attr depth
        ++ " title=" ++ Str.q ++ name ++ Str.q ++ ">" ++ name ++ "</a>")%string.
Proof.
  intros Hcur Hdoc. unfold doc_ok in Hdoc.
  apply andb_true_iff in Hdoc as [Hrel Hname]. apply negb_true_iff in Hname.
  cbn [render_nav]. unfold PurePath.relative_to at 1. rewrite Hrel; cbn [bind].
  fold (rel_of root p). unfold PurePath.with_suffix. rewrite Hname; cbn [bind].
  rewrite (is_active_under root (Some cur) p) by exact Hcur; cbn [bind].
  unfold class_attr, active_of, href_of.
  replace (PurePath.eqb (rel_of root p) (rel_of root cur)) with (PurePath.eqb p cur);
    [reflexivity|].
  destruct (PurePath.eqb p cur) eqn:E.
  - apply eqb_path_eq in E as ->. symmetry. apply eqb_path_refl.
  - destruct (PurePath.eqb (rel_of root p) (rel_of root cur)) eqn:E'; [|reflexivity].
    apply eqb_path_eq in E'. apply (rel_of_inj root p cur Hrel Hcur) in E'.
    subst p. now rewrite eqb_path_refl in E.
Qed.



Open Scope string_scope.

(* ------------------------------------------------------------------ *)
(** ** Text *)

Lemma append_assoc (s1 s2 s3 : string) : (s1 ++ s2) ++ s3 = s1 ++ (s2 ++ s3).
Proof. induction s1 as [|c s1 IH]; simpl; [reflexivity|]. now rewrite IH. Qed.

Lemma append_nil_r (s : string) : s ++ EmptyString = s.
Proof. induction s as [|c s IH]; simpl; [reflexivity|]. now rewrite IH. Qed.

Lemma length_append (s1 s2 : string) :
  String.length (s1 ++ s2) = String.length s1 + String.length s2.
Proof. induction s1 as [|c s1 IH]; simpl; [reflexivity|]. now rewrite IH. Qed.


Lemma format_TEMPLATE_title (title nav body base_href : string) :
  exists post,
    format TEMPLATE (page_fields title nav body base_href)
    = page_before_title base_href ++ "<title>" ++ title ++ "</title>" ++ post.
Proof.
  unfold format, TEMPLATE.
  cbn [map page_fields String.eqb Ascii.eqb Bool.eqb String.concat].
  eexists.
  unfold page_before_title, Str.lines.
  cbn [String.concat].
  repeat rewrite append_assoc.
  cbn [append]. 
  repeat (rewrite <- append_assoc). 
  repeat rewrite append_assoc.
  reflexivity.
Qed.

(* ------------------------------------------------------------------ *)
(** ** Links and the base reference *)

Open Scope list_scope.

Lemma page_dest_joinpath (dir rel : Path) (nm : string) :
  page_dest dir (dir ++ rel ++ [nm])
  = PurePath.joinpath rel (PurePath.stem_of nm ++ ".html")%string.
Proof.
  unfold page_dest. rewrite rel_of_app.
  change (rel ++ [nm]) with (PurePath.joinpath rel nm).
  unfold PurePath.stem. now rewrite parent_joinpath, name_joinpath.
Qed.

Lemma page_dest_nonempty (dir p : Path) : page_dest dir p <> [].
Proof. unfold page_dest, PurePath.joinpath. now destruct (PurePath.parent _). Qed.

Open Scope string_scope.

Lemma all_chars_impl (P Q : ascii -> bool) (s : string) :
  (forall c, P c = true -> Q c = true) ->
  all_chars P s = true -> all_chars Q s = true.
Proof.
  intros HPQ. induction s as [|c s IH]; [reflexivity|].
  cbn [all_chars]. intros [Hc Hs]%andb_true_iff.
  now rewrite (HPQ c Hc), IH.
Qed.

Lemma all_chars_append (P : ascii -> bool) (s t : string) :
  all_chars P (s ++ t) = all_chars P s && all_chars P t.
Proof.
  induction s as [|c s IH]; [reflexivity|].
  cbn [append all_chars]. now rewrite IH, andb_assoc.
Qed.

Lemma all_chars_concat (P : ascii -> bool) (sep : string) (l : list string) :
  all_chars P sep = true ->
  forallb (all_chars P) l = true ->
  all_chars P (String.concat sep l) = true.
Proof.
  intros Hsep. induction l as [|x l IH]; [reflexivity|].
  cbn [forallb]. intros [Hx Hl]%andb_true_iff.
  destruct l as [|y l]; [exact Hx|].
  change (String.concat sep (x :: y :: l))
    with (x ++ sep ++ String.concat sep (y :: l)).
  rewrite !all_chars_append, Hx, Hsep.
  now rewrite (IH Hl).
Qed.

Lemma cut_at_none (c : ascii) (s : string) :
  has_char c s = false -> cut_at c s = (s, None).
Proof.
  unfold has_char. intros H. apply negb_false_iff in H.
  induction s as [|a s IH]; [reflexivity|].
  cbn [all_chars] in H. apply andb_true_iff in H as [Ha Hs].
  apply negb_true_iff in Ha. cbn [cut_at]. now rewrite Ha, (IH Hs).
Qed.

Lemma split_on_none (c : ascii) (s : string) :
  has_char c s = false -> split_on c s = [s].
Proof.
  unfold has_char. intros H. apply negb_false_iff in H.
  induction s as [|a s IH]; [reflexivity|].
  cbn [all_chars] in H. apply andb_true_iff in H as [Ha Hs].
  apply negb_true_iff in Ha. cbn [split_on]. now rewrite Ha, (IH Hs).
Qed.

Lemma split_on_app (c : ascii) (s r : string) :
  has_char c s = false ->
  split_on c (s ++ String c r) = s :: split_on c r.
Proof.
  unfold has_char. intros H. apply negb_false_iff in H.
  induction s as [|a s IH].
  - cbn [append split_on]. now rewrite Ascii.eqb_refl.
  - cbn [all_chars] in H. apply andb_true_iff in H as [Ha Hs].
    apply negb_true_iff in Ha. cbn [append split_on]. now rewrite Ha, (IH Hs).
Qed.

(** The segments of a path printed with slashes are its parts. *)
Lemma split_on_concat (l : list string) :
  l <> [] ->
  forallb (fun nm => negb (has_char "/" nm)) l = true ->
  split_on "/" (String.concat "/" l) = l.
Proof.
  induction l as [|x l IH]; [congruence|]. intros _.
  cbn [forallb]. intros [Hx Hl]%andb_true_iff. apply negb_true_iff in Hx.
  destruct l as [|y l].
  - cbn [String.concat]. now apply split_on_none.
  - change (String.concat "/" (x :: y :: l))
      with (x ++ String "/" (String.concat "/" (y :: l))).
    rewrite split_on_app by exact Hx. f_equal. apply IH; [discriminate|exact Hl].
Qed.

Lemma plain_char_not (c a : ascii) :
  plain_char c = false -> plain_char a = true -> negb (Ascii.eqb a c) = true.
Proof.
  intros Hc Ha. apply negb_true_iff. destruct (Ascii.eqb a c) eqn:E; [|reflexivity].
  apply Ascii.eqb_eq in E. subst a. congruence.
Qed.

Lemma plain_name_chars (c : ascii) (nm : string) :
  plain_char c = false -> plain_name nm = true -> has_char c nm = false.
Proof.
  intros Hc H. unfold plain_name in H.
  apply andb_true_iff in H as [H _]. apply andb_true_iff in H as [H _].
  apply andb_true_iff in H as [H _].
  unfold has_char. apply negb_false_iff.
  eapply all_chars_impl; [|exact H]. intros a. now apply plain_char_not.
Qed.

Lemma plain_names_chars (c : ascii) (l : list string) :
  plain_char c = false -> forallb plain_name l = true ->
  forallb (fun nm => negb (has_char c nm)) l = true.
Proof.
  intros Hc H. rewrite forallb_forall in *. intros nm Hnm.
  now rewrite (plain_name_chars c nm Hc (H nm Hnm)).
Qed.

Lemma plain_text_chars (c : ascii) (l : list string) :
  plain_char c = false -> Ascii.eqb "/" c = false ->
  forallb plain_name l = true ->
  has_char c (String.concat "/" l) = false.
Proof.
  intros Hc Hs H. unfold has_char. apply negb_false_iff.
  apply all_chars_concat.
  - cbn [all_chars]. now rewrite Hs.
  - rewrite forallb_forall in *. intros nm Hnm.
    pose proof (plain_name_chars c nm Hc (H nm Hnm)) as E.
    unfold has_char in E. now apply negb_false_iff in E.
Qed.

(** A plain name is its own segment. *)
Lemma pct_encode_plain (nm : string) : plain_name nm = true -> pct_encode nm = nm.
Proof.
  unfold plain_name. intros H.
  apply andb_true_iff in H as [H _]. apply andb_true_iff in H as [H _].
  apply andb_true_iff in H as [H _].
  induction nm as [|c nm IH]; [reflexivity|].
  cbn [all_chars] in H. apply andb_true_iff in H as [Hc Hnm].
  unfold plain_char in Hc. apply andb_true_iff in Hc as [Hc _].
  cbn [pct_encode]. unfold pct_encode_char. rewrite Hc, (IH Hnm). reflexivity.
Qed.

Lemma map_pct_encode_plain (l : list string) :
  forallb plain_name l = true -> map pct_encode l = l.
Proof.
  induction l as [|x l IH]; [reflexivity|].
  cbn [forallb map]. intros [Hx Hl]%andb_true_iff.
  now rewrite (pct_encode_plain x Hx), (IH Hl).
Qed.

(** Plain names are entered one after the other. *)
Lemma remove_dots_plain (segs : list string) :
  forall out, forallb plain_name segs = true -> remove_dots out segs = (out ++ segs)%list.
Proof.
  induction segs as [|x segs IH]; intros out H.
  - now rewrite app_nil_r.
  - cbn [forallb] in H. apply andb_true_iff in H as [Hx Hs].
    unfold plain_name in Hx.
    apply andb_true_iff in Hx as [Hx H2]. apply andb_true_iff in Hx as [_ H1].
    apply negb_true_iff in H1, H2.
    cbn [remove_dots]. rewrite H1, H2, (IH _ Hs), <- app_assoc. reflexivity.
Qed.

(** The reference of a path of plain names has these parts. *)
Lemma parse_plain_path (l : list string) :
  l <> [] -> forallb plain_name l = true ->
  parse_reference (String.concat "/" l) = Some (location l).
Proof.
  intros Hne H. unfold parse_reference.
  rewrite cut_at_none by (now apply plain_text_chars).
  rewrite cut_at_none by (now apply plain_text_chars).
  rewrite split_on_concat by (try assumption; now apply plain_names_chars).
  destruct l as [|first l]; [congruence|].
  cbn [forallb] in H. apply andb_true_iff in H as [Hf Hl].
  assert (Hc : has_char ":" first = false) by (now apply plain_name_chars).
  assert (Hfe : String.eqb first "" = false).
  { unfold plain_name in Hf.
    apply andb_true_iff in Hf as [Hf _]. apply andb_true_iff in Hf as [Hf _].
    apply andb_true_iff in Hf as [_ Hf]. now apply negb_true_iff in Hf. }
  assert (He : String.eqb (String.concat "/" (first :: l)) "" = false).
  { destruct first as [|a first]; [discriminate Hfe|].
    destruct l; reflexivity. }
  rewrite He. cbn [hd]. rewrite Hc, Hfe. reflexivity.
Qed.

(** The link to a page at a path of plain names, read on a page whose base
    is the root of the site, names the address of that page. *)
Lemma resolve_plain_path (site : list string) (l : list string) :
  l <> [] -> forallb plain_name l = true ->
  resolve_reference (site ++ [EmptyString])%list (String.concat "/" l)
  = Some (file_location site l).
Proof.
  intros Hne H. unfold resolve_reference.
  rewrite (parse_plain_path l Hne H). unfold file_location, location.
  cbn [ref_segments ref_query ref_fragment].
  rewrite removelast_last, (map_pct_encode_plain l H).
  destruct l as [|x l]; [congruence|].
  now rewrite (remove_dots_plain (x :: l) site H).
Qed.

Lemma repeat_up_chars (c : ascii) (n : nat) :
  Ascii.eqb "." c = false -> Ascii.eqb "/" c = false ->
  has_char c (Str.repeat "../" n) = false.
Proof.
  intros Hd Hs. unfold has_char. apply negb_false_iff.
  induction n as [|n IH]; [reflexivity|].
  cbn [Str.repeat append all_chars]. now rewrite Hd, Hs, IH.
Qed.

Lemma split_on_repeat_up (n : nat) :
  split_on "/" (Str.repeat "../" n) = (List.repeat ".." n ++ [EmptyString])%list.
Proof.
  induction n as [|n IH]; [reflexivity|].
  cbn [Str.repeat append List.repeat app].
  change (split_on "/" (String "." (String "." (String "/" (Str.repeat "../" n)))))
    with (match (match EmptyString :: split_on "/" (Str.repeat "../" n) with
                 | h :: t => String "." h :: t
                 | [] => ["."]
                 end) with
          | h :: t => String "." h :: t
          | [] => ["."]
          end).
  now rewrite IH.
Qed.

Lemma remove_dots_up (pdirs : list string) :
  forall site,
    remove_dots (site ++ pdirs)%list
      (List.repeat ".." (List.length pdirs) ++ [EmptyString])%list
    = (site ++ [EmptyString])%list.
Proof.
  induction pdirs as [|x pdirs IH] using rev_ind; intros site.
  - now rewrite app_nil_r.
  - rewrite length_app, Nat.add_comm. cbn [List.length Nat.add List.repeat app].
    cbn [remove_dots String.eqb Ascii.eqb Bool.eqb].
    rewrite app_assoc, removelast_last. specialize (IH site).
    destruct (List.repeat ".." (List.length pdirs) ++ [EmptyString])%list eqn:E.
    + destruct (List.repeat ".." (List.length pdirs)); discriminate E.
    + exact IH.
Qed.

(** The base reference of a page, read at the address of the page, names
    the root of the site. *)
Lemma resolve_base_href (site pdirs : list string) (nm : string) :
  resolve_reference (site ++ pdirs ++ [nm])%list (base_href_of (List.length pdirs))
  = Some (location (site ++ [EmptyString])%list).
Proof.
  unfold resolve_reference, parse_reference, base_href_of.
  destruct (List.length pdirs) as [|k] eqn:Hlen.
  - destruct pdirs; [|discriminate].
    cbn -[remove_dots removelast]. rewrite removelast_last. reflexivity.
  - change (0 <? S k)%nat with true. cbv iota.
    rewrite !cut_at_none by (now apply repeat_up_chars).
    replace (String.eqb (Str.repeat "../" (S k)) "") with false by reflexivity.
    rewrite split_on_repeat_up.
    change (hd EmptyString (List.repeat ".." (S k) ++ [EmptyString])%list) with "..".
    replace (has_char ":" ".." || _) with false by reflexivity.
    cbn [ref_segments ref_query ref_fragment List.repeat app].
    change (".." :: (List.repeat ".." k ++ [EmptyString])%list)
      with (List.repeat ".." (S k) ++ [EmptyString])%list.
    rewrite app_assoc, removelast_last, <- Hlen, remove_dots_up.
    reflexivity.
Qed.

(** The links of the navigation of a page are those of the documents of
    the tree. *)
Lemma nav_links (root : Path) (tree : Node) (cur : Path) :
  PurePath.is_relative_to cur root = true ->
  docs_under root tree = true ->
  node_is_dir tree = true ->
  exists ms,
    nav_html tree cur root = Ok (String.concat Str.nl (map to_html ms))
    /\ flat_map m_links ms = map (link_of root (Some cur)) (doc_paths tree).
Proof.
  intros Hcur Hdocs Hdir.
  destruct (nav_html_shows root tree cur Hcur Hdocs Hdir) as [ms [Hnav HF]].
  exists ms. split; [exact Hnav|].
  destruct tree as [name path is_dir cs]. simpl in Hdir; subst is_dir.
  cbn [node_children doc_paths] in HF |- *.
  rewrite map_flat_map. apply flat_map_Forall2, Forall2_flip.
  eapply Forall2_impl; [|exact HF]. intros c m [_ Hs]. apply Hs.
Qed.

Open Scope list_scope.

(** C2.  The page of the document at the directories [pdirs] below the
    source directory is written at the same place, with the suffix replaced,
    and its base reference is [./] when [pdirs] is empty and one [../] for
    each directory of [pdirs] otherwise.  The links of its navigation are
    those of the documents of the tree, and the link of a document is its
    path below the source directory with the suffix replaced by [.html] and
    the parts joined by slashes.  Read at the address of the page, the base
    reference names the root of the site, whatever the number of
    directories; read from there, the link of a document whose page is at a
    path of plain names names the address of that page, and the reference of
    the template to the style sheet names the place where a run writes
    it. *)
Theorem link_and_base (convert : string -> string) (input_dir : Path) (tree : Node)
  (pdirs : list string) (pname : string) (e : entry) (text : string)
  (site : list string) :
  node_is_dir tree = true ->
  docs_under input_dir tree = true ->
  pname <> EmptyString ->
  read_text e = Ok text ->
  let md_path := input_dir ++ pdirs ++ [pname] in
  let base_href := match List.length pdirs with
                   | O => "./"%string
                   | S _ => Str.repeat "../" (List.length pdirs)
                   end in
  exists title nav ms post,
    write_page convert input_dir tree (md_path, e)
    = Ok (WriteText (pdirs ++ [html_name pname])
            (format TEMPLATE
               (page_fields title nav (md_to_html convert text) base_href)))
    /\ format TEMPLATE (page_fields title nav (md_to_html convert text) base_href)
       = (page_before_title base_href ++ "<title>" ++ title ++ "</title>" ++ post)%string
    /\ nav = String.concat Str.nl (map to_html ms)
    /\ map fst (flat_map m_links ms)
       = map (fun p => PurePath.as_posix (page_dest input_dir p)) (doc_paths tree)
    /\ (forall tdirs tname name depth,
           In (input_dir ++ tdirs ++ [tname]) (doc_paths tree) ->
           exists active,
             render_nav (mkNode name (input_dir ++ tdirs ++ [tname]) false [])
               (Some md_path) input_dir depth
             = Ok (to_html (Link (String.concat "/" (tdirs ++ [html_name tname]))
                              active depth name))
             /\ page_dest input_dir (input_dir ++ tdirs ++ [tname])
                = tdirs ++ [html_name tname])
    /\ resolve_reference (site ++ pdirs ++ [html_name pname]) base_href
       = Some (location (site ++ [EmptyString]))
    /\ (forall p,
           In p (doc_paths tree) ->
           forallb plain_name (page_dest input_dir p) = true ->
           resolve_reference (site ++ [EmptyString])
             (PurePath.as_posix (page_dest input_dir p))
           = Some (file_location site (page_dest input_dir p))
           /\ file_location site (page_dest input_dir p)
              = location (site ++ page_dest input_dir p))
    /\ resolve_reference (site ++ [EmptyString]) "static/style.css"
       = Some (location (site ++ ["static"; "style.css"]%string)).
Proof.
  intros Hdir Hdocs Hpname Hread md_path base_href.
  assert (Hcur : PurePath.is_relative_to md_path input_dir = true)
    by apply is_relative_to_app.
  destruct (nav_links input_dir tree md_path Hcur Hdocs Hdir) as [ms [Hnav Hlinks]].
  assert (Hbase : base_href_of (PurePath.len_parts (pdirs ++ [pname]) - 1) = base_href).
  { unfold PurePath.len_parts. rewrite length_app. cbn [List.length].
    rewrite Nat.add_sub. unfold base_href_of, base_href.
    now destruct (List.length pdirs). }
  destruct (format_TEMPLATE_title
              (page_title (md_to_html convert text) (PurePath.stem md_path))
              (String.concat Str.nl (map to_html ms)) (md_to_html convert text)
              base_href) as [post Hpost].
  exists (page_title (md_to_html convert text) (PurePath.stem md_path)),
         (String.concat Str.nl (map to_html ms)), ms, post.
  split; [|split; [exact Hpost|split; [reflexivity|split; [|split; [|split; [|split]]]]]].
  - unfold write_page. cbn [fst snd]. unfold md_path.
    rewrite relative_to_app; cbn [bind].
    change (pdirs ++ [pname]) with (PurePath.joinpath pdirs pname).
    rewrite with_suffix_joinpath by exact Hpname; cbn [bind].
    rewrite Hread; cbn [bind].
    change (PurePath.joinpath pdirs pname) with (pdirs ++ [pname]).
    fold md_path. rewrite Hnav; cbn [bind]. rewrite Hbase. reflexivity.
  - rewrite Hlinks, map_map. reflexivity.
  - intros tdirs tname name depth Hin.
    assert (Hok : doc_ok input_dir (input_dir ++ tdirs ++ [tname]) = true).
    { unfold docs_under in Hdocs. rewrite forallb_forall in Hdocs. now apply Hdocs. }
    assert (Hd : page_dest input_dir (input_dir ++ tdirs ++ [tname])
                 = tdirs ++ [html_name tname]) by apply page_dest_joinpath.
    eexists. split; [|exact Hd].
    refine (eq_trans (render_nav_link input_dir md_path name _ depth Hcur Hok) _).
    unfold href_of. fold (page_dest input_dir (input_dir ++ tdirs ++ [tname])).
    rewrite Hd. cbn [to_html]. unfold PurePath.as_posix.
    destruct (tdirs ++ [html_name tname]) eqn:E; [|reflexivity].
    now destruct tdirs.
  - replace base_href with (base_href_of (List.length pdirs))
      by (unfold base_href_of, base_href; now destruct (List.length pdirs)).
    apply resolve_base_href.
  - intros p Hp Hplain. split.
    + unfold PurePath.as_posix.
      destruct (page_dest input_dir p) eqn:E; [now apply page_dest_nonempty in E|].
      rewrite <- E in *. apply resolve_plain_path; [apply page_dest_nonempty|exact Hplain].
    + unfold file_location. now rewrite (map_pct_encode_plain _ Hplain).
  - apply (resolve_plain_path site ["static"; "style.css"]%string);
      [discriminate|reflexivity].
Qed.

Lemma link_and_base_witness :
  exists title post,
    write_page (fun s => s) demo_root (build_tree demo_root demo_entries)
      (demo_cur, File "doc.md" "text")
    = Ok (WriteText ["a"; "b"; "c"; "doc.html"]%string
            (page_before_title "../../../" ++ "<title>" ++ title ++ "</title>" ++ post)%string)
    /\ resolve_reference ["kb"; "a"; "b"; "c"; "doc.html"]%string "../../../"
       = Some (location ["kb"; EmptyString]%string)
    /\ resolve_reference ["kb"; EmptyString]%string "a/b/notes.html"
       = Some (location ["kb"; "a"; "b"; "notes.html"]%string)
    /\ resolve_reference ["kb"; EmptyString]%string "static/style.css"
       = Some (location ["kb"; "static"; "style.css"]%string).
Proof.
  destruct (link_and_base (fun s => s) demo_root (build_tree demo_root demo_entries)
              ["a"; "b"; "c"]%string "doc.md"%string (File "doc.md" "text") "text"%string
              ["kb"%string] eq_refl (build_tree_docs_under _ _))
    as [title [nav [ms [post [H1 [H2 [_ [_ [_ [H6 [H7 H8]]]]]]]]]]];
    [discriminate|reflexivity|].
  exists title, post. split; [|split; [exact H6|split; [|exact H8]]].
  - cbv zeta in H1, H2. rewrite H2 in H1. exact H1.
  - destruct (H7 ["content"; "a"; "b"; "notes.md"]%string) as [E1 E2].
    + vm_compute. tauto.
    + reflexivity.
    + rewrite E2 in E1. exact E1.
Defined.

(** C2 as it is stated fails: the link of the document [c#.md] is the text
    [c#.html], of which the reader takes [c] for the path and [.html] for
    the fragment, while the page is the file [c#.html], at the address
    [c%23.html]. *)
Lemma link_counterexample :
  doc_paths (build_tree demo_root [File "c#.md" "# C sharp"])
  = [["content"; "c#.md"]%string]
  /\ href_of demo_root ["content"; "c#.md"]%string = "c#.html"%string
  /\ resolve_reference [EmptyString] "c#.html"
     = Some (mkReference ["c"%string] None (Some ".html"%string))
  /\ file_location [] (page_dest demo_root ["content"; "c#.md"]%string)
     = location ["c%23.html"%string]
  /\ ~ links_resolve.
Proof.
  split; [reflexivity|]. split; [reflexivity|]. split; [reflexivity|].
  split; [reflexivity|].
  intros H. specialize (H demo_root [] ["content"; "c#.md"]%string eq_refl).
  vm_compute in H. discriminate.
Qed.

Open Scope string_scope.

(* ------------------------------------------------------------------ *)
(** ** Names and titles in the markup *)

(** C10.  The name of a node is pasted into the markup as it is, whatever
    characters it holds: the rendering of a document node ends with the name
    as the value of the title attribute and as the text of the link, the
    rendering of a directory node starts with a line that holds it as the
    title attribute and the text of the summary, and the page that is written
    for a document holds its title, the text taken from the first heading or
    the stem of the file name, between the title tags as it is. *)
Theorem names_verbatim (name : string) (path : Path) (cs : list Node)
  (current_md : option Path) (root : Path) (depth : nat) :
  (forall out,
      render_nav (mkNode name path false cs) current_md root depth = Ok out ->
      exists href active,
        out = "<a href=" ++ Str.q ++ href ++ Str.q ++ class_attr active
              ++ style_attr depth
              ++ " title=" ++ Str.q ++ name ++ Str.q ++ ">" ++ name ++ "</a>")
  /\ (forall out,
         render_nav (mkNode name path true cs) current_md root depth = Ok out ->
         exists rest,
           out = String.concat Str.nl
                   (("<details" ++ open_attr path current_md ++ style_attr depth
                     ++ "><summary title=" ++ Str.q ++ name ++ Str.q ++ ">"
                     ++ name ++ "</summary>") :: rest))
  /\ (forall convert input_dir tree md_path e o,
         write_page convert input_dir tree (md_path, e) = Ok o ->
         exists dest text base_href post,
           read_text e = Ok text
           /\ o = WriteText dest
                    (page_before_title base_href ++ "<title>"
                     ++ page_title (md_to_html convert text) (PurePath.stem md_path)
                     ++ "</title>" ++ post)).
Proof.
  repeat split.
  - intros out H. cbn [render_nav] in H.
    apply bind_Ok in H as [rel [_ H]].
    apply bind_Ok in H as [h [_ H]].
    apply bind_Ok in H as [a [_ H]]. injection H as <-.
    now exists (PurePath.as_posix h), a.
  - intros out H. rewrite render_nav_dir in H.
    apply bind_Ok in H as [parts [_ H]]. injection H as <-.
    now exists (parts ++ ["</details>"])%list.
  - intros convert input_dir tree md_path e o H. unfold write_page in H.
    cbn [fst snd] in H.
    apply bind_Ok in H as [rel [_ H]].
    apply bind_Ok in H as [dest [_ H]].
    apply bind_Ok in H as [text [Htext H]].
    apply bind_Ok in H as [nav [_ H]]. injection H as <-.
    destruct (format_TEMPLATE_title
                (page_title (md_to_html convert text) (PurePath.stem md_path))
                nav (md_to_html convert text)
                (base_href_of (PurePath.len_parts rel - 1))) as [post Hpost].
    exists dest, text, (base_href_of (PurePath.len_parts rel - 1)), post.
    split; [exact Htext|]. now rewrite Hpost.
Qed.

Lemma names_verbatim_witness :
  (exists href active,
      "<a href=" ++ Str.q ++ "a.html" ++ Str.q
      ++ " title=" ++ Str.q ++ "<b>&" ++ Str.q ++ Str.q ++ ">" ++ "<b>&" ++ Str.q ++ "</a>"
      = "<a href=" ++ Str.q ++ href ++ Str.q ++ class_attr active ++ style_attr 0
        ++ " title=" ++ Str.q ++ ("<b>&" ++ Str.q) ++ Str.q ++ ">"
        ++ ("<b>&" ++ Str.q) ++ "</a>")
  /\ (exists dest text base_href post,
         read_text (File "<i>.md" "plain") = Ok text
         /\ WriteText ["<i>.html"]
              (format TEMPLATE
                 (page_fields "<i>" ("<a href=" ++ Str.q ++ "<i>.html" ++ Str.q
                                     ++ " class=" ++ Str.q ++ "active" ++ Str.q
                                     ++ " title=" ++ Str.q ++ "<i>" ++ Str.q ++ "><i></a>")
                    "plain" "./"))
            = WriteText dest
                (page_before_title base_href ++ "<title>"
                 ++ page_title (md_to_html (fun s => s) text) (PurePath.stem ["content"; "<i>.md"])
                 ++ "</title>" ++ post)).
Proof.
  pose proof (names_verbatim ("<b>&" ++ Str.q) ["content"; "a.md"] [] None ["content"] 0)
    as [H1 [_ H3]].
  split.
  - apply H1. reflexivity.
  - apply (H3 (fun s => s) ["content"] (build_tree ["content"] [File "<i>.md" "plain"])
             ["content"; "<i>.md"] (File "<i>.md" "plain")).
    reflexivity.
Defined.

(* ------------------------------------------------------------------ *)
(** ** The order of the children *)

Open Scope list_scope.

Lemma StronglySorted_app {A : Type} (R : A -> A -> Prop) (l1 l2 : list A) :
  StronglySorted R l1 -> StronglySorted R l2 ->
  (forall a b, In a l1 -> In b l2 -> R a b) ->
  StronglySorted R (l1 ++ l2).
Proof.
  induction 1 as [|x l1 Hl1 IH Hx]; simpl; intros H2 H12; [exact H2|].
  constructor.
  - apply IH; [exact H2|]. intros a b Ha. apply H12. now right.
  - apply Forall_app. split; [exact Hx|].
    apply Forall_forall. intros b Hb. apply H12; [now left|exact Hb].
Qed.

Lemma StronglySorted_impl_in {A : Type} (R R' : A -> A -> Prop) (l : list A) :
  (forall x y, In x l -> In y l -> R x y -> R' x y) ->
  StronglySorted R l -> StronglySorted R' l.
Proof.
  intros H HS. induction HS as [|x l Hl IH Hx]; constructor.
  - apply IH. intros a b Ha Hb. apply H; now right.
  - rewrite Forall_forall in *. intros y Hy. apply H; [now left|now right|now apply Hx].
Qed.

Lemma StronglySorted_filter {A : Type} (R : A -> A -> Prop) (p : A -> bool) (l : list A) :
  StronglySorted R l -> StronglySorted R (filter p l).
Proof.
  induction 1 as [|x l Hl IH Hx]; simpl; [constructor|].
  destruct (p x); [|exact IH]. constructor; [exact IH|].
  rewrite Forall_forall in *. intros y Hy. apply filter_In in Hy as [Hy _]. now apply Hx.
Qed.

Lemma StronglySorted_flat_map {A B : Type} (R : A -> A -> Prop) (R' : B -> B -> Prop)
  (f : A -> list B) (l : list A) :
  (forall x, In x l -> StronglySorted R' (f x)) ->
  (forall x y a b, In x l -> In y l -> R x y -> In a (f x) -> In b (f y) -> R' a b) ->
  StronglySorted R l -> StronglySorted R' (flat_map f l).
Proof.
  intros Hf HR HS. induction HS as [|x l Hl IH Hx]; simpl; [constructor|].
  apply StronglySorted_app.
  - apply Hf. now left.
  - apply IH; intros; [apply Hf|eapply HR]; eauto; now right.
  - intros a b Ha Hb. apply in_flat_map in Hb as [y [Hy Hb]].
    rewrite Forall_forall in Hx.
    apply (HR x y a b); auto; [now left|now right].
Qed.

(** A listing in the order of the keys is its entries that are no regular
    files followed by its regular files. *)
Lemma sorted_files_last (l : list entry) :
  StronglySorted (key_le sort_key key_lt) l ->
  l = filter (fun e => negb (is_file e)) l ++ filter is_file l.
Proof.
  induction 1 as [|x l Hl IH Hx]; simpl; [reflexivity|].
  destruct (is_file x) eqn:Ex; simpl.
  - assert (Hall : Forall (fun y => is_file y = true) l).
    { eapply Forall_impl; [|exact Hx]. intros y Hy.
      unfold key_le, sort_key, key_lt in Hy. simpl in Hy. rewrite Ex in Hy.
      destruct (is_file y); [reflexivity|discriminate]. }
    assert (E1 : filter (fun e => negb (is_file e)) l = []).
    { clear -Hall. induction Hall as [|y l Hy _ IH']; simpl; [reflexivity|].
      now rewrite Hy. }
    assert (E2 : filter is_file l = l).
    { clear -Hall. induction Hall as [|y l Hy _ IH']; simpl; [reflexivity|].
      now rewrite Hy, IH'. }
    now rewrite E1, E2.
  - now rewrite <- IH.
Qed.

Lemma add_child_sorted (f : Node -> string) (root : Path) (e : entry) :
  sorted_by f (add_child root e).
Proof.
  unfold sorted_by.
  destruct e as [nm t|nm sub|nm|nm sub|nm|nm t]; simpl;
    try destruct (is_md nm); repeat constructor.
Qed.

Lemma add_child_file_name (root : Path) (e : entry) (n : Node) :
  In n (add_child root e) -> node_file_name n = entry_name e.
Proof.
  intros H. unfold node_file_name. rewrite (add_child_path root e n H).
  apply name_joinpath.
Qed.

Lemma add_child_names (root : Path) (e : entry) (n : Node) :
  In n (add_child root e) ->
  node_name n = if node_is_dir n then node_file_name n
                else PurePath.stem_of (node_file_name n).
Proof.
  intros H. rewrite (add_child_file_name root e n H).
  destruct e as [nm t|nm sub|nm|nm sub|nm|nm t]; simpl in *;
    try (destruct (is_md nm); simpl in H; [|tauto]; now destruct H as [<-|[]]).
  all: destruct H as [<-|[]]; simpl; apply name_joinpath.
Qed.

(** Entries of one kind in the order of the keys are in the
    case-insensitive order of their names. *)
Lemma key_le_names (x y : entry) :
  is_file x = is_file y -> key_le sort_key key_lt x y ->
  String.leb (Str.lower (entry_name x)) (Str.lower (entry_name y)) = true.
Proof.
  unfold key_le, sort_key, key_lt. simpl. intros ->.
  rewrite <- string_nlt_leb. destruct (is_file y); simpl; auto.
Qed.

Lemma sorted_group (p : entry -> bool) (b : bool) (root : Path) (l : list entry) :
  (forall e, p e = true -> is_file e = b) ->
  StronglySorted (key_le sort_key key_lt) l ->
  sorted_by node_file_name (flat_map (add_child root) (filter p l)).
Proof.
  intros Hp HS. unfold sorted_by.
  eapply StronglySorted_flat_map with (R := key_le sort_key key_lt).
  - intros x _. apply (add_child_sorted node_file_name).
  - intros x y a c Hx Hy Hxy Ha Hc.
    rewrite (add_child_file_name root x a Ha), (add_child_file_name root y c Hc).
    apply filter_In in Hx as [_ Hx]. apply filter_In in Hy as [_ Hy].
    apply key_le_names; [|exact Hxy]. now rewrite (Hp x Hx), (Hp y Hy).
  - now apply StronglySorted_filter.
Qed.

Lemma sort_keys_apart (l : list entry) :
  NoDup (map sort_key l) -> keys_apart sort_key key_lt l /\ NoDup l.
Proof.
  intros Hnd. split.
  - intros x y Hx Hy Hxy Hyx. unfold key_le in *.
    eapply NoDup_map_inj; eauto. now apply key_lt_apart.
  - now apply NoDup_map_inv in Hnd.
Qed.

(** C4, amended.  For a directory whose entries with the document
    extension are regular files or directories, the children of the node
    that the tree builder returns are the nodes of its subdirectories
    followed by the nodes of its documents; the subdirectories are in the
    case-insensitive order of their names and the documents in the
    case-insensitive order of their file names, extension included (the
    name of a document node is the stem of that file name).  The children
    are a function of the listing, and the same for every order of a
    listing in which no two entries have the same kind and the same
    lower-cased name. *)
Theorem children_order (root : Path) (entries : list entry) :
  md_regular entries = true ->
  dirs_then_docs node_file_name (node_children (build_tree root entries))
  /\ Forall (fun n => node_name n = if node_is_dir n then node_file_name n
                                    else PurePath.stem_of (node_file_name n))
            (node_children (build_tree root entries))
  /\ (forall entries',
         Permutation entries entries' -> NoDup (map sort_key entries) ->
         build_tree root entries' = build_tree root entries).
Proof.
  intros Hreg.
  pose proof (sorted_sorted sort_key key_lt key_lt_asym key_nlt_trans entries) as HS.
  rewrite build_tree_unfold. cbn [node_children]. repeat split.
  - set (S := sorted sort_key key_lt entries) in *.
    exists (flat_map (add_child root) (filter (fun e => negb (is_file e)) S)),
           (flat_map (add_child root) (filter is_file S)).
    assert (Hin : forall e p, In e (filter p S) -> In e entries /\ p e = true).
    { intros e p He. apply filter_In in He as [He Hp]. split; [|exact Hp].
      now apply in_sorted in He. }
    unfold md_regular in Hreg. rewrite forallb_forall in Hreg.
    split; [|split; [|split; [|split]]].
    + rewrite <- flat_map_app. now rewrite <- sorted_files_last.
    + apply Forall_forall. intros n Hn. apply in_flat_map in Hn as [e [He Hn]].
      apply Hin in He as [He Hf]. specialize (Hreg e He).
      destruct e as [nm t|nm sub|nm|nm sub|nm|nm t]; simpl in *;
        try discriminate; try (now destruct Hn as [<-|[]]).
      all: apply negb_true_iff in Hreg; rewrite Hreg in Hn; destruct Hn.
    + apply Forall_forall. intros n Hn. apply in_flat_map in Hn as [e [He Hn]].
      apply Hin in He as [He Hf].
      destruct e as [nm t|nm sub|nm|nm sub|nm|nm t]; simpl in *;
        try discriminate.
      all: destruct (is_md nm); simpl in Hn; [|tauto]; now destruct Hn as [<-|[]].
    + assert (Hd : sorted_by node_file_name
                     (flat_map (add_child root) (filter (fun e => negb (is_file e)) S))).
      { apply (sorted_group _ false); [|exact HS].
        intros e He. now apply negb_true_iff in He. }
      unfold sorted_by in *. eapply StronglySorted_impl_in; [|exact Hd].
      intros x y Hx Hy Hxy. simpl in Hxy.
      assert (Hname : forall n,
                 In n (flat_map (add_child root) (filter (fun e => negb (is_file e)) S)) ->
                 node_name n = node_file_name n).
      { intros n Hn. apply in_flat_map in Hn as [e [He Hn]].
        pose proof (add_child_names root e n Hn) as E.
        apply Hin in He as [He Hf]. specialize (Hreg e He).
        destruct e as [nm t|nm sub|nm|nm sub|nm|nm t]; simpl in *;
          try discriminate; try (destruct Hn as [<-|[]]; exact E).
        all: apply negb_true_iff in Hreg; rewrite Hreg in Hn; destruct Hn. }
      now rewrite (Hname x Hx), (Hname y Hy).
    + apply (sorted_group _ true); [|exact HS]. auto.
  - apply Forall_forall. intros n Hn. apply in_flat_map in Hn as [e [_ Hn]].
    now apply (add_child_names root e).
  - intros entries' HP Hnd. rewrite build_tree_unfold. f_equal. f_equal.
    destruct (sort_keys_apart entries Hnd) as [Hap Hnd'].
    symmetry. apply sorted_perm_invariant; auto.
    + apply key_lt_asym.
    + apply key_nlt_trans.
Qed.


Lemma children_order_witness :
  dirs_then_docs node_file_name (node_children (build_tree demo_root mixed_entries))
  /\ map node_name (node_children (build_tree demo_root mixed_entries))
     = ["alpha"; "Zeta"; "a-b"; "a"; "b"]%string
  /\ build_tree demo_root (rev mixed_entries) = build_tree demo_root mixed_entries
  /\ dirs_then_docs node_file_name (node_children (build_tree demo_root latin1_entries))
  /\ map node_name (node_children (build_tree demo_root latin1_entries))
     = ["z"%string; String (ascii_of_nat 232) EmptyString;
        String (ascii_of_nat 201) EmptyString].
Proof.
  destruct (children_order demo_root mixed_entries) as [H1 [_ H3]]; [reflexivity|].
  destruct (children_order demo_root latin1_entries) as [H4 _]; [reflexivity|].
  split; [exact H1|]. split; [reflexivity|]. split; [|split; [exact H4|reflexivity]].
  apply H3.
  - apply Permutation_rev.
  - vm_compute. repeat constructor; simpl; intuition discriminate.
Defined.

(** C4 as it is stated fails: the documents [a.md] and [a-b.md] come in the
    order of their file names, [a-b.md] first, while the names of their
    nodes, [a] and [a-b], are in the opposite order. *)
Lemma children_order_counterexample :
  map node_name (node_children (build_tree demo_root [File "a.md" ""; File "a-b.md" ""]))
  = ["a-b"; "a"]%string
  /\ ~ dirs_then_docs node_name
        (node_children (build_tree demo_root [File "a.md" ""; File "a-b.md" ""])).
Proof.
  split; [reflexivity|].
  intros [dirs [docs [E [Hd [_ [_ Hs]]]]]].
  vm_compute in E.
  destruct dirs as [|d dirs].
  - simpl in E. subst docs. unfold sorted_by in Hs.
    inversion Hs as [|? ? _ Hall]; subst.
    inversion Hall as [|? ? Hle _]; subst.
    vm_compute in Hle. discriminate.
  - injection E as E1 E2. subst d. inversion Hd as [|? ? Hdir _]; subst.
    discriminate.
Qed.

Open Scope string_scope.

(* ------------------------------------------------------------------ *)
(** ** The copy buttons *)

Lemma prefix_append (p r : string) : prefix p (p ++ r) = true.
Proof.
  induction p as [|c p IH]; simpl; [now destruct r|].
  destruct (ascii_dec c c); [exact IH|congruence].
Qed.

Lemma drop_append (p r : string) : Str.drop (String.length p) (p ++ r) = r.
Proof. induction p as [|c p IH]; simpl; [now destruct r|exact IH]. Qed.

(** The opening text does not start inside a text without it that is
    followed by it: no end of the opening text is a start of it. *)
Lemma no_open_across (t r : string) :
  contains PRE_OPEN t = false -> t <> EmptyString ->
  prefix PRE_OPEN (t ++ PRE_OPEN ++ r) = false.
Proof.
  intros H Hne. destruct t as [|c t]; [congruence|].
  cbn [contains] in H. apply orb_false_iff in H as [H _]. clear Hne.
  unfold PRE_OPEN in *.
  do 10 (try (cbn [prefix append] in *; step_prefix);
         try (destruct t as [|? t]; [cbn [prefix append]; repeat step_prefix|])).
  all: try reflexivity; try discriminate.
Qed.

Lemma no_close_across (t r : string) :
  contains PRE_CLOSE t = false -> t <> EmptyString ->
  prefix PRE_CLOSE (t ++ PRE_CLOSE ++ r) = false.
Proof.
  intros H Hne. destruct t as [|c t]; [congruence|].
  cbn [contains] in H. apply orb_false_iff in H as [H _]. clear Hne.
  unfold PRE_CLOSE in *.
  do 13 (try (cbn [prefix append] in *; step_prefix);
         try (destruct t as [|? t]; [cbn [prefix append]; repeat step_prefix|])).
  all: try reflexivity; try discriminate.
Qed.

Lemma contains_tail (pat : string) (c : ascii) (s : string) :
  contains pat (String c s) = false -> contains pat s = false.
Proof. cbn [contains]. now intros [_ H]%orb_false_iff. Qed.

(** The closing text is first found right after a text without it. *)
Lemma find_close_first (inner r : string) :
  contains PRE_CLOSE inner = false ->
  find_close (inner ++ PRE_CLOSE ++ r)
  = Some (String.length inner + String.length PRE_CLOSE).
Proof.
  induction inner as [|c inner IH]; intros H.
  - change (EmptyString ++ PRE_CLOSE ++ r) with (PRE_CLOSE ++ r).
    remember (PRE_CLOSE ++ r) as s eqn:Es. destruct s as [|c s].
    + unfold PRE_CLOSE in Es. discriminate.
    + cbn [find_close]. rewrite Es. now rewrite prefix_append.
  - pose proof (no_close_across (String c inner) r H) as E.
    cbn [append find_close] in E |- *. rewrite E by discriminate.
    rewrite IH by (eapply contains_tail; eassumption). reflexivity.
Qed.

(** The characters of a match are copied as they are. *)
Lemma inject_from_skip (s1 s2 : string) :
  inject_from (String.length s1) (s1 ++ s2) = s1 ++ inject_from 0 s2.
Proof.
  induction s1 as [|c s1 IH]; [reflexivity|].
  cbn [String.length append inject_from]. now rewrite IH.
Qed.

Lemma match_len_block (inner r : string) :
  contains PRE_CLOSE inner = false ->
  match_len (code_block inner ++ r) = Some (String.length (code_block inner)).
Proof.
  intros H. unfold match_len, code_block.
  rewrite !append_assoc. rewrite prefix_append, drop_append.
  rewrite find_close_first by assumption. cbn [option_map].
  now rewrite !length_append.
Qed.

(** A button goes before a block, and the scan goes on after the block. *)
Lemma inject_block (inner r : string) :
  contains PRE_CLOSE inner = false ->
  inject_from 0 (code_block inner ++ r)
  = COPY_BTN ++ code_block inner ++ inject_from 0 r.
Proof.
  intros H. pose proof (match_len_block inner r H) as E.
  destruct (code_block inner) as [|c blk] eqn:Eb.
  - unfold code_block, PRE_OPEN in Eb. discriminate.
  - cbn [append String.length] in *. cbn [inject_from]. rewrite E.
    replace (S (String.length blk) - 1) with (String.length blk) by lia.
    now rewrite inject_from_skip.
Qed.

(** A text without the opening text is copied up to the block after it. *)
Lemma inject_text (t inner r : string) :
  contains PRE_OPEN t = false ->
  inject_from 0 (t ++ code_block inner ++ r)
  = t ++ inject_from 0 (code_block inner ++ r).
Proof.
  induction t as [|c t IH]; intros H; [reflexivity|].
  pose proof (no_open_across (String c t) (inner ++ PRE_CLOSE ++ r) H) as E.
  unfold code_block in *. rewrite !append_assoc in *.
  cbn [append inject_from] in E |- *.
  unfold match_len. cbn [append]. rewrite E by discriminate.
  rewrite IH by (eapply contains_tail; eassumption). reflexivity.
Qed.

(** A text without a match is copied. *)
Lemma inject_rest (s : string) : has_block s = false -> inject_from 0 s = s.
Proof.
  induction s as [|c s IH]; intros H; [reflexivity|].
  cbn [has_block] in H. cbn [inject_from].
  destruct (match_len (String c s)); [discriminate|]. now rewrite IH.
Qed.

Lemma length_with_buttons (blocks : list (string * string)) (rest : string) :
  String.length (with_buttons blocks rest)
  = String.length (body_of blocks rest) + List.length blocks * String.length COPY_BTN.
Proof.
  induction blocks as [|[t inner] blocks IH]; cbn [with_buttons body_of List.length].
  - lia.
  - rewrite !length_append, IH. lia.
Qed.

(** Every body is made of such parts. *)

Lemma prefix_inv (p s : string) : prefix p s = true -> exists r, s = p ++ r.
Proof.
  revert s; induction p as [|a p IH]; intros s H; [now exists s|].
  destruct s as [|b s]; [discriminate|]. cbn [prefix] in H.
  destruct (ascii_dec a b) as [->|]; [|discriminate].
  destruct (IH s H) as [r ->]. now exists r.
Qed.

Lemma prefix_append_l (p t u : string) :
  prefix p t = true -> prefix p (t ++ u) = true.
Proof.
  intros [r ->]%prefix_inv. rewrite append_assoc. apply prefix_append.
Qed.

Lemma find_close_inv (s : string) (m : nat) :
  find_close s = Some m ->
  exists inner r, s = inner ++ PRE_CLOSE ++ r /\ contains PRE_CLOSE inner = false.
Proof.
  revert m; induction s as [|c s IH]; intros m H; [discriminate|].
  cbn [find_close] in H.
  destruct (prefix PRE_CLOSE (String c s)) eqn:E.
  - apply prefix_inv in E as [r Hr]. exists EmptyString, r. split; [exact Hr|reflexivity].
  - destruct (find_close s) as [m'|] eqn:Em; [|discriminate].
    destruct (IH m' eq_refl) as [inner [r [-> Hin]]].
    exists (String c inner), r. split; [reflexivity|].
    cbn [contains]. rewrite Hin, orb_false_r.
    destruct (prefix PRE_CLOSE (String c inner)) eqn:E'; [|reflexivity].
    apply (prefix_append_l _ _ (PRE_CLOSE ++ r)) in E'.
    cbn [append] in E'. congruence.
Qed.

Lemma find_close_found (a b : string) : find_close (a ++ PRE_CLOSE ++ b) <> None.
Proof.
  induction a as [|c a IH].
  - change (EmptyString ++ PRE_CLOSE ++ b) with (PRE_CLOSE ++ b).
    remember (PRE_CLOSE ++ b) as s eqn:Es. destruct s as [|c s].
    + unfold PRE_CLOSE in Es. discriminate.
    + cbn [find_close]. rewrite Es, prefix_append. discriminate.
  - cbn [append find_close].
    destruct (prefix PRE_CLOSE (String c (a ++ PRE_CLOSE ++ b))); [discriminate|].
    destruct (find_close (a ++ PRE_CLOSE ++ b)); [discriminate|contradiction].
Qed.

Lemma match_len_inv (s : string) (n : nat) :
  match_len s = Some n ->
  exists inner r, s = code_block inner ++ r /\ contains PRE_CLOSE inner = false.
Proof.
  unfold match_len. destruct (prefix PRE_OPEN s) eqn:E; [|discriminate].
  apply prefix_inv in E as [s1 ->]. rewrite drop_append.
  destruct (find_close s1) as [m|] eqn:Em; [|discriminate]. intros _.
  destruct (find_close_inv s1 m Em) as [inner [r [-> Hin]]].
  exists inner, r. split; [|exact Hin]. unfold code_block. now rewrite !append_assoc.
Qed.

Lemma first_block (s : string) :
  has_block s = true ->
  exists t inner r,
    s = t ++ code_block inner ++ r
    /\ contains PRE_OPEN t = false /\ contains PRE_CLOSE inner = false.
Proof.
  induction s as [|c s IH]; intros H; [discriminate|].
  cbn [has_block] in H.
  destruct (match_len (String c s)) as [n|] eqn:Em.
  - destruct (match_len_inv _ _ Em) as [inner [r [E Hin]]].
    exists EmptyString, inner, r. repeat split; assumption.
  - destruct (IH H) as [t [inner [r [-> [Ht Hin]]]]].
    exists (String c t), inner, r. split; [reflexivity|]. split; [|exact Hin].
    cbn [contains]. rewrite Ht, orb_false_r.
    destruct (prefix PRE_OPEN (String c t)) eqn:E; [exfalso|reflexivity].
    destruct (prefix_inv _ _ E) as [t1 Et].
    unfold match_len in Em.
    change (String c (t ++ code_block inner ++ r))
      with (String c t ++ code_block inner ++ r) in Em.
    rewrite Et in Em. rewrite append_assoc in Em.
    rewrite prefix_append, drop_append in Em.
    unfold code_block in Em. rewrite !append_assoc in Em.
    rewrite <- (append_assoc t1 PRE_OPEN) in Em.
    rewrite <- (append_assoc (t1 ++ PRE_OPEN) inner) in Em.
    destruct (find_close (((t1 ++ PRE_OPEN) ++ inner) ++ PRE_CLOSE ++ r)) eqn:Ef;
      [discriminate|].
    now apply find_close_found in Ef.
Qed.

Lemma body_decomposition (s : string) :
  exists blocks rest, s = body_of blocks rest /\ body_parts blocks rest = true.
Proof.
  assert (H : forall n s, String.length s <= n ->
              exists blocks rest, s = body_of blocks rest /\ body_parts blocks rest = true).
  { clear s. induction n as [|n IH]; intros s Hn.
    - destruct s; [|simpl in Hn; lia]. now exists [], EmptyString.
    - destruct (has_block s) eqn:Hb.
      + destruct (first_block s Hb) as [t [inner [r [-> [Ht Hin]]]]].
        destruct (IH r) as [blocks [rest [-> Hparts]]].
        { rewrite !length_append in Hn. unfold code_block, PRE_OPEN in Hn.
          rewrite length_append in Hn. simpl in Hn. lia. }
        exists ((t, inner) :: blocks), rest. split; [reflexivity|].
        unfold body_parts in *. cbn [forallb fst snd].
        rewrite Ht, Hin. exact Hparts.
      + exists [], s. split; [reflexivity|]. unfold body_parts. simpl. now rewrite Hb. }
  now apply (H (String.length s)).
Qed.

(** A body made of [k] matches of the pattern, each after a text without
    the opening text of a match, and a last text without a match gets exactly
    [k] copy buttons, one right before each match, and nothing else is
    changed.  Every body is made of such parts. *)
Lemma inject_copy_buttons_parts (blocks : list (string * string)) (rest : string) :
  body_parts blocks rest = true ->
  inject_copy_buttons (body_of blocks rest) = with_buttons blocks rest
  /\ String.length (inject_copy_buttons (body_of blocks rest))
     = String.length (body_of blocks rest) + List.length blocks * String.length COPY_BTN.
Proof.
  intros H.
  assert (E : inject_copy_buttons (body_of blocks rest) = with_buttons blocks rest).
  { unfold inject_copy_buttons, body_parts in *.
    apply andb_true_iff in H as [Hb Hr]. apply negb_true_iff in Hr.
    induction blocks as [|[t inner] blocks IH]; cbn [body_of with_buttons].
    - now apply inject_rest.
    - cbn [forallb fst snd] in Hb.
      apply andb_true_iff in Hb as [Hti Hb].
      apply andb_true_iff in Hti as [Ht Hi].
      apply negb_true_iff in Ht, Hi.
      rewrite inject_text by assumption.
      rewrite inject_block by assumption.
      now rewrite IH. }
  split; [exact E|]. rewrite E. apply length_with_buttons.
Qed.

(** The pattern matches nowhere in a text without its opening text. *)
Lemma no_open_no_block (s : string) :
  contains PRE_OPEN s = false -> has_block s = false.
Proof.
  induction s as [|c s IH]; intros H; [reflexivity|].
  cbn [contains] in H. apply orb_false_iff in H as [Hp Hs].
  cbn [has_block]. unfold match_len. rewrite Hp. now apply IH.
Qed.

(** A text that holds [pat] has a place at which [pat] starts. *)
Lemma occurrences_found (pat a b s : string) :
  pat <> EmptyString -> s = a ++ pat ++ b -> 1 <= occurrences pat s.
Proof.
  intros Hpat ->. induction a as [|c a IH].
  - cbn [append]. destruct (pat ++ b) as [|c r] eqn:E.
    + destruct pat; [contradiction|discriminate].
    + cbn [occurrences]. rewrite <- E, prefix_append. lia.
  - cbn [append occurrences]. lia.
Qed.

(** C5.  The copy button goes before the texts that start with
    [<pre><code] alone.  A body in which this text does not occur is returned
    as it is, however many code blocks it holds.  The code blocks that the
    converter of the source writes are of this kind: with the [codehilite]
    extension on, a block is written as a [div] of class [codehilite] around
    a [pre] element that holds an empty [span] before its [code] element.
    Such a body with one code block gets no button, while the same block
    written as [<pre><code] gets the button
    [<button class="copy-btn" onclick="copyCode(this)">Copy</button>]
    right before it. *)
Theorem highlighted_block_gets_no_button (convert : string -> string)
  (text pre code post : string) :
  convert text
  = pre ++ "<div class=" ++ Str.q ++ "codehilite" ++ Str.q
    ++ "><pre><span></span><code>" ++ code ++ "</code></pre></div>" ++ post ->
  contains "<pre><code" (convert text) = false ->
  contains "</code></pre>" code = false ->
  1 <= occurrences "<code>" (convert text)
  /\ md_to_html convert text = convert text
  /\ occurrences "<pre><code" (convert text) = 0
  /\ md_to_html (fun _ => "<pre><code>" ++ code ++ "</code></pre>") text
     = "<button class=" ++ Str.q ++ "copy-btn" ++ Str.q ++ " onclick=" ++ Str.q
       ++ "copyCode(this)" ++ Str.q ++ ">Copy</button>"
       ++ "<pre><code>" ++ code ++ "</code></pre>".
Proof.
  intros Hshape Hno Hcode. split; [|split; [|split]].
  - rewrite Hshape.
    apply (occurrences_found "<code>"
             (pre ++ "<div class=" ++ Str.q ++ "codehilite" ++ Str.q
              ++ "><pre><span></span>")
             (code ++ "</code></pre></div>" ++ post)); [discriminate|].
    repeat (progress cbn [append] || rewrite append_assoc). reflexivity.
  - unfold md_to_html, inject_copy_buttons. apply inject_rest.
    now apply no_open_no_block.
  - revert Hno. generalize (convert text). intros s.
    induction s as [|c s IH]; intros H; [reflexivity|].
    cbn [contains] in H. apply orb_false_iff in H as [Hp Hs].
    cbn [occurrences]. rewrite Hp. now apply IH.
  - unfold md_to_html, inject_copy_buttons.
    assert (Hin : contains PRE_CLOSE (">" ++ code) = false).
    { cbn [append contains]. apply orb_false_iff. split; [reflexivity|exact Hcode]. }
    pose proof (inject_block (">" ++ code) EmptyString Hin) as E.
    unfold code_block, PRE_OPEN, PRE_CLOSE in E.
    repeat (progress cbn [append] in E || rewrite append_assoc in E).
    cbn [append]. rewrite E. unfold COPY_BTN.
    repeat (progress cbn [append] || rewrite append_assoc). reflexivity.
Qed.

Lemma highlighted_block_gets_no_button_witness :
  let body := "<p>Run:</p>" ++ Str.nl ++ "<div class=" ++ Str.q ++ "codehilite" ++ Str.q
              ++ "><pre><span></span><code>x = 1" ++ Str.nl
              ++ "</code></pre></div>" in
  occurrences "<code>" body = 1
  /\ occurrences "</code></pre>" body = 1
  /\ md_to_html (fun _ => body) "text" = body
  /\ occurrences "<button" (md_to_html (fun _ => body) "text") = 0
  /\ md_to_html (fun _ => "<pre><code>x = 1" ++ Str.nl ++ "</code></pre>") "text"
     = "<button class=" ++ Str.q ++ "copy-btn" ++ Str.q ++ " onclick=" ++ Str.q
       ++ "copyCode(this)" ++ Str.q ++ ">Copy</button>"
       ++ "<pre><code>x = 1" ++ Str.nl ++ "</code></pre>".
Proof.
  intros body.
  destruct (highlighted_block_gets_no_button (fun _ => body) "text"
              ("<p>Run:</p>" ++ Str.nl) ("x = 1" ++ Str.nl) EmptyString)
    as [_ [H1 [_ H3]]]; [reflexivity|reflexivity|reflexivity|].
  split; [reflexivity|]. split; [reflexivity|]. split; [exact H1|].
  split; [rewrite H1; reflexivity|exact H3].
Defined.


(* ------------------------------------------------------------------ *)
(** ** The title *)

Lemma extract_title_skip (pre rest : string) :
  no_earlier pre rest = true -> extract_title (pre ++ rest) = extract_title rest.
Proof.
  induction pre as [|c pre IH]; intros H; [reflexivity|].
  cbn [no_earlier] in H. cbn [append extract_title] in H |- *.
  destruct (match_heading (String c (pre ++ rest))); [discriminate|]. now apply IH.
Qed.

Lemma after_gt_attrs (attrs r : string) :
  no_gt attrs = true -> after_gt (attrs ++ String ">" r) = Some r.
Proof.
  induction attrs as [|c attrs IH]; intros H; [reflexivity|].
  cbn [no_gt] in H. apply andb_true_iff in H as [Hc Ha].
  apply negb_true_iff in Hc. cbn [append after_gt]. rewrite Hc. now apply IH.
Qed.

(** No closing tag starts inside a text without one that is followed by a
    closing tag. *)
Lemma no_closing_across (t : string) (d' : ascii) (r : string) :
  has_closing t = false -> t <> EmptyString ->
  closing_tag (t ++ "</h" ++ String d' (String ">" r)) = false.
Proof.
  intros H Hne. destruct t as [|c1 t]; [congruence|]. clear Hne.
  cbn [has_closing] in H. apply orb_false_iff in H as [H _].
  destruct t as [|c2 t]; [cbn; case_chars; reflexivity|].
  destruct t as [|c3 t]; [cbn; case_chars; reflexivity|].
  destruct t as [|c4 t]; [cbn; case_chars; reflexivity|].
  destruct t as [|c5 t]; [cbn; case_chars; reflexivity|].
  exact H.
Qed.

Lemma has_closing_tail (c : ascii) (s : string) :
  has_closing (String c s) = false -> has_closing s = false.
Proof. cbn [has_closing]. now intros [_ H]%orb_false_iff. Qed.

Lemma lazy_group_inner (inner : string) (d' : ascii) (r : string) :
  is_h_level d' = true -> one_line inner = true -> has_closing inner = false ->
  lazy_group (inner ++ "</h" ++ String d' (String ">" r)) = Some inner.
Proof.
  intros Hd. induction inner as [|c inner IH]; intros Hl Hc.
  - cbn. now rewrite Hd.
  - pose proof (no_closing_across (String c inner) d' r Hc) as E.
    cbn [one_line] in Hl. apply andb_true_iff in Hl as [Hlf Hl].
    apply negb_true_iff in Hlf.
    specialize (IH Hl (has_closing_tail _ _ Hc)).
    cbn [append lazy_group] in E, IH |- *. rewrite E by discriminate. rewrite Hlf.
    now rewrite IH.
Qed.

Lemma match_heading_here (d : ascii) (attrs inner : string) (d' : ascii) (post : string) :
  is_h_level d = true -> is_h_level d' = true ->
  no_gt attrs = true -> one_line inner = true -> has_closing inner = false ->
  match_heading (heading d attrs inner d' ++ post) = Some inner.
Proof.
  intros Hd Hd' Ha Hl Hc. unfold heading.
  rewrite !append_assoc. cbn [append match_heading].
  replace (Ascii.eqb "<" "<" && Ascii.eqb "h" "h" && is_h_level d) with true
    by (rewrite Hd; reflexivity).
  rewrite after_gt_attrs by assumption.
  now apply lazy_group_inner.
Qed.

Lemma extract_title_here (s g : string) :
  match_heading s = Some g -> extract_title s = Some g.
Proof. intros H. destruct s; cbn [extract_title]; now rewrite H. Qed.

Lemma extract_title_none (body : string) :
  no_earlier body EmptyString = true -> extract_title body = None.
Proof.
  intros H. rewrite <- (append_nil_r body). now rewrite extract_title_skip.
Qed.

Lemma match_heading_opening (s : string) :
  heading_opening s = false -> match_heading s = None.
Proof.
  destruct s as [|c1 [|c2 [|d s]]]; try reflexivity.
  cbn [heading_opening match_heading]. now intros ->.
Qed.

(** A text without the opening of a heading tag has no match of the
    pattern before a heading that follows it. *)
Lemma no_opening_no_earlier (pre r : string) :
  has_opening pre = false -> no_earlier pre (String "<" r) = true.
Proof.
  induction pre as [|c1 pre IH]; intros H; [reflexivity|].
  cbn [has_opening] in H. apply orb_false_iff in H as [H1 H2].
  cbn [no_earlier]. rewrite match_heading_opening; [now apply IH|].
  destruct pre as [|c2 [|d pre]].
  - destruct r; cbn; case_chars; reflexivity.
  - cbn. case_chars; reflexivity.
  - exact H1.
Qed.

(** C6, amended.  The title of a page is the text between the opening tag
    and the first closing tag after it of the first level 1 to 3 heading of
    the body whose text holds no line feed, when this text is not empty, and
    otherwise the stem of the file name of the document: for a body in which
    the pattern of the title matches at no position before such a heading the
    text of that heading is extracted, an empty text gives the stem, and a
    body in which the pattern matches nowhere gives the stem.  A text without
    the opening of a level 1 to 3 heading tag has no match before the
    heading. *)
Theorem page_title_of_heading (pre : string) (d : ascii) (attrs inner : string)
  (d' : ascii) (post stem : string) :
  is_h_level d = true -> is_h_level d' = true ->
  no_gt attrs = true -> one_line inner = true -> has_closing inner = false ->
  no_earlier pre (heading d attrs inner d' ++ post) = true ->
  extract_title (pre ++ heading d attrs inner d' ++ post) = Some inner
  /\ page_title (pre ++ heading d attrs inner d' ++ post) stem
     = (if String.eqb inner EmptyString then stem else inner)
  /\ (forall body, no_earlier body EmptyString = true -> page_title body stem = stem)
  /\ (forall p, has_opening p = false ->
                no_earlier p (heading d attrs inner d' ++ post) = true).
Proof.
  intros Hd Hd' Ha Hl Hc Hpre.
  assert (E : extract_title (pre ++ heading d attrs inner d' ++ post) = Some inner).
  { rewrite extract_title_skip by assumption.
    apply extract_title_here. now apply match_heading_here. }
  split; [exact E|]. split; [|split].
  - unfold page_title. now rewrite E.
  - intros body Hb. unfold page_title. now rewrite extract_title_none.
  - intros p Hp. unfold heading. cbn [append]. now apply no_opening_no_earlier.
Qed.

Lemma page_title_of_heading_witness :
  page_title
    ("<p>A <b>note</b></p>" ++ Str.nl
     ++ heading "2" (" id=" ++ Str.q ++ "top" ++ Str.q) "Hello <em>W</em>" "2"
     ++ "<h1>Later</h1>")
    "notes"
  = "Hello <em>W</em>"
  /\ page_title ("<h1>two" ++ Str.nl ++ "lines</h1>" ++ heading "3" EmptyString EmptyString "1")
       "notes"
     = "notes".
Proof.
  split.
  - apply (page_title_of_heading ("<p>A <b>note</b></p>" ++ Str.nl) "2"
             (" id=" ++ Str.q ++ "top" ++ Str.q) "Hello <em>W</em>" "2"
             "<h1>Later</h1>" "notes"); reflexivity.
  - destruct (page_title_of_heading ("<h1>two" ++ Str.nl ++ "lines</h1>") "3"
                EmptyString EmptyString "1" EmptyString "notes") as [_ [H _]];
      [reflexivity..|].
    rewrite append_nil_r in H. exact H.
Defined.

(** C6 as it is stated fails: the body [<h1></h1>] has a first heading, of
    which the text is empty, and the title of the page is the stem of the
    file name. *)
Lemma title_counterexample :
  extract_title "<h1></h1>" = Some EmptyString
  /\ page_title "<h1></h1>" "notes" = "notes"
  /\ ~ title_of_first_heading.
Proof.
  split; [reflexivity|]. split; [reflexivity|].
  intros H. specialize (H "<h1></h1>" "notes").
  vm_compute in H. discriminate.
Qed.

(* ------------------------------------------------------------------ *)
(** ** The scan *)

Open Scope list_scope.

Lemma select_spec (pat : string -> bool) (dir : Path) (entries : list entry)
  (p : Path) (e : entry) :
  In (p, e) (select pat dir entries) ->
  p = dir ++ [entry_name e] /\ pat (entry_name e) = true /\ In e entries.
Proof.
  unfold select. intros H. apply in_map_iff in H as [e' [E H]].
  injection E as <- <-. apply filter_In in H as [H1 H2]. auto.
Qed.



Lemma endswith_nonempty (s t : string) :
  Str.endswith s t = true -> t <> EmptyString -> s <> EmptyString.
Proof.
  unfold Str.endswith. intros H Ht ->. destruct t; [congruence|discriminate].
Qed.



Lemma select_iff (pat : string -> bool) (dir : Path) (entries : list entry)
  (p : Path) (e : entry) :
  In (p, e) (select pat dir entries) <->
  p = dir ++ [entry_name e] /\ pat (entry_name e) = true /\ In e entries.
Proof.
  split; [apply select_spec|]. intros [-> [Hp He]].
  unfold select. apply in_map_iff. exists e. split; [reflexivity|].
  apply filter_In. auto.
Qed.

Lemma rglob_below_iff (pat : string -> bool) (c : entry) :
  forall dir p e,
    In (p, e) (rglob_below pat dir c) <->
    exists nm sub rel,
      c = Dir nm sub /\ scan_at sub rel e /\ pat (entry_name e) = true
      /\ p = dir ++ nm :: rel.
Proof.
  induction c as [nm t|nm|nm sub IH|nm|nm t|nm sub _] using entry_ind;
    intros dir p e;
    try (simpl; split; [tauto|]; intros [? [? [? [H _]]]]; discriminate).
  cbn [rglob_below]. rewrite in_app_iff, select_iff, in_flat_map.
  rewrite Forall_forall in IH. split.
  - intros [[-> [Hp He]]|[c [Hc H]]].
    + exists nm, sub, [entry_name e]. repeat split; auto.
      * now constructor.
      * unfold PurePath.joinpath. now rewrite <- app_assoc.
    + apply (IH c Hc) in H. destruct H as [nm' [sub' [rel [-> [Hat [Hp ->]]]]]].
      exists nm, sub, (nm' :: rel). repeat split; auto.
      * econstructor; eassumption.
      * unfold PurePath.joinpath. now rewrite <- app_assoc.
  - intros [nm0 [sub0 [rel [E [Hat [Hp ->]]]]]]. injection E as <- <-.
    inversion Hat as [? ? Hin|? nm' sub' rel' ? Hin Hat']; subst.
    + left. repeat split; auto. unfold PurePath.joinpath. now rewrite <- app_assoc.
    + right. exists (Dir nm' sub'). split; [exact Hin|]. apply (IH _ Hin).
      exists nm', sub', rel'. repeat split; auto.
      unfold PurePath.joinpath. now rewrite <- app_assoc.
Qed.

(** The scan yields the entries whose names the pattern matches, at every
    level that it reaches, each at its path. *)
Lemma rglob_iff (pat : string -> bool) (dir : Path) (entries : list entry)
  (p : Path) (e : entry) :
  In (p, e) (rglob pat dir entries) <->
  exists rel, scan_at entries rel e /\ pat (entry_name e) = true /\ p = dir ++ rel.
Proof.
  unfold rglob. rewrite in_app_iff, select_iff, in_flat_map. split.
  - intros [[-> [Hp He]]|[c [Hc H]]].
    + exists [entry_name e]. repeat split; auto. now constructor.
    + apply rglob_below_iff in H. destruct H as [nm [sub [rel [-> [Hat [Hp ->]]]]]].
      exists (nm :: rel). repeat split; auto. econstructor; eassumption.
  - intros [rel [Hat [Hp ->]]].
    inversion Hat as [? ? Hin|? nm sub rel' ? Hin Hat']; subst.
    + left. auto.
    + right. exists (Dir nm sub). split; [exact Hin|]. apply rglob_below_iff.
      exists nm, sub, rel'. auto.
Qed.

(** What the scan reaches is an entry of the directory tree. *)
Lemma scan_at_entry_at (entries : list entry) (rel : Path) (e : entry) :
  scan_at entries rel e -> entry_at entries rel e.
Proof.
  induction 1 as [es e Hin|es nm sub rel e Hin Hat IH]; [now constructor|].
  now apply (at_below es (Dir nm sub)).
Qed.

(** A path of an entry ends with the name of the entry. *)
Lemma entry_at_name (entries : list entry) (rel : Path) (e : entry) :
  entry_at entries rel e -> PurePath.name rel = entry_name e /\ rel <> [].
Proof.
  induction 1 as [es e Hin|es d rel e Hin Hdir Hat [IH1 IH2]].
  - split; [reflexivity|discriminate].
  - split; [|discriminate]. now rewrite name_cons.
Qed.

Lemma entry_at_split (entries : list entry) (rel : Path) (e : entry) :
  entry_at entries rel e -> rel = PurePath.joinpath (PurePath.parent rel) (entry_name e).
Proof.
  intros H. destruct (entry_at_name _ _ _ H) as [Hn Hne].
  unfold PurePath.joinpath, PurePath.parent. rewrite <- Hn.
  now apply app_removelast_last.
Qed.



Open Scope string_scope.

(* ------------------------------------------------------------------ *)
(** ** The run *)

Open Scope list_scope.







(* ------------------------------------------------------------------ *)
(** ** The output directory *)





Section OutputFacts.
Variable fold_case : bool.











End OutputFacts.



Section Run.
Variable convert : string -> string.
Variable pygments_css : string.
Variable BASE_CSS : string.
Variable case_sensitive : bool.
Variable fold_case : bool.
Variable input_dir : Path.
Variable entries : list entry.














End Run.








(** C7 on a file with the extension in upper case, on a platform that
    matches names case-sensitively: the tree builder makes the file a
    document, and the navigation of every page links to its page, but the
    run writes no page for it and does not copy it either.  Where names are
    matched case-insensitively the page is written. *)
Theorem uppercase_extension_has_no_page (convert : string -> string)
  (pygments_css BASE_CSS : string) (fold_case : bool) :
  let entries := [File "intro.md" "# Intro"; File "README.MD" "# Read me"] in
  doc_paths (build_tree demo_root entries)
  = [["content"; "intro.md"]; ["content"; "README.MD"]]%string
  /\ (exists ms,
         nav_html (build_tree demo_root entries) ["content"; "intro.md"]%string demo_root
         = Ok (String.concat Str.nl (map to_html ms))
         /\ flat_map m_links ms = [("intro.html", true); ("README.html", false)]%string)
  /\ (exists ops,
         generate_site convert pygments_css BASE_CSS true fold_case demo_root entries None
         = Ok ops
         /\ map op_dest ops
            = [["static"; "style.css"]; ["intro.html"]; ["index.html"]]%string)
  /\ (exists ops,
         generate_site convert pygments_css BASE_CSS false fold_case demo_root entries None
         = Ok ops
         /\ map op_dest ops
            = [["static"; "style.css"]; ["intro.html"]; ["README.html"];
               ["index.html"]]%string).
Proof.
  intros entries. split; [reflexivity|]. split; [|split].
  - exists [Link "intro.html" true 0 "intro"; Link "README.html" false 0 "README"]%string.
    split; reflexivity.
  - destruct fold_case; eexists; split; reflexivity.
  - destruct fold_case; eexists; split; reflexivity.
Qed.

Open Scope string_scope.

Open Scope list_scope.

(** A document [index.md] at the top of the source: its page is written to
    [index.html] and the redirect page is written over it afterwards; here
    the redirect page points at itself. *)
Lemma index_document_overwritten (convert : string -> string)
  (pygments_css BASE_CSS : string) (case_sensitive fold_case : bool) :
  exists page,
    generate_site convert pygments_css BASE_CSS case_sensitive fold_case demo_root
      [File "index.md" "# Home"] None
    = Ok [WriteText ["static"; "style.css"]%string (BASE_CSS ++ Str.nl ++ pygments_css)%string;
          WriteText ["index.html"%string] page;
          WriteText ["index.html"%string] (redirect_page "index.html")].
Proof. destruct case_sensitive, fold_case; eexists; reflexivity. Qed.

Open Scope string_scope.

(* ================================================================== *)
(** * Further properties of the code *)

(* ------------------------------------------------------------------ *)
(** ** The tree mirrors the directory *)

Open Scope list_scope.

(** The documents of the tree of a listing, from the documents that each
    entry adds. *)
Lemma listing_doc_paths (root : Path) (entries : list entry) (p : Path) :
  Forall (fun c => forall root p,
              In p (flat_map doc_paths (add_child root c)) <->
              (is_document c = true /\ p = root ++ [entry_name c])
              \/ (is_dir c = true
                  /\ exists rel e,
                       entry_at (dir_entries c) rel e /\ is_document e = true
                       /\ p = root ++ entry_name c :: rel)) entries ->
  In p (doc_paths (build_tree root entries)) <->
  exists rel e,
    entry_at entries rel e /\ is_document e = true /\ p = root ++ rel.
Proof.
  intros IH. rewrite Forall_forall in IH.
  rewrite build_tree_unfold. cbn [doc_paths]. split.
  - intros H. apply in_flat_map in H as [n [Hn Hp]].
    apply in_flat_map in Hn as [c [Hc Hn]]. apply in_sorted in Hc.
    assert (Hin : In p (flat_map doc_paths (add_child root c)))
      by (apply in_flat_map; eauto).
    apply (IH c Hc) in Hin.
    destruct Hin as [[Hd ->]|[Hdir [rel [e [Hat [Hd ->]]]]]].
    + exists [entry_name c], c. repeat split; auto. now constructor.
    + exists (entry_name c :: rel), e. repeat split; auto. now constructor.
  - intros [rel [e [Hat [Hd ->]]]].
    assert (Hc : exists c, In c entries /\
               In (root ++ rel) (flat_map doc_paths (add_child root c))).
    { inversion Hat as [? ? Hin|? d rel' ? Hin Hdir Hat']; subst.
      - exists e. split; [exact Hin|]. apply (IH e Hin). now left.
      - exists d. split; [exact Hin|]. apply (IH d Hin). right.
        split; [exact Hdir|]. exists rel', e. auto. }
    destruct Hc as [c [Hc Hp]].
    apply in_flat_map in Hp as [n [Hn Hp]].
    apply in_flat_map. exists n. split; [|exact Hp].
    apply in_flat_map. exists c. split; [|exact Hn]. now apply in_sorted.
Qed.

(** The documents that an entry adds to the tree. *)
Lemma add_child_doc_paths (c : entry) :
  forall root p,
    In p (flat_map doc_paths (add_child root c)) <->
    (is_document c = true /\ p = root ++ [entry_name c])
    \/ (is_dir c = true
        /\ exists rel e,
             entry_at (dir_entries c) rel e /\ is_document e = true
             /\ p = root ++ entry_name c :: rel).
Proof.
  induction c as [nm t|nm|nm sub IH|nm|nm t|nm sub IH] using entry_ind;
    intros root p.
  1,2,4,5: unfold is_document; simpl; destruct (is_md nm); simpl; split;
    [intros [<-|[]]; now left
    |intros [[_ ->]|[H _]]; [now left|discriminate]
    |tauto
    |intros [[H _]|[H _]]; discriminate].
  all: rewrite add_child_dir by reflexivity; cbn [entry_name dir_entries].
  all: cbn [flat_map]; rewrite app_nil_r.
  all: rewrite (listing_doc_paths _ sub p IH).
  all: unfold PurePath.joinpath; split.
  all: try (intros [rel [e [Hat [Hd ->]]]]; right; split; [reflexivity|];
            exists rel, e; rewrite <- app_assoc; auto).
  all: intros [[H _]|[_ [rel [e [Hat [Hd ->]]]]]]; [discriminate|];
    exists rel, e; rewrite <- app_assoc; auto.
Qed.

Lemma build_tree_doc_paths (root : Path) (entries : list entry) (p : Path) :
  In p (doc_paths (build_tree root entries)) <->
  exists rel e,
    entry_at entries rel e /\ is_document e = true /\ p = root ++ rel.
Proof.
  apply listing_doc_paths, Forall_forall. intros c _. apply add_child_doc_paths.
Qed.

(** The documents of the tree are the entries with the document extension
    that are no directories, at every level, each at its own path: no
    document of the directory is left out and nothing else becomes one. *)
Theorem tree_documents (root : Path) (entries : list entry) (p : Path) :
  In p (doc_paths (build_tree root entries)) <->
  exists rel e,
    entry_at entries rel e /\ is_document e = true /\ p = root ++ rel.
Proof. apply build_tree_doc_paths. Qed.

Open Scope string_scope.

Open Scope list_scope.

(** The directory nodes of the tree of a listing, from the directory nodes
    that each entry adds. *)
Lemma listing_dir_paths (root : Path) (entries : list entry) (p : Path) :
  Forall (fun c => forall root p,
              In p (flat_map dir_paths (add_child root c)) <->
              is_dir c = true
              /\ (p = root ++ [entry_name c]
                  \/ exists rel e,
                       entry_at (dir_entries c) rel e /\ is_dir e = true
                       /\ p = root ++ entry_name c :: rel)) entries ->
  In p (dir_paths (build_tree root entries)) <->
  p = root
  \/ exists rel e, entry_at entries rel e /\ is_dir e = true /\ p = root ++ rel.
Proof.
  intros IH. rewrite Forall_forall in IH.
  rewrite build_tree_unfold. cbn [dir_paths]. split.
  - intros [<-|H]; [now left|right].
    apply in_flat_map in H as [n [Hn Hp]].
    apply in_flat_map in Hn as [c [Hc Hn]]. apply in_sorted in Hc.
    assert (Hin : In p (flat_map dir_paths (add_child root c)))
      by (apply in_flat_map; eauto).
    apply (IH c Hc) in Hin.
    destruct Hin as [Hdir [->|[rel [e [Hat [Hd ->]]]]]].
    + exists [entry_name c], c. repeat split; auto. now constructor.
    + exists (entry_name c :: rel), e. repeat split; auto. now constructor.
  - intros [->|[rel [e [Hat [Hd ->]]]]]; [now left|right].
    assert (Hc : exists c, In c entries /\
               In (root ++ rel) (flat_map dir_paths (add_child root c))).
    { inversion Hat as [? ? Hin|? d rel' ? Hin Hdir Hat']; subst.
      - exists e. split; [exact Hin|]. apply (IH e Hin). auto.
      - exists d. split; [exact Hin|]. apply (IH d Hin).
        split; [exact Hdir|right]. exists rel', e. auto. }
    destruct Hc as [c [Hc Hp]].
    apply in_flat_map in Hp as [n [Hn Hp]].
    apply in_flat_map. exists n. split; [|exact Hp].
    apply in_flat_map. exists c. split; [|exact Hn]. now apply in_sorted.
Qed.

(** The directory nodes that an entry adds to the tree. *)
Lemma add_child_dir_paths (c : entry) :
  forall root p,
    In p (flat_map dir_paths (add_child root c)) <->
    is_dir c = true
    /\ (p = root ++ [entry_name c]
        \/ exists rel e,
             entry_at (dir_entries c) rel e /\ is_dir e = true
             /\ p = root ++ entry_name c :: rel).
Proof.
  induction c as [nm t|nm|nm sub IH|nm|nm t|nm sub IH] using entry_ind;
    intros root p.
  1,2,4,5: simpl; destruct (is_md nm); simpl; split; try tauto;
    intros [H _]; discriminate.
  all: rewrite add_child_dir by reflexivity; cbn [entry_name dir_entries].
  all: cbn [flat_map]; rewrite app_nil_r.
  all: rewrite (listing_dir_paths _ sub p IH).
  all: unfold PurePath.joinpath; split.
  all: try (intros [->|[rel [e [Hat [Hd ->]]]]]; (split; [reflexivity|]);
            [now left|right; exists rel, e; rewrite <- app_assoc; auto]).
  all: intros [_ [->|[rel [e [Hat [Hd ->]]]]]];
    [now left|right; exists rel, e; rewrite <- app_assoc; auto].
Qed.

(** The directory nodes of the tree are the root and the subdirectories at
    every level, each at its own path, whatever they hold. *)
Theorem tree_directories (root : Path) (entries : list entry) (p : Path) :
  In p (dir_paths (build_tree root entries)) <->
  p = root
  \/ exists rel e, entry_at entries rel e /\ is_dir e = true /\ p = root ++ rel.
Proof.
  apply listing_dir_paths, Forall_forall. intros c _. apply add_child_dir_paths.
Qed.

Lemma flat_map_nil_iff {A B : Type} (f : A -> list B) (l : list A) :
  flat_map f l = [] <-> forall a, In a l -> f a = [].
Proof.
  induction l as [|a l IH]; simpl; [tauto|]. split.
  - intros H. apply app_eq_nil in H as [Ha Hl]. intros b [<-|Hb]; [exact Ha|].
    now apply IH.
  - intros H. rewrite (H a) by now left. apply IH. intros b Hb. apply H. now right.
Qed.

Lemma add_child_nil_iff (root : Path) (e : entry) :
  add_child root e = [] <-> is_asset_entry e = true.
Proof.
  unfold is_asset_entry.
  destruct e as [nm t|nm sub|nm|nm sub|nm|nm t]; simpl;
    try destruct (is_md nm); simpl; split; congruence.
Qed.

(** A directory node has no children exactly when the directory holds
    neither a subdirectory nor an entry with the document extension; an
    empty directory is such a directory.  Its node is rendered as a
    container without content, and rendering it never raises, whatever the
    current document and the root. *)
Theorem childless_directory (root : Path) (entries : list entry)
  (current_md : option Path) (base : Path) (depth : nat) :
  (node_children (build_tree root entries) = []
   <-> forallb is_asset_entry entries = true)
  /\ (forallb is_asset_entry entries = true ->
      render_nav (build_tree root entries) current_md base depth
      = Ok (to_html (Details (is_open root current_md) depth (PurePath.name root) []))
      /\ to_html (Details (is_open root current_md) depth (PurePath.name root) [])
         = (("<details" ++ open_attr root current_md ++ style_attr depth
             ++ "><summary title=" ++ Str.q ++ PurePath.name root ++ Str.q ++ ">"
             ++ PurePath.name root ++ "</summary>") ++ Str.nl ++ "</details>")%string).
Proof.
  assert (E : node_children (build_tree root entries) = []
              <-> forallb is_asset_entry entries = true).
  { rewrite build_tree_unfold. cbn [node_children].
    rewrite flat_map_nil_iff, forallb_forall. split.
    - intros H e He. apply (add_child_nil_iff root). apply H. now apply in_sorted.
    - intros H e He. apply add_child_nil_iff. apply H. now apply in_sorted in He. }
  split; [exact E|]. intros H. apply E in H.
  rewrite build_tree_unfold in H |- *. cbn [node_children] in H. rewrite H.
  split; reflexivity.
Qed.

Lemma childless_directory_witness :
  add_child demo_root (Dir "empty" []) = [build_tree ["content"; "empty"]%string []]
  /\ render_nav (build_tree ["content"; "img"]%string [File "logo.png" "png"])
       (Some demo_cur) demo_root 1
     = Ok (to_html (Details false 1 "img" [])).
Proof.
  split; [reflexivity|].
  destruct (childless_directory ["content"; "img"]%string [File "logo.png" "png"]
              (Some demo_cur) demo_root 1) as [_ H].
  destruct H as [H _]; [reflexivity|]. exact H.
Defined.

Open Scope string_scope.

(* ------------------------------------------------------------------ *)
(** ** When the renderer returns and what it raises *)

Open Scope list_scope.

Lemma mapM_Raise_inv {A B : Type} (f : A -> result B) (l : list A) (e : exn) :
  mapM f l = Raise e -> exists a, In a l /\ f a = Raise e.
Proof.
  induction l as [|a l IH]; simpl; [discriminate|].
  destruct (f a) as [b|e'] eqn:Ea; simpl.
  - destruct (mapM f l) as [bs|e'']; simpl; [discriminate|].
    intros [= ->]. destruct (IH eq_refl) as [a' [Ha' Hf]]. exists a'. auto.
  - intros [= ->]. exists a. auto.
Qed.

Lemma mapM_Ok_all {A B : Type} (f : A -> result B) (l : list A) (bs : list B) :
  mapM f l = Ok bs -> forall a, In a l -> exists b, f a = Ok b.
Proof.
  intros H a Ha. apply mapM_Forall2 in H.
  induction H as [|a' b l bs Hab _ IH]; [contradiction|].
  destruct Ha as [->|Ha]; eauto.
Qed.

Lemma nav_view_Ok_inv (root : Path) (current_md : option Path) (node : Node) :
  forall depth m,
    nav_view node current_md root depth = Ok m ->
    docs_under root node = true
    /\ (doc_paths node = [] \/ cur_under root current_md = true).
Proof.
  induction node as [name path is_dir cs IH] using Node_ind; intros depth m Hm.
  destruct is_dir.
  - rewrite nav_view_dir in Hm. apply bind_Ok in Hm as [ms [Hms _]].
    pose proof (mapM_Ok_all _ _ _ Hms) as Hall. rewrite Forall_forall in IH.
    assert (Hkids : forall c, In c cs ->
               docs_under root c = true
               /\ (doc_paths c = [] \/ cur_under root current_md = true)).
    { intros c Hc. destruct (Hall c Hc) as [mc Hmc]. now apply (IH c Hc _ _ Hmc). }
    split.
    + unfold docs_under. cbn [doc_paths]. apply forallb_forall. intros p Hp.
      apply in_flat_map in Hp as [c [Hc Hp]].
      destruct (Hkids c Hc) as [Hd _]. unfold docs_under in Hd.
      rewrite forallb_forall in Hd. now apply Hd.
    + destruct (cur_under root current_md); [now right|left].
      cbn [doc_paths]. apply flat_map_nil_iff. intros c Hc.
      destruct (Hkids c Hc) as [_ [H|H]]; [exact H|discriminate].
  - cbn [nav_view] in Hm.
    apply bind_Ok in Hm as [rel [Hrel Hm]].
    apply bind_Ok in Hm as [h [Hh Hm]].
    apply bind_Ok in Hm as [a [Ha _]].
    apply relative_to_Ok in Hrel. subst path. split.
    + unfold docs_under, doc_ok. cbn [doc_paths forallb].
      rewrite is_relative_to_app, rel_of_app, andb_true_r. cbn [andb].
      unfold PurePath.with_suffix in Hh.
      destruct (String.eqb (PurePath.name rel) EmptyString); [discriminate|reflexivity].
    + right. destruct current_md as [cur|]; [|reflexivity]. simpl in Ha |- *.
      unfold PurePath.relative_to in Ha.
      destruct (PurePath.is_relative_to cur root); [reflexivity|discriminate].
Qed.

Lemma nav_view_no_docs (root : Path) (current_md : option Path) (node : Node) :
  doc_paths node = [] -> forall depth, exists m, nav_view node current_md root depth = Ok m.
Proof.
  induction node as [name path is_dir cs IH] using Node_ind; intros H depth.
  destruct is_dir; [|discriminate].
  cbn [doc_paths] in H. rewrite nav_view_dir.
  destruct (mapM_Forall2_total (fun c => nav_view c current_md root (S depth))
              (fun _ _ => True) cs) as [ms [Hms _]].
  { rewrite Forall_forall in *. intros c Hc.
    destruct (IH c Hc (proj1 (flat_map_nil_iff _ _) H c Hc) (S depth)) as [m Hm].
    exists m. auto. }
  rewrite Hms. cbn [bind]. eauto.
Qed.

Lemma nav_view_raises (root : Path) (current_md : option Path) (node : Node) :
  forall depth e, nav_view node current_md root depth = Raise e -> e = ValueError.
Proof.
  induction node as [name path is_dir cs IH] using Node_ind; intros depth e He.
  destruct is_dir.
  - rewrite nav_view_dir in He.
    destruct (mapM (fun c => nav_view c current_md root (S depth)) cs) as [ms|e'] eqn:E;
      cbn [bind] in He; [discriminate|]. injection He as ->.
    apply mapM_Raise_inv in E as [c [Hc Hr]]. rewrite Forall_forall in IH.
    now apply (IH c Hc _ _ Hr).
  - cbn [nav_view] in He. unfold PurePath.relative_to, PurePath.with_suffix, is_active in He.
    destruct (PurePath.is_relative_to path root); cbn [bind] in He; [|congruence].
    destruct (String.eqb _ EmptyString); cbn [bind] in He; [congruence|].
    destruct current_md as [cur|]; cbn [bind] in He; [|discriminate].
    unfold PurePath.relative_to in He.
    destruct (PurePath.is_relative_to cur root); cbn [bind] in He; congruence.
Qed.

(** The renderer returns exactly when every document node of the tree lies
    properly under the root and, if the tree has a document, so does the
    current document when one is given; a tree of directories only is
    rendered for every current document.  When the renderer does not return,
    the exception is [ValueError]. *)
Theorem render_nav_returns (node : Node) (current_md : option Path) (root : Path)
  (depth : nat) :
  ((exists out, render_nav node current_md root depth = Ok out)
   <-> docs_under root node = true
       /\ (doc_paths node = [] \/ cur_under root current_md = true))
  /\ (forall e, render_nav node current_md root depth = Raise e -> e = ValueError).
Proof.
  rewrite render_nav_view. split; [split|].
  - intros [out H]. apply bind_Ok in H as [m [Hm _]]. eapply nav_view_Ok_inv; eassumption.
  - intros [Hdocs [Hnone|Hcur]].
    + destruct (nav_view_no_docs root current_md node Hnone depth) as [m Hm].
      rewrite Hm. cbn [bind]. eauto.
    + destruct (nav_view_shows root current_md node Hcur Hdocs depth) as [m [Hm _]].
      rewrite Hm. cbn [bind]. eauto.
  - intros e H.
    destruct (nav_view node current_md root depth) as [m|e'] eqn:E; cbn [bind] in H;
      [discriminate|]. injection H as <-. eapply nav_view_raises; eassumption.
Qed.



Open Scope string_scope.

(* ------------------------------------------------------------------ *)
(** ** The files of a run *)

Open Scope list_scope.











Section RunFiles.
Variable convert : string -> string.
Variable pygments_css : string.
Variable BASE_CSS : string.
Variable case_sensitive : bool.
Variable fold_case : bool.
Variable input_dir : Path.
Variable entries : list entry.




End RunFiles.











Open Scope string_scope.


(* ------------------------------------------------------------------ *)
(** ** The pattern of the scan and the suffix of a name *)

Lemma lower_ascii_dot (c : ascii) :
  Ascii.eqb (Str.lower_ascii c) "." = Ascii.eqb c ".".
Proof.
  destruct c as [b0 b1 b2 b3 b4 b5 b6 b7].
  destruct b0, b1, b2, b3, b4, b5, b6, b7; reflexivity.
Qed.

Lemma rfind_dot_lower (s : string) : Str.rfind_dot (Str.lower s) = Str.rfind_dot s.
Proof.
  induction s as [|c s IH]; [reflexivity|].
  cbn [Str.lower Str.rfind_dot]. now rewrite IH, lower_ascii_dot.
Qed.

Lemma length_lower (s : string) : String.length (Str.lower s) = String.length s.
Proof. induction s as [|c s IH]; [reflexivity|]. cbn. now rewrite IH. Qed.

Lemma substring_lower (s : string) :
  forall i n, substring i n (Str.lower s) = Str.lower (substring i n s).
Proof.
  induction s as [|c s IH]; intros i n.
  - destruct i, n; reflexivity.
  - destruct i as [|i]; [destruct n as [|n]|]; cbn; [reflexivity| |apply IH].
    now rewrite IH.
Qed.

Lemma suffix_of_lower (s : string) :
  PurePath.suffix_of (Str.lower s) = Str.lower (PurePath.suffix_of s).
Proof.
  unfold PurePath.suffix_of, PurePath.split_at.
  rewrite rfind_dot_lower, length_lower.
  destruct (Str.rfind_dot s) as [i|]; [|reflexivity].
  destruct ((0 <? i) && (i <? String.length s - 1))%nat; [|reflexivity].
  apply substring_lower.
Qed.

Lemma rfind_dot_append (a t : string) (i : nat) :
  Str.rfind_dot t = Some i -> Str.rfind_dot (a ++ t) = Some (String.length a + i).
Proof.
  intros H. induction a as [|c a IH]; [exact H|].
  cbn [append Str.rfind_dot String.length]. now rewrite IH.
Qed.

Lemma substring_all (t : string) : substring 0 (String.length t) t = t.
Proof. induction t as [|c t IH]; [reflexivity|]. cbn. now rewrite IH. Qed.

Lemma substring_append_r (a t : string) (n : nat) :
  substring (String.length a) n (a ++ t) = substring 0 n t.
Proof. induction a as [|c a IH]; [reflexivity|]. exact IH. Qed.

Lemma endswith_append (a t : string) : Str.endswith (a ++ t) t = true.
Proof.
  unfold Str.endswith. rewrite length_append.
  replace (String.length a + String.length t - String.length t)
    with (String.length a) by lia.
  rewrite substring_append_r, substring_all, String.eqb_refl.
  apply andb_true_iff. split; [|reflexivity]. apply Nat.leb_le. lia.
Qed.

Lemma endswith_inv (s t : string) :
  Str.endswith s t = true -> exists a, s = a ++ t.
Proof.
  unfold Str.endswith. intros H. apply andb_true_iff in H as [Hl He].
  apply Nat.leb_le in Hl. apply String.eqb_eq in He.
  exists (substring 0 (String.length s - String.length t) s).
  assert (Hs : String.length s - String.length t <= String.length s) by lia.
  apply substring_split in Hs.
  replace (String.length s - (String.length s - String.length t))
    with (String.length t) in Hs by lia.
  rewrite He in Hs. now symmetry.
Qed.

Lemma suffix_of_append_md (a : string) :
  a <> EmptyString -> PurePath.suffix_of (a ++ ".md") = ".md".
Proof.
  intros Ha. unfold PurePath.suffix_of, PurePath.split_at.
  rewrite (rfind_dot_append a ".md" 0) by reflexivity.
  rewrite length_append, Nat.add_0_r. cbn [String.length].
  assert (Hl : 0 < String.length a) by (destruct a; [congruence|cbn; lia]).
  replace ((0 <? String.length a) && (String.length a <? String.length a + 3 - 1))%nat
    with true.
  - replace (String.length a + 3 - String.length a) with 3 by lia.
    now rewrite substring_append_r.
  - symmetry. apply andb_true_iff. split; apply Nat.ltb_lt; lia.
Qed.

Lemma endswith_md_iff (s : string) :
  Str.endswith s ".md" = true <-> PurePath.suffix_of s = ".md" \/ s = ".md".
Proof.
  split.
  - intros H. apply endswith_inv in H as [a ->].
    destruct a as [|c a]; [now right|left].
    now apply suffix_of_append_md.
  - intros [H| ->]; [|reflexivity].
    rewrite <- (stem_suffix s), H. apply endswith_append.
Qed.

(** The scan for the documents and the test of the tree builder agree up
    to the case of the letters and one name.  Without regard to case, the
    pattern of the scan matches the names that the tree builder takes for
    documents and, besides, the names that are the bare document suffix, which
    [pathlib] gives no suffix.  With regard to case, it matches the names
    whose suffix is the document suffix in lower case, and the bare suffix. *)
Theorem scan_pattern_and_suffix (nm : string) :
  (fnmatch_md false nm = true <-> is_md nm = true \/ Str.lower nm = ".md")
  /\ (fnmatch_md true nm = true <-> PurePath.suffix_of nm = ".md" \/ nm = ".md").
Proof.
  unfold fnmatch_md, is_md. split.
  - rewrite endswith_md_iff, suffix_of_lower, String.eqb_eq. reflexivity.
  - apply endswith_md_iff.
Qed.

Open Scope list_scope.

(** Every match of the scan that is no directory is a document of the
    tree, and so has a link in the navigation, unless its name is the bare
    document suffix. *)
Theorem scanned_are_documents (case_sensitive : bool) (input_dir : Path)
  (entries : list entry) (p : Path) (e : entry) :
  In (p, e) (rglob (fnmatch_md case_sensitive) input_dir entries) ->
  is_dir e = false ->
  In p (doc_paths (build_tree input_dir entries))
  \/ Str.lower (entry_name e) = ".md"%string.
Proof.
  intros Hin Hd. apply rglob_iff in Hin as [rel [Hat [Hpat ->]]].
  assert (H : is_md (entry_name e) = true \/ Str.lower (entry_name e) = ".md"%string).
  { destruct case_sensitive.
    - apply endswith_md_iff in Hpat as [H|H].
      + left. unfold is_md. now rewrite H.
      + right. now rewrite H.
    - unfold fnmatch_md in Hpat. apply endswith_md_iff in Hpat as [H|H].
      + left. unfold is_md. rewrite <- suffix_of_lower, H. reflexivity.
      + now right. }
  destruct H as [H|H]; [left|now right].
  apply build_tree_doc_paths. exists rel, e.
  split; [now apply scan_at_entry_at|]. split; [|reflexivity].
  unfold is_document. now rewrite Hd, H.
Qed.

Lemma scanned_are_documents_witness :
  In ["content"; "guide"; "deep"; "more.md"]%string
     (doc_paths (build_tree demo_root site_entries))
  \/ Str.lower (entry_name (File "more.md" "## More")) = ".md"%string.
Proof.
  apply (scanned_are_documents true demo_root site_entries
           ["content"; "guide"; "deep"; "more.md"]%string (File "more.md" "## More")).
  - vm_compute. tauto.
  - reflexivity.
Defined.

Open Scope string_scope.

(* ------------------------------------------------------------------ *)
(** ** What a title is *)

Lemma after_gt_inv (s r : string) :
  after_gt s = Some r -> exists attrs, s = attrs ++ String ">" r /\ no_gt attrs = true.
Proof.
  induction s as [|c s IH]; [discriminate|]. cbn [after_gt].
  destruct (Ascii.eqb c ">") eqn:E.
  - intros H. injection H as <-. apply Ascii.eqb_eq in E as ->.
    now exists EmptyString.
  - intros H. destruct (IH H) as [attrs [-> Ha]]. exists (String c attrs).
    split; [reflexivity|]. cbn [no_gt]. now rewrite E, Ha.
Qed.

Lemma closing_tag_inv (s : string) :
  closing_tag s = true ->
  exists d' post, s = "</h" ++ String d' (String ">" post) /\ is_h_level d' = true.
Proof.
  destruct s as [|c1 [|c2 [|c3 [|d [|c5 post]]]]]; try discriminate.
  cbn [closing_tag]. intros H.
  apply andb_true_iff in H as [H H5]. apply andb_true_iff in H as [H Hd].
  apply andb_true_iff in H as [H H3]. apply andb_true_iff in H as [H1 H2].
  apply Ascii.eqb_eq in H1 as ->. apply Ascii.eqb_eq in H2 as ->.
  apply Ascii.eqb_eq in H3 as ->. apply Ascii.eqb_eq in H5 as ->.
  now exists d, post.
Qed.

Lemma closing_tag_app (x y : string) :
  closing_tag x = true -> closing_tag (x ++ y) = true.
Proof.
  destruct x as [|c1 [|c2 [|c3 [|d [|c5 x]]]]]; try discriminate. exact (fun H => H).
Qed.

Lemma has_closing_app_l (a b : string) :
  has_closing a = true -> has_closing (a ++ b) = true.
Proof.
  induction a as [|c a IH]; [discriminate|]. cbn [has_closing append].
  intros H. apply orb_true_iff in H as [H|H]; apply orb_true_iff.
  - left. now apply (closing_tag_app (String c a) b).
  - right. now apply IH.
Qed.

Lemma has_closing_app_r (a b : string) :
  has_closing b = true -> has_closing (a ++ b) = true.
Proof.
  intros H. induction a as [|c a IH]; [exact H|].
  cbn [has_closing append]. rewrite IH. apply orb_true_r.
Qed.

Lemma lazy_group_inv (s t : string) :
  lazy_group s = Some t ->
  exists d' post,
    s = t ++ "</h" ++ String d' (String ">" post)
    /\ is_h_level d' = true /\ one_line t = true /\ has_closing t = false.
Proof.
  revert t. induction s as [|c s IH]; intros t; [discriminate|].
  cbn [lazy_group]. destruct (closing_tag (String c s)) eqn:Ec.
  - intros H. injection H as <-.
    apply closing_tag_inv in Ec as [d' [post [E Hd]]]. now exists d', post.
  - destruct (Ascii.eqb c Str.LF) eqn:El; [discriminate|].
    destruct (lazy_group s) as [t'|]; [|discriminate].
    intros H. injection H as <-.
    destruct (IH t' eq_refl) as [d' [post [-> [Hd [Hl Hc]]]]].
    exists d', post. split; [reflexivity|]. split; [exact Hd|].
    split; [cbn [one_line]; now rewrite El, Hl|].
    cbn [has_closing]. rewrite Hc, orb_false_r.
    destruct (closing_tag (String c t')) eqn:E; [|reflexivity].
    apply (closing_tag_app _ ("</h" ++ String d' (String ">" post))) in E.
    cbn [append] in E, Ec. congruence.
Qed.

Lemma match_heading_inv (s t : string) :
  match_heading s = Some t ->
  exists d attrs d' post,
    s = heading d attrs t d' ++ post
    /\ is_h_level d = true /\ is_h_level d' = true
    /\ no_gt attrs = true /\ one_line t = true /\ has_closing t = false.
Proof.
  destruct s as [|c1 [|c2 [|d s]]]; try discriminate. cbn [match_heading].
  destruct (Ascii.eqb c1 "<" && Ascii.eqb c2 "h" && is_h_level d) eqn:E;
    [|discriminate].
  apply andb_true_iff in E as [E Hd]. apply andb_true_iff in E as [E1 E2].
  apply Ascii.eqb_eq in E1 as ->. apply Ascii.eqb_eq in E2 as ->.
  destruct (after_gt s) as [r|] eqn:Ea; [|discriminate].
  intros Hl. apply after_gt_inv in Ea as [attrs [-> Ha]].
  apply lazy_group_inv in Hl as [d' [post [-> [Hd' [Hl Hc]]]]].
  exists d, attrs, d', post. split; [|now repeat split].
  unfold heading. cbn [append]. rewrite append_assoc. cbn [append].
  rewrite append_assoc. reflexivity.
Qed.

Lemma extract_title_inv (html t : string) :
  extract_title html = Some t ->
  exists pre rest,
    html = pre ++ rest /\ match_heading rest = Some t /\ no_earlier pre rest = true.
Proof.
  induction html as [|c html IH].
  - cbn. discriminate.
  - cbn [extract_title]. destruct (match_heading (String c html)) as [g|] eqn:E.
    + intros H. injection H as <-. exists EmptyString, (String c html). auto.
    + intros H. destruct (IH H) as [pre [rest [-> [Hm Hn]]]].
      exists (String c pre), rest. split; [reflexivity|]. split; [exact Hm|].
      cbn [no_earlier append]. now rewrite E.
Qed.

Lemma extract_title_shape (html t : string) :
  extract_title html = Some t ->
  exists pre d attrs d' post,
    html = pre ++ heading d attrs t d' ++ post
    /\ is_h_level d = true /\ is_h_level d' = true
    /\ no_gt attrs = true /\ one_line t = true /\ has_closing t = false
    /\ no_earlier pre (heading d attrs t d' ++ post) = true.
Proof.
  intros H. apply extract_title_inv in H as [pre [rest [-> [Hm Hn]]]].
  apply match_heading_inv in Hm as [d [attrs [d' [post [-> H]]]]].
  exists pre, d, attrs, d', post. split; [reflexivity|].
  destruct H as [H1 [H2 [H3 [H4 H5]]]]. now repeat split.
Qed.

Lemma no_opening_no_title (s : string) :
  has_opening s = false -> extract_title s = None.
Proof.
  induction s as [|c s IH]; [reflexivity|]. cbn [has_opening extract_title].
  intros H. apply orb_false_iff in H as [H1 H2].
  rewrite match_heading_opening by exact H1. now apply IH.
Qed.

Lemma stem_of_nonempty (nm : string) :
  nm <> EmptyString -> PurePath.stem_of nm <> EmptyString.
Proof.
  intros Hne. unfold PurePath.stem_of, PurePath.split_at.
  destruct (Str.rfind_dot nm) as [i|]; [|exact Hne].
  destruct ((0 <? i) && (i <? String.length nm - 1))%nat eqn:E; [|exact Hne].
  apply andb_true_iff in E as [E _]. apply Nat.ltb_lt in E.
  destruct nm as [|c nm]; [congruence|]. destruct i as [|i]; [lia|]. discriminate.
Qed.

(** Whatever [extract_title] returns is the text of a heading element of
    the body: the body holds, with no match of the pattern before it, an
    opening tag of level 1 to 3, the returned text, and a closing tag of level
    1 to 3, which need not be the level of the opening tag; the returned text
    is one line and holds no such closing tag. *)
Theorem extract_title_sound (html t : string) :
  extract_title html = Some t ->
  exists pre d attrs d' post,
    html = pre ++ heading d attrs t d' ++ post
    /\ is_h_level d = true /\ is_h_level d' = true
    /\ no_gt attrs = true /\ one_line t = true /\ has_closing t = false
    /\ no_earlier pre (heading d attrs t d' ++ post) = true.
Proof. apply extract_title_shape. Qed.

Lemma extract_title_sound_witness :
  exists pre d attrs d' post,
    "<p>x</p><h2 id=a>Title</h3>tail"
    = pre ++ heading d attrs "Title" d' ++ post
    /\ is_h_level d = true /\ is_h_level d' = true
    /\ no_gt attrs = true /\ one_line "Title" = true /\ has_closing "Title" = false
    /\ no_earlier pre (heading d attrs "Title" d' ++ post) = true.
Proof.
  apply (extract_title_sound "<p>x</p><h2 id=a>Title</h3>tail" "Title").
  reflexivity.
Defined.

(** A body that holds no opening of a level 1 to 3 heading tag, or no
    closing tag of such a heading, has no title of its own: the page gets the
    stem of the file name. *)
Theorem no_title_without_tags (html stem : string) :
  has_opening html = false \/ has_closing html = false ->
  extract_title html = None /\ page_title html stem = stem.
Proof.
  intros H.
  assert (E : extract_title html = None).
  { destruct H as [H|H]; [now apply no_opening_no_title|].
    destruct (extract_title html) as [t|] eqn:E; [|reflexivity].
    apply extract_title_shape in E
      as [pre [d [attrs [d' [post [-> [_ [Hd' _]]]]]]]].
    rewrite has_closing_app_r in H; [discriminate|].
    unfold heading. rewrite !append_assoc.
    change ("<h" ++ String d attrs ++ ">" ++ t ++ "</h" ++ String d' ">" ++ post)
      with (("<h" ++ String d attrs) ++ ">" ++ t ++ "</h" ++ String d' ">" ++ post).
    apply has_closing_app_r. change (">" ++ t ++ "</h" ++ String d' ">" ++ post)
      with (String ">" (t ++ "</h" ++ String d' ">" ++ post)).
    apply (has_closing_app_r (String ">" t)).
    cbn. now rewrite Hd'. }
  split; [exact E|]. unfold page_title. now rewrite E.
Qed.

Lemma no_title_without_tags_witness :
  extract_title "<h1>Title<h1>" = None /\ page_title "<h1>Title<h1>" "intro" = "intro".
Proof.
  apply (no_title_without_tags "<h1>Title<h1>" "intro"). right. reflexivity.
Defined.

(** The title of a page is never empty: the stem of a name that is not
    empty is not empty, and an empty heading gives way to the stem. *)
Theorem page_title_nonempty (body nm : string) :
  nm <> EmptyString -> page_title body (PurePath.stem_of nm) <> EmptyString.
Proof.
  intros Hne. unfold page_title.
  destruct (extract_title body) as [t|]; [|now apply stem_of_nonempty].
  destruct (String.eqb t EmptyString) eqn:E; [now apply stem_of_nonempty|].
  now apply String.eqb_neq in E.
Qed.

Lemma page_title_nonempty_witness :
  page_title "<h1></h1>" (PurePath.stem_of ".md") <> EmptyString.
Proof.
  apply (page_title_nonempty "<h1></h1>" ".md"). discriminate.
Defined.

(* ------------------------------------------------------------------ *)
(** ** The rewriting of the highlight blocks *)

Lemma strip_prefix_app (p r : string) : strip_prefix p (p ++ r) = Some r.
Proof.
  induction p as [|a p IH]; [reflexivity|].
  cbn [append strip_prefix]. now rewrite Ascii.eqb_refl.
Qed.

Lemma strip_prefix_inv (p s r : string) : strip_prefix p s = Some r -> s = p ++ r.
Proof.
  revert s. induction p as [|a p IH]; intros s.
  - cbn. now intros [= ->].
  - destruct s as [|b s]; [discriminate|]. cbn [strip_prefix].
    destruct (Ascii.eqb a b) eqn:E; [|discriminate].
    apply Ascii.eqb_eq in E as ->. intros H. cbn [append]. f_equal. now apply IH.
Qed.

Lemma prefix_strip (p s : string) : prefix p s = false -> strip_prefix p s = None.
Proof.
  revert s. induction p as [|a p IH]; intros s.
  - destruct s; discriminate.
  - destruct s as [|b s]; [reflexivity|]. cbn [prefix strip_prefix].
    destruct (ascii_dec a b) as [->|Hne].
    + rewrite Ascii.eqb_refl. apply IH.
    + intros _. apply Ascii.eqb_neq in Hne. now rewrite Hne.
Qed.

Lemma word_not_space (c : ascii) : is_word c = true -> is_space c = false.
Proof.
  destruct c as [b0 b1 b2 b3 b4 b5 b6 b7].
  destruct b0, b1, b2, b3, b4, b5, b6, b7; (reflexivity || discriminate).
Qed.

Lemma skip_spaces_app (sp r : string) :
  all_chars is_space sp = true -> skip_spaces (sp ++ r) = skip_spaces r.
Proof.
  induction sp as [|c sp IH]; [reflexivity|]. cbn [all_chars].
  intros H. apply andb_true_iff in H as [Hc H].
  cbn [append skip_spaces]. rewrite Hc. now apply IH.
Qed.

Lemma skip_spaces_suffix (s : string) : exists a, s = a ++ skip_spaces s.
Proof.
  induction s as [|c s [a IH]]; [now exists EmptyString|].
  cbn [skip_spaces]. destruct (is_space c).
  - exists (String c a). cbn [append]. now f_equal.
  - now exists EmptyString.
Qed.

Lemma take_word_app (w r : string) :
  all_chars is_word w = true -> take_word r = (EmptyString, r) ->
  take_word (w ++ r) = (w, r).
Proof.
  intros Hw Hr. induction w as [|c w IH]; [exact Hr|].
  cbn [all_chars] in Hw. apply andb_true_iff in Hw as [Hc Hw].
  cbn [append take_word]. rewrite Hc, (IH Hw). reflexivity.
Qed.

Lemma take_word_split (s : string) : s = fst (take_word s) ++ snd (take_word s).
Proof.
  induction s as [|c s IH]; [reflexivity|]. cbn [take_word].
  destruct (is_word c); [|reflexivity].
  destruct (take_word s) as [w r]. cbn [fst snd append] in *. now f_equal.
Qed.

Lemma take_word_spaces (sp r : string) :
  all_chars is_space sp = true ->
  take_word (sp ++ String "%" r) = (EmptyString, sp ++ String "%" r).
Proof.
  destruct sp as [|c sp]; [reflexivity|]. cbn [all_chars]. intros H.
  apply andb_true_iff in H as [Hc _]. cbn [append take_word].
  destruct (is_word c) eqn:E; [|reflexivity].
  apply word_not_space in E. congruence.
Qed.

Lemma match_open_tag (sp1 sp2 lang sp3 r : string) :
  all_chars is_space sp1 = true -> all_chars is_space sp2 = true ->
  all_chars is_space sp3 = true -> sp2 <> EmptyString ->
  all_chars is_word lang = true -> lang <> EmptyString ->
  match_open ("{%" ++ sp1 ++ "highlight" ++ sp2 ++ lang ++ sp3 ++ "%}" ++ r)
  = Some (lang, r).
Proof.
  intros H1 H2 H3 Hne2 Hw Hnew. unfold match_open.
  rewrite strip_prefix_app, (skip_spaces_app sp1) by assumption.
  change (skip_spaces ("highlight" ++ sp2 ++ lang ++ sp3 ++ "%}" ++ r))
    with ("highlight" ++ sp2 ++ lang ++ sp3 ++ "%}" ++ r).
  rewrite strip_prefix_app.
  destruct sp2 as [|c sp2]; [congruence|]. cbn [all_chars] in H2.
  apply andb_true_iff in H2 as [Hc H2]. cbn [append]. rewrite Hc.
  rewrite (skip_spaces_app sp2) by assumption.
  destruct lang as [|l lang]; [congruence|].
  pose proof Hw as Hw'. cbn [all_chars] in Hw'.
  apply andb_true_iff in Hw' as [Hl _]. apply word_not_space in Hl.
  replace (skip_spaces (String l lang ++ sp3 ++ String "%" (String "}" r)))
    with (String l lang ++ sp3 ++ String "%" (String "}" r))
    by (cbn [append skip_spaces]; now rewrite Hl).
  rewrite (take_word_app (String l lang)); [|exact Hw|now apply take_word_spaces].
  rewrite (skip_spaces_app sp3) by assumption.
  reflexivity.
Qed.

Lemma match_close_tag (sp4 sp5 r : string) :
  all_chars is_space sp4 = true -> all_chars is_space sp5 = true ->
  match_close ("{%" ++ sp4 ++ "endhighlight" ++ sp5 ++ "%}" ++ r) = Some r.
Proof.
  intros H4 H5. unfold match_close.
  rewrite strip_prefix_app, (skip_spaces_app sp4) by assumption.
  change (skip_spaces ("endhighlight" ++ sp5 ++ "%}" ++ r))
    with ("endhighlight" ++ sp5 ++ "%}" ++ r).
  rewrite strip_prefix_app, (skip_spaces_app sp5) by assumption.
  reflexivity.
Qed.

(** No tag starts in a text without its first two characters, also when a
    tag follows the text. *)
Lemma no_tag_start (c : ascii) (s r : string) :
  contains "{%" (String c s) = false ->
  strip_prefix "{%" (String c s ++ String "{" r) = None.
Proof.
  cbn [contains]. intros H. apply orb_false_iff in H as [H _].
  cbn [append strip_prefix]. destruct (Ascii.eqb "{" c) eqn:E; [|reflexivity].
  apply Ascii.eqb_eq in E as <-.
  destruct s as [|c2 s]; [reflexivity|]. cbn [append].
  destruct (Ascii.eqb "%" c2) eqn:E2; [|reflexivity].
  apply Ascii.eqb_eq in E2 as <-. cbn in H. destruct s; discriminate H.
Qed.

Lemma find_end_unfold (s : string) :
  find_end s
  = match match_close s with
    | Some r => Some (EmptyString, r)
    | None =>
        match s with
        | EmptyString => None
        | String c s' =>
            match find_end s' with
            | Some (code, r) => Some (String c code, r)
            | None => None
            end
        end
    end.
Proof. destruct s; reflexivity. Qed.

Lemma find_end_code (code sp4 sp5 r : string) :
  all_chars is_space sp4 = true -> all_chars is_space sp5 = true ->
  contains "{%" code = false ->
  find_end (code ++ "{%" ++ sp4 ++ "endhighlight" ++ sp5 ++ "%}" ++ r)
  = Some (code, r).
Proof.
  intros H4 H5. induction code as [|c code IH]; intros Hc.
  - change (find_end ("{%" ++ sp4 ++ "endhighlight" ++ sp5 ++ "%}" ++ r)
            = Some (EmptyString, r)).
    rewrite find_end_unfold. now rewrite match_close_tag.
  - rewrite find_end_unfold. unfold match_close.
    change ("{%" ++ sp4 ++ "endhighlight" ++ sp5 ++ "%}" ++ r)
      with (String "{" ("%" ++ sp4 ++ "endhighlight" ++ sp5 ++ "%}" ++ r)) at 1.
    rewrite no_tag_start by exact Hc.
    cbn [append]. cbn [append] in IH. rewrite IH; [reflexivity|].
    cbn [contains] in Hc. now apply orb_false_iff in Hc.
Qed.

Lemma sub_from_skip (a r : string) :
  sub_from (String.length a) (a ++ r) = sub_from 0 r.
Proof. induction a as [|c a IH]; [reflexivity|]. exact IH. Qed.

Lemma sub_from_match (c : ascii) (a rest repl : string) :
  match_block (String c (a ++ rest)) = Some (repl, rest) ->
  sub_from 0 (String c (a ++ rest)) = repl ++ sub_from 0 rest.
Proof.
  intros H. cbn [sub_from]. rewrite H, length_append.
  replace (String.length a + String.length rest - String.length rest)
    with (String.length a) by lia.
  now rewrite sub_from_skip.
Qed.

Lemma sub_from_pre (pre r : string) :
  contains "{%" pre = false ->
  sub_from 0 (pre ++ String "{" r) = pre ++ sub_from 0 (String "{" r).
Proof.
  induction pre as [|c pre IH]; intros H; [reflexivity|].
  pose proof (no_tag_start c pre r H) as E.
  cbn [append] in E |- *. cbn [sub_from]. unfold match_block, match_open.
  rewrite E. f_equal. apply IH.
  cbn [contains] in H. now apply orb_false_iff in H.
Qed.

Lemma no_tags_unchanged (s : string) :
  contains "{%" s = false -> sub_from 0 s = s.
Proof.
  induction s as [|c s IH]; [reflexivity|]. cbn [contains].
  intros H. apply orb_false_iff in H as [Hp Hc].
  cbn [sub_from]. unfold match_block, match_open.
  rewrite (prefix_strip _ _ Hp). f_equal. now apply IH.
Qed.

Lemma contains_prefix (p s : string) : prefix p s = true -> contains p s = true.
Proof.
  destruct s as [|c s]; [exact (fun H => H)|]. cbn [contains]. now intros ->.
Qed.

Lemma contains_app_r (p a s : string) :
  contains p s = true -> contains p (a ++ s) = true.
Proof.
  intros H. induction a as [|c a IH]; [exact H|].
  cbn [append contains]. rewrite IH. apply orb_true_r.
Qed.

Lemma match_close_contains (s r : string) :
  match_close s = Some r -> contains "endhighlight" s = true.
Proof.
  unfold match_close. destruct (strip_prefix "{%" s) as [r1|] eqn:E1; [|discriminate].
  destruct (strip_prefix "endhighlight" (skip_spaces r1)) as [r2|] eqn:E2;
    [|discriminate].
  intros _. apply strip_prefix_inv in E1 as ->. apply strip_prefix_inv in E2.
  destruct (skip_spaces_suffix r1) as [a Ha]. rewrite E2 in Ha. rewrite Ha.
  apply contains_app_r, contains_app_r, contains_prefix, prefix_append.
Qed.

Lemma find_end_contains (s : string) :
  forall code r, find_end s = Some (code, r) -> contains "endhighlight" s = true.
Proof.
  induction s as [|c s IH]; intros code r; rewrite find_end_unfold.
  - cbn. discriminate.
  - destruct (match_close (String c s)) as [r0|] eqn:E.
    + intros _. now apply match_close_contains in E.
    + destruct (find_end s) as [[code' r']|] eqn:Ef; [|discriminate].
      intros _. cbn [contains]. rewrite (IH _ _ eq_refl). apply orb_true_r.
Qed.

Lemma match_open_suffix (s lang r : string) :
  match_open s = Some (lang, r) -> exists a, s = a ++ r.
Proof.
  unfold match_open. destruct (strip_prefix "{%" s) as [r1|] eqn:E1; [|discriminate].
  destruct (strip_prefix "highlight" (skip_spaces r1)) as [[|c r2]|] eqn:E2;
    try discriminate.
  destruct (is_space c); [|discriminate].
  pose proof (take_word_split (skip_spaces r2)) as Hw.
  destruct (take_word (skip_spaces r2)) as [w r3]. cbn [fst snd] in Hw.
  destruct w as [|l w]; [discriminate|].
  destruct (strip_prefix "%}" (skip_spaces r3)) as [r4|] eqn:E4; [|discriminate].
  intros H. injection H as _ <-.
  apply strip_prefix_inv in E1 as ->. apply strip_prefix_inv in E2.
  apply strip_prefix_inv in E4.
  destruct (skip_spaces_suffix r1) as [a1 H1].
  destruct (skip_spaces_suffix r2) as [a2 H2].
  destruct (skip_spaces_suffix r3) as [a3 H3].
  exists ("{%" ++ a1 ++ "highlight" ++ String c a2 ++ String l w ++ a3 ++ "%}").
  rewrite E2 in H1. rewrite Hw in H2. rewrite E4 in H3.
  rewrite H1, H2, H3.
  repeat (progress cbn [append] || rewrite append_assoc). reflexivity.
Qed.

Lemma match_block_contains (s repl rest : string) :
  match_block s = Some (repl, rest) -> contains "endhighlight" s = true.
Proof.
  unfold match_block. destruct (match_open s) as [[lang r]|] eqn:Eo; [|discriminate].
  destruct (find_end r) as [[code r']|] eqn:Ef; [|discriminate]. intros _.
  apply match_open_suffix in Eo as [a ->].
  apply contains_app_r. now apply find_end_contains in Ef.
Qed.

Lemma no_end_unchanged (s : string) :
  contains "endhighlight" s = false -> sub_from 0 s = s.
Proof.
  induction s as [|c s IH]; [reflexivity|]. intros H. cbn [sub_from].
  destruct (match_block (String c s)) as [[repl rest]|] eqn:E.
  - apply match_block_contains in E. congruence.
  - f_equal. apply IH. cbn [contains] in H. now apply orb_false_iff in H.
Qed.

(** A text that holds no [{%], or no [endhighlight], reaches the converter
    as it is: the rewriting changes nothing, and in particular an opening tag
    without a closing tag stays in the text. *)
Theorem highlight_unchanged (markdown : string -> string) (text : string) :
  contains "{%" text = false \/ contains "endhighlight" text = false ->
  highlight_to_fence text = text
  /\ md_to_html (fun t => markdown (highlight_to_fence t)) text
     = md_to_html markdown text.
Proof.
  intros H.
  assert (E : highlight_to_fence text = text).
  { destruct H as [H|H]; [now apply no_tags_unchanged|now apply no_end_unchanged]. }
  split; [exact E|]. unfold md_to_html. now rewrite E.
Qed.

Lemma highlight_unchanged_witness :
  highlight_to_fence ("{% highlight python %}" ++ Str.nl ++ "x = 1")
  = "{% highlight python %}" ++ Str.nl ++ "x = 1"
  /\ md_to_html (fun t => "<p>" ++ highlight_to_fence t ++ "</p>")
       ("{% highlight python %}" ++ Str.nl ++ "x = 1")
     = md_to_html (fun t => "<p>" ++ t ++ "</p>")
         ("{% highlight python %}" ++ Str.nl ++ "x = 1").
Proof.
  apply (highlight_unchanged (fun t => "<p>" ++ t ++ "</p>")
           ("{% highlight python %}" ++ Str.nl ++ "x = 1")).
  right. reflexivity.
Defined.

(** A highlight block becomes a fenced block: the first block of a text,
    with its language made of word characters, white space where the pattern
    allows it and a code that holds no [{%], is replaced by three backquotes,
    the language, the code as it is (line feeds included) and three
    backquotes; the text before the block is kept and the text after it is
    rewritten in the same way.  Nothing is put between the language and the
    code. *)
Theorem highlight_rewritten (pre sp1 sp2 lang sp3 code sp4 sp5 post : string) :
  contains "{%" pre = false ->
  all_chars is_space sp1 = true -> all_chars is_space sp2 = true ->
  all_chars is_space sp3 = true -> all_chars is_space sp4 = true ->
  all_chars is_space sp5 = true -> sp2 <> EmptyString ->
  all_chars is_word lang = true -> lang <> EmptyString ->
  contains "{%" code = false ->
  highlight_to_fence (pre ++ highlight_block sp1 sp2 lang sp3 code sp4 sp5 ++ post)
  = pre ++ FENCE ++ lang ++ code ++ FENCE ++ highlight_to_fence post.
Proof.
  intros Hpre H1 H2 H3 H4 H5 Hne2 Hw Hnew Hcode. unfold highlight_to_fence.
  set (tail := "%" ++ sp1 ++ "highlight" ++ sp2 ++ lang ++ sp3 ++ "%}" ++ code
               ++ "{%" ++ sp4 ++ "endhighlight" ++ sp5 ++ "%}").
  assert (Eb : highlight_block sp1 sp2 lang sp3 code sp4 sp5 ++ post
               = String "{" (tail ++ post)) by reflexivity.
  rewrite Eb, sub_from_pre by exact Hpre. f_equal.
  rewrite (sub_from_match "{" tail post (FENCE ++ lang ++ code ++ FENCE)).
  - now rewrite !append_assoc.
  - unfold match_block.
    assert (Et : String "{" (tail ++ post)
                 = "{%" ++ sp1 ++ "highlight" ++ sp2 ++ lang ++ sp3 ++ "%}"
                   ++ (code ++ "{%" ++ sp4 ++ "endhighlight" ++ sp5 ++ "%}" ++ post)).
    { unfold tail.
      repeat (progress cbn [append] || rewrite append_assoc). reflexivity. }
    rewrite Et, match_open_tag by assumption.
    now rewrite find_end_code by assumption.
Qed.

Lemma highlight_rewritten_witness :
  let nbsp := String (ascii_of_nat 160) EmptyString in
  let lang := "pyth" ++ String (ascii_of_nat 246) "n" in
  highlight_to_fence
    ("Intro" ++ Str.nl
     ++ highlight_block " " nbsp lang " " (Str.nl ++ "x = {1}" ++ Str.nl) " " " "
     ++ Str.nl ++ "Done")
  = "Intro" ++ Str.nl ++ FENCE ++ lang ++ (Str.nl ++ "x = {1}" ++ Str.nl)
    ++ FENCE ++ highlight_to_fence (Str.nl ++ "Done").
Proof.
  intros nbsp lang.
  apply (highlight_rewritten ("Intro" ++ Str.nl) " " nbsp lang " "
           (Str.nl ++ "x = {1}" ++ Str.nl) " " " " (Str.nl ++ "Done"));
    (reflexivity || discriminate).
Defined.
